(** * Path selection in SOL: a shallow embedding of [sol/path/select.pyx]

    The development follows the Cython module that implements the path
    selection strategies (random, k-shortest, resource-weighted, ILP,
    iterative doubling and simulated annealing) together with the
    clustering preprocessor. It also covers the service and middlebox
    methods of the class [Topology] of [sol/topology/topology.pyx] and the
    list utilities that come with it.

    Conventions of the embedding:
    - numpy arrays of masks and of indices are lists of integers
      ([ndarray]); a boolean mask holds 0 (visible) and 1 (masked);
    - Python floats are idealised as exact rationals ([Qc]);
    - a Python exception is a value of [exn]; fallible code returns [res];
    - code that mutates shared arrays, draws random numbers, reads the clock
      or drives the solver runs in the state monad [M] over [world];
    - numpy, the random generators, the clock, the solver and sklearn are
      external: they enter as section variables. *)

From Stdlib Require Import ZArith QArith Qcanon Lia Sorting.Sorted Permutation.
From Stdlib Require Import Strings.Ascii.
From stdpp Require Import base list strings gmap pretty.

Open Scope Z_scope.

(** ** Exceptions and fallible results *)

Inductive exn : Type :=
| ValueError (msg : string)
| TypeError (msg : string)
| IndexError
| KeyError
| AttributeError (name : string)
| NameError (name : string)
| UnboundLocalError (name : string)
| ZeroDivisionError
| StopIteration
| SOLException (msg : string)
| InvalidConfigException (msg : string)
| OutOfFuel.

Inductive res (A : Type) : Type :=
| Ok (a : A)
| Raise (e : exn).
Arguments Ok {A} a.
Arguments Raise {A} e.

Definition res_bind {A B} (r : res A) (k : A -> res B) : res B :=
  match r with
  | Ok a => k a
  | Raise e => Raise e
  end.

Declare Scope res_scope.
Delimit Scope res_scope with res.
Notation "'let!' x ':=' e 'in' k" := (res_bind e (fun x => k))
  (at level 10, x pattern, e at level 100, k at level 200) : res_scope.
Open Scope res_scope.

Definition is_ok {A} (r : res A) : bool :=
  match r with Ok _ => true | Raise _ => false end.

(** ** Rational numbers standing for Python floats *)

Definition Qcleb (a b : Qc) : bool := Qle_bool a b.
Definition Qcltb (a b : Qc) : bool := negb (Qle_bool b a).
Definition Qceqb (a b : Qc) : bool := Qeq_bool a b.
Definition Qc_of_Z (z : Z) : Qc := Q2Qc (inject_Z z).
Definition Qc_of_nat (n : nat) : Qc := Qc_of_Z (Z.of_nat n).
Definition Qcsum (l : list Qc) : Qc := foldr Qcplus (Q2Qc 0) l.

(** ** numpy primitives *)

(** An array of integers: a mask, or a list of indices. *)
Abbreviation ndarray := (list Z).

Module np.

Definition size (a : ndarray) : Z := Z.of_nat (length a).

(** [ones(n)] *)
Definition ones (n : nat) : ndarray := replicate n 1.

(** [a.fill(v)] *)
Definition fill (v : Z) (a : ndarray) : ndarray := replicate (length a) v.

(** [(a == 0).sum()] *)
Definition count_zero (a : ndarray) : Z :=
  Z.of_nat (length (filter (fun v => v = 0) a)).

(** [a[idxs] = v]: assignment through a list of indices; an index past the
    end raises [IndexError]. *)
Fixpoint put (idxs : list nat) (v : Z) (a : ndarray) : res ndarray :=
  match idxs with
  | [] => Ok a
  | i :: rest =>
      if decide (i < length a)%nat then put rest v (<[i:=v]> a)
      else Raise IndexError
  end.

(** [l[:m]] with Python's meaning of a negative bound. *)
Definition slice_to {A} (m : Z) (l : list A) : list A :=
  if decide (0 <= m) then take (Z.to_nat m) l
  else take (Z.to_nat (Z.of_nat (length l) + m)) l.

(** [(bitwise_xor(a, b) == 0).all()] on arrays of one shape; arrays of
    different lengths do not broadcast and raise [ValueError]. *)
Definition xor_all_zero (a b : ndarray) : res bool :=
  if decide (length a = length b) then
    Ok (forallb (fun xy => Z.lxor xy.1 xy.2 =? 0) (zip a b))
  else Raise (ValueError "operands could not be broadcast together").

(** [arange(n)] *)
Definition arange (n : nat) : list nat := seq 0 n.

(** [flipud] on a one-dimensional array *)
Definition flipud {A} (l : list A) : list A := reverse l.

End np.

(** ** Data model *)

(** A path is a sequence of node identifiers; the variant with middleboxes
    also lists the middlebox nodes it uses. [len(p)] is the node count. *)
Inductive Path : Type :=
| PlainPath (nodes : list Z)
| PathWithMbox (nodes : list Z) (mboxes : list Z).

Definition path_nodes (p : Path) : list Z :=
  match p with PlainPath ns => ns | PathWithMbox ns _ => ns end.

Definition path_len (p : Path) : nat := length (path_nodes p).

Fixpoint consecutive (ns : list Z) : list (Z * Z) :=
  match ns with
  | a :: (b :: _) as rest => (a, b) :: consecutive rest
  | _ => []
  end.

Definition path_links (p : Path) : list (Z * Z) := consecutive (path_nodes p).

(** The fields of [TrafficClass] the selection code reads. *)
Record TrafficClass : Type := mkTC {
  ID : Z;
  priority : Z;
  src : Z;
  dst : Z;
  volFlows : list Qc
}.

(** Modelled from the spec: the PPTC container of [sol.path.paths], absent
    from the sources. It maps a traffic class to its candidate paths and a
    mask of the same length; 0 means visible, anything else masked. The
    entries are kept in iteration order. *)
Record pptc_entry : Type := mkEntry {
  entry_tc : TrafficClass;
  entry_paths : list Path;
  entry_mask : ndarray
}.

Definition PPTC := list pptc_entry.

Module pptc.

Definition tcs (p : PPTC) : list TrafficClass := map entry_tc p.

Definition num_paths (e : pptc_entry) (all : bool) : Z :=
  if all then Z.of_nat (length (entry_paths e))
  else np.count_zero (entry_mask e).

Definition set_mask (e : pptc_entry) (m : ndarray) : pptc_entry :=
  mkEntry (entry_tc e) (entry_paths e) m.

Definition unmask (e : pptc_entry) : pptc_entry :=
  set_mask e (replicate (length (entry_paths e)) 0).

Definition max_paths (p : PPTC) (all : bool) : Z :=
  foldr Z.max 0 (map (fun e => num_paths e all) p).

Definition merge (ps : list PPTC) : PPTC := concat ps.

(** [mask(tc, m)] and [get_mask(tc)] address an entry by the identifier
    of its traffic class. *)
Definition mask (p : PPTC) (tcid : Z) (m : ndarray) : PPTC :=
  map (fun e => if decide (ID (entry_tc e) = tcid) then set_mask e m else e) p.

(** The indices of the visible paths of an entry. *)
Definition visible (e : pptc_entry) : list nat :=
  filter (fun i => entry_mask e !! i = Some 0) (seq 0 (length (entry_mask e))).

End pptc.

(** Modelled from the spec: the topology of [sol.topology.topologynx], absent
    from the sources: per-node and per-link resource maps (name to
    capacity), the total of a resource over all nodes and links, the
    diameter, the number of nodes and the name. *)
Record Topology : Type := mkTopology {
  topo_name : string;
  topo_num_nodes : Z;
  topo_node_resources : Z -> gmap string Qc;
  topo_link_resources : Z * Z -> gmap string Qc;
  topo_total_resource : string -> Qc;
  topo_diameter : Qc
}.

(** An application, as far as selection reads it: its volume and the
    resources it consumes. Its paths live in the merged container. *)
Record App : Type := mkApp {
  app_pptc : PPTC;
  app_volume : Qc;
  app_resource_cost : list string
}.

(** ** The solver interface

    An entry of the solver's tensor [xps] is either an integer literal or a
    decision variable carrying a value [.x]. *)
Inductive FlowVar : Type :=
| IntLit (z : Z)
| Var (x : Qc).

(** [xps[tcid, j, :]]: the row of a traffic class and a dense path index,
    [None] when the index is out of bounds. *)
Definition xps_t := Z -> nat -> option (list FlowVar).

(** Modelled from the spec: the enumerations of [sol.utils.const] and the
    network configuration, absent from the sources. Both enumerations are
    closed; the spec names one member of each. *)
Inductive Fairness : Type :=
| WEIGHTED
| OtherFairness (tag : Z).

Inductive EpochComposition : Type :=
| WORST
| OtherComposition (tag : Z).

Record NetworkConfig : Type := mkNetworkConfig {
  net_capacities : gmap string Qc
}.

(** The calls a selector makes on an optimization object. [Compose] holds
    the arguments of [compose_apps]; the applications' paths are the merged
    container, whose masks the applications share. *)
Inductive solver_call : Type :=
| Compose (problem : PPTC) (topo : Topology) (cfg : NetworkConfig)
          (fairness : Fairness) (epoch_mode : EpochComposition)
| CapNumPaths (cap : Z)
| Solve
| Write (fname : string)
| WriteSolution (fname : string).

(** ** Shared state

    [heap] holds the arrays that the annealing code shares by reference;
    [np_draws], [py_draws] and [ticks] count the calls of
    [numpy.random.choice], [random.random] and [time.time] made so far;
    [solver_log] lists the solver calls in order, each with the handle of
    the optimization object it was made on. *)
Definition ref := nat.
Definition Opt := nat.

Record world : Type := mkWorld {
  heap : list ndarray;
  np_draws : nat;
  py_draws : nat;
  ticks : nat;
  solver_log : list (Opt * solver_call)
}.

Definition M (A : Type) : Type := world -> res A * world.

Definition ret {A} (a : A) : M A := fun w => (Ok a, w).

Definition raise {A} (e : exn) : M A := fun w => (Raise e, w).

Definition bind {A B} (m : M A) (k : A -> M B) : M B :=
  fun w => match m w with
           | (Ok a, w') => k a w'
           | (Raise e, w') => (Raise e, w')
           end.

Definition lift {A} (r : res A) : M A := fun w => (r, w).

Declare Scope monad_scope.
Delimit Scope monad_scope with M.
Notation "x <- e ;; k" := (bind e (fun x => k))
  (at level 100, e at next level, right associativity) : monad_scope.
Notation "e ;; k" := (bind e (fun _ => k))
  (at level 100, right associativity) : monad_scope.

(** *** Arrays by reference *)

Definition load (r : ref) : M ndarray :=
  fun w => (Ok (default [] (heap w !! r)), w).

Definition store (r : ref) (a : ndarray) : M unit :=
  fun w => (Ok tt, mkWorld (<[r:=a]> (heap w)) (np_draws w) (py_draws w)
                           (ticks w) (solver_log w)).

Definition alloc (a : ndarray) : M ref :=
  fun w => (Ok (length (heap w)),
            mkWorld (heap w ++ [a]) (np_draws w) (py_draws w)
                    (ticks w) (solver_log w)).

(** [a.copy()] *)
Definition copy (r : ref) : M ref :=
  (a <- load r ;; alloc a)%M.

(** [a[idxs] = v] on a shared array *)
Definition put_ref (r : ref) (idxs : list nat) (v : Z) : M unit :=
  (a <- load r ;; a' <- lift (np.put idxs v a) ;; store r a')%M.

Fixpoint mapM {A B} (f : A -> M B) (l : list A) : M (list B) :=
  match l with
  | [] => ret []
  | x :: rest => (y <- f x ;; ys <- mapM f rest ;; ret (y :: ys))%M
  end.

(** ** The selection module *)

Definition _RANDOM : list string := ["random"; "rand"].
Definition _SHORTEST : list string :=
  ["shortest"; "short"; "kshortest"; "k-shortest"; "kshort"; "k-short"].

Section Selection.

(** *** External collaborators *)

(** [numpy.argsort] with its default kind: some permutation of the
    indices that puts the keys in ascending order. *)
Variable argsort : forall K : Type, (K -> K -> bool) -> list K -> list nat.

(** The outcome of the [c]-th call of [numpy.random.choice] with
    [replace=False], for a population and a sample size. *)
Variable choice_oracle : nat -> list nat -> nat -> list nat.

(** The outcome of the [c]-th call of [random.random]. *)
Variable random_oracle : nat -> Qc.

(** The outcome of the [c]-th call of [time.time]. *)
Variable clock : nat -> Qc.

(** What an optimization object answers after a given sequence of calls. *)
Variable solver_is_solved : list solver_call -> bool.
Variable solver_get_time : list solver_call -> Qc.
Variable solver_get_solved_objective : list solver_call -> Qc.
Variable solver_get_xps : list solver_call -> xps_t.
Variable solver_get_chosen_paths : list solver_call -> bool -> PPTC.

(** The default of the [all] argument of [PPTC.num_paths], declared in a
    file that is not part of the sources. *)
Variable num_paths_default_all : bool.

Definition time_time : M Qc :=
  fun w => (Ok (clock (ticks w)),
            mkWorld (heap w) (np_draws w) (py_draws w) (S (ticks w))
                    (solver_log w)).

Definition random_random : M Qc :=
  fun w => (Ok (random_oracle (py_draws w)),
            mkWorld (heap w) (np_draws w) (S (py_draws w)) (ticks w)
                    (solver_log w)).

(** [choice(pop, k, replace=False)]: numpy refuses an empty population, a
    negative size and a sample larger than the population. *)
Definition np_choice (pop : list nat) (k : Z) : M (list nat) :=
  fun w =>
    if decide (pop <> [] /\ 0 <= k <= Z.of_nat (length pop)) then
      (Ok (choice_oracle (np_draws w) pop (Z.to_nat k)),
       mkWorld (heap w) (S (np_draws w)) (py_draws w) (ticks w)
               (solver_log w))
    else (Raise (ValueError "Cannot take a sample of this size"), w).

(** *** Optimization objects *)

Definition history (o : Opt) (w : world) : list solver_call :=
  map snd (filter (fun oc => oc.1 = o) (solver_log w)).

Definition solver_do (o : Opt) (c : solver_call) : M unit :=
  fun w => (Ok tt,
            mkWorld (heap w) (np_draws w) (py_draws w) (ticks w)
                    (solver_log w ++ [(o, c)])).

Definition compose_apps (problem : PPTC) (topo : Topology)
    (cfg : NetworkConfig) (fairness : Fairness)
    (epoch_mode : EpochComposition) : M Opt :=
  fun w =>
    let o := length (solver_log w) in
    (Ok o,
     mkWorld (heap w) (np_draws w) (py_draws w) (ticks w)
             (solver_log w ++ [(o, Compose problem topo cfg fairness epoch_mode)])).

Definition opt_is_solved (o : Opt) : M bool :=
  fun w => (Ok (solver_is_solved (history o w)), w).
Definition opt_get_time (o : Opt) : M Qc :=
  fun w => (Ok (solver_get_time (history o w)), w).
Definition opt_get_solved_objective (o : Opt) : M Qc :=
  fun w => (Ok (solver_get_solved_objective (history o w)), w).
Definition opt_get_xps (o : Opt) : M xps_t :=
  fun w => (Ok (solver_get_xps (history o w)), w).
Definition opt_get_chosen_paths (o : Opt) (relaxed : bool) : M PPTC :=
  fun w => (Ok (solver_get_chosen_paths (history o w) relaxed), w).

(** *** choose_rand *)

Definition choose_rand_tc (e : pptc_entry) (num_paths : Z) : M pptc_entry :=
  let n := length (entry_paths e) in
  if decide (Z.of_nat n > num_paths) then
    (idx <- np_choice (np.arange n) num_paths ;;
     mask <- lift (np.put idx 0 (np.ones n)) ;;
     ret (pptc.set_mask e mask))%M
  else ret (pptc.unmask e).

Definition choose_rand (p : PPTC) (num_paths : Z) : M PPTC :=
  mapM (fun e => choose_rand_tc e num_paths) p.

(** *** k_shortest_paths *)

Definition k_shortest_paths_tc (e : pptc_entry) (num_paths : Z)
    : res (pptc_entry * list nat) :=
  let lens := map (fun x => Z.of_nat (path_len x)) (entry_paths e) in
  let ind := argsort Z Z.leb lens in
  let mask := np.ones (Z.to_nat (pptc.num_paths e true)) in
  let! mask := np.put (np.slice_to (Z.min num_paths (np.size mask)) ind) 0 mask in
  Ok (pptc.set_mask e mask, ind).

(** The dictionary [inds] maps the identifier of a traffic class to its
    sort order; an assignment to a key that is already present overrides
    it, so the entry met last wins. [ret_mask] is accepted and not used,
    as in the source. *)
Fixpoint k_shortest_paths (p : PPTC) (num_paths : Z) (ret_mask : bool)
    : res (PPTC * gmap Z (list nat)) :=
  match p with
  | [] => Ok ([], ∅)
  | e :: rest =>
      let! (e', ind) := k_shortest_paths_tc e num_paths in
      let! (rest', inds) := k_shortest_paths rest num_paths ret_mask in
      Ok (e' :: rest', inds ∪ {[ID (entry_tc e) := ind]})
  end.

(** *** compute_score and k_resource_paths *)

Definition resource_get (m : gmap string Qc) (r : string) : Qc :=
  default (Q2Qc 0) (m !! r).

(** [t.get_resources(n).get(r, 0) for n in chain(p.nodes(), p.links())] *)
Definition path_resources (t : Topology) (p : Path) (r : string) : list Qc :=
  map (fun n => resource_get (topo_node_resources t n) r) (path_nodes p)
  ++ map (fun l => resource_get (topo_link_resources t l) r) (path_links p).

Definition Qcmax (a b : Qc) : Qc := if Qcleb a b then b else a.

(** [max(...)] of a sequence; the empty sequence raises [ValueError]. *)
Definition py_max (l : list Qc) : res Qc :=
  match l with
  | [] => Raise (ValueError "max() arg is an empty sequence")
  | x :: rest => Ok (foldl Qcmax x rest)
  end.

Definition py_div (a b : Qc) : res Qc :=
  if Qceqb b (Q2Qc 0) then Raise ZeroDivisionError else Ok (a / b)%Qc.

(** One turn of the loop [for r in weights]: the statement
    [score += max(...) / norm[r] * weights[r] - len(p) / d]. *)
Definition score_step (p : Path) (t : Topology) (norm : gmap string Qc)
    (d : Qc) (score : Qc) (rw : string * Qc) : res Qc :=
  let! mx := py_max (path_resources t p rw.1) in
  let! nr := match norm !! rw.1 with
             | Some v => Ok v
             | None => Raise KeyError
             end in
  let! q := py_div mx nr in
  let! pen := py_div (Qc_of_nat (path_len p)) d in
  Ok (score + (q * rw.2 - pen))%Qc.

Fixpoint score_loop (p : Path) (t : Topology) (norm : gmap string Qc)
    (d : Qc) (rws : list (string * Qc)) (score : Qc) : res Qc :=
  match rws with
  | [] => Ok score
  | rw :: rest =>
      let! score := score_step p t norm d score rw in
      score_loop p t norm d rest score
  end.

Definition compute_score (p : Path) (t : Topology) (weights : gmap string Qc)
    (norm : gmap string Qc) (d : Qc) : res Qc :=
  score_loop p t norm d (map_to_list weights) (Q2Qc 0).

Fixpoint res_map {A B} (f : A -> res B) (l : list A) : res (list B) :=
  match l with
  | [] => Ok []
  | x :: rest =>
      let! y := f x in
      let! ys := res_map f rest in
      Ok (y :: ys)
  end.

Definition k_resource_paths_tc (e : pptc_entry) (num_paths : Z)
    (resource_weights : gmap string Qc) (total_r : gmap string Qc) (d : Qc)
    (topo : Topology) : res (pptc_entry * list nat) :=
  let! scores := res_map (fun p => compute_score p topo resource_weights total_r d)
                         (entry_paths e) in
  let ind := np.flipud (argsort Qc Qcleb scores) in
  let mask := np.ones (Z.to_nat (pptc.num_paths e true)) in
  let! mask := np.put (np.slice_to (Z.min num_paths (np.size mask)) ind) 0 mask in
  Ok (pptc.set_mask e mask, ind).

Fixpoint k_resource_paths_loop (p : PPTC) (num_paths : Z)
    (resource_weights total_r : gmap string Qc) (d : Qc) (topo : Topology)
    : res (PPTC * gmap Z (list nat)) :=
  match p with
  | [] => Ok ([], ∅)
  | e :: rest =>
      let! (e', ind) := k_resource_paths_tc e num_paths resource_weights total_r d topo in
      let! (rest', inds) := k_resource_paths_loop rest num_paths resource_weights total_r d topo in
      Ok (e' :: rest', inds ∪ {[ID (entry_tc e) := ind]})
  end.

Definition k_resource_paths (p : PPTC) (num_paths : Z)
    (resource_weights : gmap string Qc) (topo : Topology)
    : res (PPTC * gmap Z (list nat)) :=
  let total_r := map_imap (fun r _ => Some (topo_total_resource topo r))
                          resource_weights in
  let d := topo_diameter topo in
  k_resource_paths_loop p num_paths resource_weights total_r d topo.

(** *** cluster_tcs *)

(** A matrix is a list of rows. *)
Definition matrix := list (list Qc).

Definition column (j : nat) (m : matrix) : list Qc :=
  map (fun row => nth j row (Q2Qc 0)) m.

(** [m.T] for a matrix with [ncols] columns *)
Definition transpose (ncols : nat) (m : matrix) : matrix :=
  map (fun j => column j m) (seq 0 ncols).

(** sklearn: [KMeans(n_clusters).fit(X).cluster_centers_] and
    [AgglomerativeClustering(n_clusters).fit(X).labels_]; fitting may
    raise. *)
Variable kmeans_cluster_centers : Z -> matrix -> res matrix.
Variable agglomerative_labels : Z -> matrix -> res (list Z).

Definition set_volFlows (tc : TrafficClass) (v : list Qc) : TrafficClass :=
  mkTC (ID tc) (priority tc) (src tc) (dst tc) v.

(** [for i, tc in enumerate(tcs): tc.volFlows = rows[i]] *)
Fixpoint assign_rows (tcs : list TrafficClass) (i : nat) (rows : matrix)
    : res (list TrafficClass) :=
  match tcs with
  | [] => Ok []
  | tc :: rest =>
      match rows !! i with
      | None => Raise IndexError
      | Some row =>
          let! rest' := assign_rows rest (S i) rows in
          Ok (set_volFlows tc row :: rest')
      end
  end.

(** [for i, tc in enumerate(tcs): tc.volFlows = avm[:, i]] *)
Fixpoint assign_columns (tcs : list TrafficClass) (i : nat) (ncols : nat)
    (avm : matrix) : res (list TrafficClass) :=
  match tcs with
  | [] => Ok []
  | tc :: rest =>
      if decide (i < ncols)%nat then
        let! rest' := assign_columns rest (S i) ncols avm in
        Ok (set_volFlows tc (column i avm) :: rest')
      else Raise IndexError
  end.

(** [X[labels == bucket, :].max(axis=0)]: the column-wise maximum of the
    rows with a given label; numpy refuses to reduce an empty selection. *)
Definition bucket_max (ncols : nat) (x : matrix) (labels : list Z)
    (bucket : Z) : res (list Qc) :=
  let rows := map fst (filter (fun rl => rl.2 = bucket) (zip x labels)) in
  match rows with
  | [] => Raise (ValueError "zero-size array to reduction operation maximum")
  | _ => res_map (fun j => py_max (column j rows)) (seq 0 ncols)
  end.

Definition cluster_tcs (tcs : list TrafficClass) (num_clusters : Z)
    (method : string) : res (list TrafficClass) :=
  let volumes : matrix := map volFlows tcs in
  let nepochs := match volumes with [] => O | row :: _ => length row end in
  let volumes_T := transpose nepochs volumes in
  if decide (method = "kmeans") then
    let! cc := kmeans_cluster_centers num_clusters volumes_T in
    let centers := transpose (length tcs) cc in
    assign_rows tcs 0 centers
  else if decide (method = "agg") then
    let! labels := agglomerative_labels num_clusters volumes_T in
    let! averaged := res_map (fun b => bucket_max (length tcs) volumes_T labels (Z.of_nat b))
                             (seq 0 (Z.to_nat num_clusters)) in
    match averaged with
    | [] => Raise (ValueError "need at least one array to concatenate")
    | _ => assign_columns tcs 0 (length tcs) averaged
    end
  else Raise (ValueError ("Unsupported clustering method " +:+ method)).

(** *** select_ilp *)

Definition when (b : bool) (m : M unit) : M unit := if b then m else ret tt.

Definition select_ilp (apps : list App) (topo : Topology)
    (network_config : NetworkConfig) (num_paths : Z) (debug : bool)
    (fairness : Fairness) (epoch_mode : EpochComposition)
    : M (Opt * PPTC * Qc * Qc) :=
  (start_time <- time_time ;;
   opt <- compose_apps (pptc.merge (map app_pptc apps)) topo network_config
                       fairness epoch_mode ;;
   solver_do opt (CapNumPaths ((topo_num_nodes topo - 1) ^ 2 * num_paths)) ;;
   solver_do opt Solve ;;
   t <- opt_get_time opt ;;
   let all_time := (t - start_time)%Qc in
   when debug (solver_do opt (Write ("debug/select_ilp_" +:+ topo_name topo))) ;;
   solved <- opt_is_solved opt ;;
   if negb solved then
     raise (SOLException ("Could not solve path selection problem for topology "
                          +:+ topo_name topo))
   else
     (when debug (solver_do opt
                    (WriteSolution ("debug/select_ilp_solution_" +:+ topo_name topo))) ;;
      chosen <- opt_get_chosen_paths opt false ;;
      t' <- opt_get_time opt ;;
      ret (opt, chosen, all_time, t')))%M.

(** *** select_iterative *)

(** The variables of the loop. [it_opt] is [None] until the first
    assignment to [opt]. *)
Record iter_state : Type := mkIter {
  it_i : Z;
  it_diff : Qc;
  it_old_val : Qc;
  it_k : Z;
  it_opt_time : Qc;
  it_opt : option Opt;
  it_pptc : PPTC
}.

(** [res_weights[r] += w] on a [defaultdict(int)] *)
Definition add_weight (w : Qc) (acc : gmap string Qc) (r : string)
    : gmap string Qc :=
  <[r := (default (Q2Qc 0) (acc !! r) + w)%Qc]> acc.

(** The weights of the resources: every application adds its share of the
    total volume to each resource it uses. numpy's division by a zero
    total gives nan without raising; the rational division gives 0. *)
Definition resource_weights_of (apps : list App) : gmap string Qc :=
  let total := Qcsum (map app_volume apps) in
  foldl (fun acc app =>
           foldl (add_weight (app_volume app / total)%Qc) acc
                 (app_resource_cost app))
        ∅ apps.

Definition presort (apps : list App) (topo : Topology) (all_pptc : PPTC)
    (k : Z) (sort_mode : string) : res (PPTC * gmap Z (list nat)) :=
  if decide (sort_mode = "len") then k_shortest_paths all_pptc k true
  else if decide (sort_mode = "resource") then
    k_resource_paths all_pptc k (resource_weights_of apps) topo
  else Raise (InvalidConfigException ("Unknown path sorting mode " +:+ sort_mode)).

(** [for tc in all_pptc.tcs(): ... mask[ind[:min(k, mask.size)]] = 0] *)
Fixpoint grow_masks (indices : gmap Z (list nat)) (k : Z) (p : PPTC)
    : res PPTC :=
  match p with
  | [] => Ok []
  | e :: rest =>
      let! ind := match indices !! ID (entry_tc e) with
                  | Some ind => Ok ind
                  | None => Raise KeyError
                  end in
      let mask := entry_mask e in
      let! mask := np.put (np.slice_to (Z.min k (np.size mask)) ind) 0 mask in
      let! rest' := grow_masks indices k rest in
      Ok (pptc.set_mask e mask :: rest')
  end.

Definition iter_guard (max_iter : Z) (epsilon : Qc) (mp : Z)
    (st : iter_state) : bool :=
  (it_i st <? max_iter) && Qcltb epsilon (it_diff st) && (it_k st <? mp).

Definition iter_body (topo : Topology) (network_config : NetworkConfig)
    (fairness : Fairness) (epoch_mode : EpochComposition) (debug : bool)
    (indices : gmap Z (list nat)) (st : iter_state) : M iter_state :=
  (p <- lift (grow_masks indices (it_k st) (it_pptc st)) ;;
   opt <- compose_apps p topo network_config fairness epoch_mode ;;
   when debug (solver_do opt (Write ("debug/select_iterative_" +:+ pretty (it_i st)))) ;;
   solver_do opt Solve ;;
   solved <- opt_is_solved opt ;;
   if solved then
     (obj <- opt_get_solved_objective opt ;;
      t <- opt_get_time opt ;;
      when debug (solver_do opt
                    (WriteSolution ("debug/select_iterative_" +:+ pretty (it_i st)))) ;;
      ret (mkIter (it_i st + 1) (obj - it_old_val st)%Qc obj (it_k st * 2)
                  (it_opt_time st + t)%Qc (Some opt) p))
   else
     ret (mkIter (it_i st + 1) (it_diff st) (it_old_val st) (it_k st * 2)
                 (it_opt_time st) (Some opt) p))%M.

(** The [while] loop. Every turn increments [i], so it runs at most
    [max_iter] times; [turns] bounds the number of turns. *)
Fixpoint iter_loop (turns : nat) (topo : Topology)
    (network_config : NetworkConfig) (fairness : Fairness)
    (epoch_mode : EpochComposition) (debug : bool)
    (indices : gmap Z (list nat)) (max_iter : Z) (epsilon : Qc) (mp : Z)
    (st : iter_state) : M iter_state :=
  if iter_guard max_iter epsilon mp st then
    match turns with
    | O => raise OutOfFuel
    | S turns' =>
        (st' <- iter_body topo network_config fairness epoch_mode debug indices st ;;
         iter_loop turns' topo network_config fairness epoch_mode debug
                   indices max_iter epsilon mp st')%M
    end
  else ret st.

Definition select_iterative (apps : list App) (topo : Topology)
    (network_config : NetworkConfig) (max_iter : Z) (epsilon : Qc)
    (fairness : Fairness) (epoch_mode : EpochComposition)
    (sort_mode : string) (debug : bool) : M (Opt * PPTC * Qc * Qc) :=
  (start_time <- time_time ;;
   let all_pptc := pptc.merge (map app_pptc apps) in
   let k := 5 in
   sorted <- lift (presort apps topo all_pptc k sort_mode) ;;
   let all_pptc := sorted.1 in
   let indices := sorted.2 in
   let mp := pptc.max_paths all_pptc true in
   st <- iter_loop (Z.to_nat max_iter) topo network_config fairness epoch_mode
                   debug indices max_iter epsilon mp
                   (mkIter 0 (Qc_of_Z (Z.shiftl 1 10)) (Q2Qc 0) k (Q2Qc 0) None all_pptc) ;;
   now <- time_time ;;
   let all_time := (now - start_time)%Qc in
   match it_opt st with
   | None => raise (UnboundLocalError "opt")
   | Some opt =>
       solved <- opt_is_solved opt ;;
       if negb solved then raise (SOLException "No solution exists")
       else
         (chosen <- opt_get_chosen_paths opt true ;;
          ret (opt, chosen, all_time, it_opt_time st))
   end)%M.

(** *** Simulated annealing: modes, acceptance, objective *)

(** [ExpelMode] and [ReplaceMode] are [IntEnum]s: a mode is an integer and
    is compared with [==]. *)
Definition ExpelMode_no_flow : Z := 1.
Definition ExpelMode_inverse_flow : Z := 2.
Definition ExpelMode_random : Z := 3.
Definition ExpelMode_all : Z := 4.

Definition ReplaceMode_next_sorted : Z := 1.
Definition ReplaceMode_random : Z := 3.
Definition ReplaceMode_pathtree : Z := 4.
Definition ReplaceMode_pathscore : Z := 6.

(** The state of an optimization: its objective, or [-inf] when unsolved. *)
Inductive objective : Type :=
| NegInf
| Finite (v : Qc).

Definition obj_leb (a b : objective) : bool :=
  match a, b with
  | NegInf, _ => true
  | Finite _, NegInf => false
  | Finite x, Finite y => Qcleb x y
  end.

Definition _saprob (oldo newo : objective) (temp : Qc) : Qc :=
  if obj_leb oldo newo then Q2Qc 1 else Q2Qc 0.

Definition _obj_state (opt : Opt) : M objective :=
  (solved <- opt_is_solved opt ;;
   if solved then (v <- opt_get_solved_objective opt ;; ret (Finite v))
   else ret NegInf)%M.

(** *** PathTree *)

(** [buckets] keeps the keys in the order the dictionary yields them;
    [bucket_iter] and [inner_iters] are the positions of the cyclic
    iterators over the keys and inside each bucket. *)
Record PathTree : Type := mkPathTree {
  buckets : list (Z * list nat);
  bucket_iter : nat;
  inner_iters : list nat
}.

(** [self.buckets[m].append(pi)] on a [defaultdict] *)
Fixpoint bucket_append (m : Z) (pi : nat) (bs : list (Z * list nat))
    : list (Z * list nat) :=
  match bs with
  | [] => [(m, [pi])]
  | (k, v) :: rest =>
      if decide (k = m) then (k, v ++ [pi]) :: rest
      else (k, v) :: bucket_append m pi rest
  end.

Fixpoint fill_buckets (paths : list Path) (pi : nat) (bs : list (Z * list nat))
    : res (list (Z * list nat)) :=
  match paths with
  | [] => Ok bs
  | PathWithMbox _ ms :: rest =>
      fill_buckets rest (S pi) (foldl (fun acc m => bucket_append m pi acc) bs ms)
  | PlainPath _ :: _ => Raise (AttributeError "mboxes")
  end.

Definition PathTree_init (paths : list Path) : res PathTree :=
  match paths with
  | [] => Raise IndexError
  | PathWithMbox _ _ :: _ =>
      let! bs := fill_buckets paths 0 [] in
      Ok (mkPathTree bs 0 (map (fun _ => O) bs))
  | PlainPath _ :: _ =>
      let _pathlen := map (fun x => Z.of_nat (path_len x)) paths in
      Ok (mkPathTree [(0, argsort Z Z.leb _pathlen)] 0 [O])
  end.

(** [next(tree)]: advance the iterator over the buckets, then the iterator
    of the bucket it yields. *)
Definition PathTree_next (t : PathTree) : res (nat * PathTree) :=
  let nb := length (buckets t) in
  match buckets t !! (bucket_iter t mod nb)%nat,
        inner_iters t !! (bucket_iter t mod nb)%nat with
  | Some (_, items), Some c =>
      match items !! (c mod length items)%nat with
      | Some i =>
          Ok (i, mkPathTree (buckets t) (S (bucket_iter t))
                            (<[(bucket_iter t mod nb)%nat := S c]> (inner_iters t)))
      | None => Raise StopIteration
      end
  | _, _ => Raise StopIteration
  end.

(** *** _expel *)

Definition xps_row (xps : option xps_t) (tcid : Z) (ii : nat)
    : res (list FlowVar) :=
  match xps with
  | None => Raise (TypeError "'NoneType' object is not subscriptable")
  | Some x =>
      match x tcid ii with
      | Some row => Ok row
      | None => Raise IndexError
      end
  end.

(** [[x.x for x in row if not isinstance(x, int)]] *)
Definition flow_values (row : list FlowVar) : list Qc :=
  omap (fun x => match x with IntLit _ => None | Var v => Some v end) row.

(** [any([x.x != 0 for x in row if not isinstance(x, int)])] *)
Definition any_flow (row : list FlowVar) : bool :=
  existsb (fun v => negb (Qceqb v (Q2Qc 0))) (flow_values row).

(** [mean] of a list; numpy gives nan for the empty list. *)
Definition py_mean (l : list Qc) : option Qc :=
  match l with
  | [] => None
  | _ => Some (Qcsum l / Qc_of_nat (length l))%Qc
  end.

(** The loops of [_expel] read entry [i] of the mask before they write it
    and write no other entry, so they are folds over the entries. [ii]
    counts the visible entries met so far. *)
Fixpoint expel_no_flow (tcid : Z) (xps : option xps_t) (ii : nat)
    (m : ndarray) : res ndarray :=
  match m with
  | [] => Ok []
  | maskval :: rest =>
      if maskval =? 0 then
        let! row := xps_row xps tcid ii in
        let! rest' := expel_no_flow tcid xps (S ii) rest in
        Ok ((if negb (any_flow row) then 1 else maskval) :: rest')
      else
        let! rest' := expel_no_flow tcid xps ii rest in
        Ok (maskval :: rest')
  end.

Fixpoint expel_inverse_flow (tcid : Z) (xps : option xps_t) (ii : nat)
    (m : ndarray) : M ndarray :=
  match m with
  | [] => ret []
  | maskval :: rest =>
      if maskval =? 0 then
        (row <- lift (xps_row xps tcid ii) ;;
         u <- random_random ;;
         let expelled := match py_mean (flow_values row) with
                         | Some flow => Qcleb u (Q2Qc 1 - flow)%Qc
                         | None => false
                         end in
         rest' <- expel_inverse_flow tcid xps (S ii) rest ;;
         ret ((if expelled then 1 else maskval) :: rest'))%M
      else
        (rest' <- expel_inverse_flow tcid xps ii rest ;;
         ret (maskval :: rest'))%M
  end.

Fixpoint expel_random (m : ndarray) : M ndarray :=
  match m with
  | [] => ret []
  | maskval :: rest =>
      if maskval =? 0 then
        (u <- random_random ;;
         rest' <- expel_random rest ;;
         ret ((if Qcltb u (Q2Qc (1 # 2)) then 1 else maskval) :: rest'))%M
      else
        (rest' <- expel_random rest ;;
         ret (maskval :: rest'))%M
  end.

(** [_expel] changes [existing_mask] in place and returns the same array. *)
Definition _expel (tcid : Z) (existing_mask : ref) (xps : option xps_t)
    (mode : Z) : M ref :=
  (m <- load existing_mask ;;
   m' <- (if decide (mode = ExpelMode_no_flow) then
            lift (expel_no_flow tcid xps 0 m)
          else if decide (mode = ExpelMode_inverse_flow) then
            expel_inverse_flow tcid xps 0 m
          else if decide (mode = ExpelMode_random) then
            expel_random m
          else if decide (mode = ExpelMode_all) then
            ret (np.fill 1 m)
          else raise (ValueError "Unsupported annealing expel mode")) ;;
   store existing_mask m' ;;
   ret existing_mask)%M.

(** *** _in *)

Fixpoint _in (mask : ref) (explored : list ref) : M bool :=
  match explored with
  | [] => ret false
  | x :: rest =>
      (m <- load mask ;;
       xv <- load x ;;
       same <- lift (np.xor_all_zero m xv) ;;
       if same then ret true else _in mask rest)%M
  end.

(** [_path_score] builds [defaultdict([])], which Python refuses: the
    first argument of [defaultdict] must be callable or [None]. *)
Definition _path_score (path : Path) (topo : Topology)
    (resource_weights : gmap string Qc) : res Qc :=
  Raise (TypeError "first argument must be callable or None").

(** *** _replace *)

(** [itertools.combinations(l, k)], in its order *)
Fixpoint combinations {A} (l : list A) (k : nat) : list (list A) :=
  match k with
  | O => [[]]
  | S k' =>
      match l with
      | [] => []
      | x :: rest => map (cons x) (combinations rest k') ++ combinations rest k
      end
  end.

(** [[i for i, v in enumerate(mask) if v == 1]] *)
Definition unused_of (m : ndarray) : list nat :=
  filter (fun i => m !! i = Some 1) (seq 0 (length m)).

Fixpoint next_sorted_loop (explored : list ref) (mask : ref)
    (combs : list (list nat)) : M bool :=
  match combs with
  | [] => ret false
  | comb :: rest =>
      (put_ref mask comb 0 ;;
       seen <- _in mask explored ;;
       if negb seen then ret true
       else (put_ref mask comb 1 ;; next_sorted_loop explored mask rest))%M
  end.

(** The loop of mode [random]; [tries_left] is [max_tries - num_tries]. *)
Fixpoint random_loop (tries_left : nat) (explored : list ref) (mask : ref)
    (unused : list nat) (replace_len : Z) (comb : list nat) : M unit :=
  (seen <- _in mask explored ;;
   match tries_left with
   | S tries_left' =>
       if negb seen then
         (put_ref mask comb 1 ;;
          comb' <- np_choice unused replace_len ;;
          put_ref mask comb' 0 ;;
          random_loop tries_left' explored mask unused replace_len comb')
       else ret tt
   | O => ret tt
   end)%M.

(** [comb = set(); while len(comb) < replace_len: comb.add(next(tree))].
    The loop does not end when the tree yields fewer than [replace_len]
    distinct indices; [fuel] bounds its turns. *)
Fixpoint tree_collect (fuel : nat) (tree : PathTree) (comb : list nat)
    (replace_len : Z) : res (list nat * PathTree) :=
  if Z.of_nat (length comb) <? replace_len then
    match fuel with
    | O => Raise OutOfFuel
    | S fuel' =>
        let! (i, tree') := PathTree_next tree in
        tree_collect fuel' tree' (if decide (i ∈ comb) then comb else comb ++ [i])
                     replace_len
    end
  else Ok (comb, tree).

Fixpoint pathtree_loop (tries_left : nat) (fuel : nat) (explored : list ref)
    (mask : ref) (replace_len : Z) (comb : list nat) (tree : PathTree)
    : M PathTree :=
  (seen <- _in mask explored ;;
   match tries_left with
   | S tries_left' =>
       if seen then
         (put_ref mask comb 1 ;;
          ct <- lift (tree_collect fuel tree [] replace_len) ;;
          put_ref mask ct.1 0 ;;
          pathtree_loop tries_left' fuel explored mask replace_len ct.1 ct.2)
       else ret tree
   | O => ret tree
   end)%M.

Definition max_tries : nat := 100.

(** [_replace] changes [mask] in place. It also advances the tree of mode
    [pathtree], which the model returns. *)
Definition _replace (fuel : nat) (explored : list ref) (mask : ref)
    (num_paths : Z) (mode : Z) (tree : option PathTree)
    : M (option PathTree) :=
  (m <- load mask ;;
   let replace_len := Z.max 0 (num_paths - np.count_zero m) in
   if replace_len <=? 0 then ret tree
   else
     let unused := unused_of m in
     if Z.of_nat (length unused) <? replace_len then
       (store mask (replicate (length m) 0) ;; ret tree)
     else if decide (mode = ReplaceMode_next_sorted) then
       (found_new <- next_sorted_loop explored mask
                       (combinations unused (Z.to_nat replace_len)) ;;
        if negb found_new then
          (comb <- np_choice unused replace_len ;;
           put_ref mask comb 0 ;;
           ret tree)
        else ret tree)
     else if decide (mode = ReplaceMode_random) then
       (comb <- np_choice unused replace_len ;;
        put_ref mask comb 0 ;;
        random_loop max_tries explored mask unused replace_len comb ;;
        ret tree)
     else if decide (mode = ReplaceMode_pathtree) then
       match tree with
       | None => raise (TypeError "'NoneType' object is not an iterator")
       | Some tree =>
           (ct <- lift (tree_collect fuel tree [] replace_len) ;;
            put_ref mask ct.1 0 ;;
            tree' <- pathtree_loop max_tries fuel explored mask replace_len ct.1 ct.2 ;;
            ret (Some tree'))
       end
     else raise (ValueError "Unsupported annealing replace mode"))%M.

(** *** select_sa *)

(** The dictionaries of [select_sa], keyed by the identifier of the traffic
    class, and the merged container. A mask in [explored] or in [bestpaths]
    is a reference: the same array may be listed more than once. *)
Record sa_state : Type := mkSA {
  sa_explored : gmap Z (list ref);
  sa_pathtrees : gmap Z (option PathTree);
  sa_bestpaths : gmap Z (option ref);
  sa_pptc : PPTC
}.

Definition dict_get {V} (d : gmap Z V) (k : Z) : M V :=
  match d !! k with
  | Some v => ret v
  | None => raise KeyError
  end.

(** [l[-1]] *)
Definition py_last (l : list ref) : M ref :=
  match last l with
  | Some r => ret r
  | None => raise IndexError
  end.

Fixpoint foldM {A S} (f : S -> A -> M S) (l : list A) (s : S) : M S :=
  match l with
  | [] => ret s
  | x :: rest => (s' <- f s x ;; foldM f rest s')%M
  end.

(** [explored[tc] = [initial_masks[tc]]]: the first entry of [explored] is
    the array that [k_shortest_paths] returns for the class. *)
Definition seed_explored (initial_masks : gmap Z (list nat))
    (acc : gmap Z (list ref)) (tc : TrafficClass) : M (gmap Z (list ref)) :=
  (ind <- dict_get initial_masks (ID tc) ;;
   r <- alloc (map Z.of_nat ind) ;;
   ret (<[ID tc := [r]]> acc))%M.

Definition build_pathtrees (replace_mode : Z) (p : PPTC)
    : res (gmap Z (option PathTree)) :=
  if decide (replace_mode = ReplaceMode_pathtree) then
    foldl (fun acc e =>
             let! trees := acc in
             let! t := PathTree_init (entry_paths e) in
             Ok (<[ID (entry_tc e) := Some t]> trees))
          (Ok ∅) p
  else if decide (replace_mode = ReplaceMode_pathscore) then
    match p with
    | [] => Ok ∅
    | _ :: _ => Raise (NameError "_sort_by_func")
    end
  else Ok (foldl (fun acc e => <[ID (entry_tc e) := None]> acc) ∅ p).

(** One traffic class of the feasibility phase. [_expel] works on the last
    explored array itself, and that array is appended again. *)
Definition resample_tc (fuel : nat) (num_paths : Z) (replace_mode : Z)
    (st : sa_state) (tc : TrafficClass) : M sa_state :=
  (refs <- dict_get (sa_explored st) (ID tc) ;;
   lastmask <- py_last refs ;;
   newmask <- _expel (ID tc) lastmask None ExpelMode_all ;;
   tree <- dict_get (sa_pathtrees st) (ID tc) ;;
   tree' <- _replace fuel refs newmask num_paths replace_mode tree ;;
   ret (mkSA (<[ID tc := refs ++ [newmask]]> (sa_explored st))
             (<[ID tc := tree']> (sa_pathtrees st))
             (sa_bestpaths st) (sa_pptc st)))%M.

(** The loop [while not opt.is_solved() and k <= max_iter]; it runs at most
    [max_iter + 1] times, and [turns] bounds its turns. *)
Fixpoint feasibility_loop (turns : nat) (fuel : nat) (topo : Topology)
    (network_config : NetworkConfig) (fairness : Fairness)
    (epoch_mode : EpochComposition) (num_paths max_iter : Z)
    (replace_mode : Z) (k : Z) (opt : Opt) (opt_time : Qc) (st : sa_state)
    : M (Z * Opt * Qc * sa_state) :=
  (solved <- opt_is_solved opt ;;
   if negb solved && (k <=? max_iter) then
     match turns with
     | O => raise OutOfFuel
     | S turns' =>
         st' <- foldM (resample_tc fuel num_paths replace_mode)
                      (pptc.tcs (sa_pptc st)) st ;;
         opt' <- compose_apps (sa_pptc st') topo network_config fairness epoch_mode ;;
         solver_do opt' Solve ;;
         t <- opt_get_time opt' ;;
         feasibility_loop turns' fuel topo network_config fairness epoch_mode
                          num_paths max_iter replace_mode (k + 1) opt'
                          (opt_time + t)%Qc st'
     end
   else ret (k, opt, opt_time, st))%M.

(** [bestpaths[tc] = explored[tc][-1]] *)
Definition set_best (st : sa_state) (tc : TrafficClass) : M sa_state :=
  (refs <- dict_get (sa_explored st) (ID tc) ;;
   lastmask <- py_last refs ;;
   ret (mkSA (sa_explored st) (sa_pathtrees st)
             (<[ID tc := Some lastmask]> (sa_bestpaths st)) (sa_pptc st)))%M.

(** One traffic class of an annealing step. *)
Definition anneal_tc (fuel : nat) (num_paths : Z) (expel_mode replace_mode : Z)
    (pptc_len : gmap Z Z) (optvars : xps_t) (st : sa_state)
    (tc : TrafficClass) : M sa_state :=
  (len <- dict_get pptc_len (ID tc) ;;
   if num_paths >=? len then ret st
   else
     best <- dict_get (sa_bestpaths st) (ID tc) ;;
     best <- match best with
             | Some r => ret r
             | None => raise (AttributeError "copy")
             end ;;
     fresh <- copy best ;;
     newmask <- _expel (ID tc) fresh (Some optvars) expel_mode ;;
     refs <- dict_get (sa_explored st) (ID tc) ;;
     tree <- dict_get (sa_pathtrees st) (ID tc) ;;
     tree' <- _replace fuel refs newmask num_paths replace_mode tree ;;
     m <- load newmask ;;
     ret (mkSA (<[ID tc := refs ++ [newmask]]> (sa_explored st))
               (<[ID tc := tree']> (sa_pathtrees st))
               (sa_bestpaths st)
               (pptc.mask (sa_pptc st) (ID tc) m)))%M.

(** One turn of [for k in arange(1, max_iter)]. *)
Definition anneal_step (fuel : nat) (topo : Topology)
    (network_config : NetworkConfig) (fairness : Fairness)
    (epoch_mode : EpochComposition) (num_paths : Z) (tstart c : Qc)
    (expel_mode replace_mode : Z) (debug : bool) (pptc_len : gmap Z Z)
    (acc : Opt * Qc * sa_state) (k : nat) : M (Opt * Qc * sa_state) :=
  (let '(bestopt, opt_time, st) := acc in
   let t := (tstart * Qcpower c k)%Qc in
   optvars <- opt_get_xps bestopt ;;
   st <- foldM (anneal_tc fuel num_paths expel_mode replace_mode pptc_len optvars)
               (pptc.tcs (sa_pptc st)) st ;;
   opt <- compose_apps (sa_pptc st) topo network_config fairness epoch_mode ;;
   solver_do opt Solve ;;
   tm <- opt_get_time opt ;;
   when debug (solver_do opt (Write ("debug/annealing_" +:+ topo_name topo
                                      +:+ "_" +:+ pretty k))) ;;
   oldo <- _obj_state bestopt ;;
   newo <- _obj_state opt ;;
   let prob := _saprob oldo newo t in
   u <- random_random ;;
   if Qcleb u prob then
     (st <- foldM set_best (pptc.tcs (sa_pptc st)) st ;;
      ret (opt, (opt_time + tm)%Qc, st))
   else ret (bestopt, (opt_time + tm)%Qc, st))%M.

(** [for tc in all_pptc: all_pptc.mask(tc, bestpaths[tc])] *)
Definition commit_best (st : sa_state) (tc : TrafficClass) : M sa_state :=
  (best <- dict_get (sa_bestpaths st) (ID tc) ;;
   m <- match best with
        | Some r => load r
        | None => raise (TypeError "mask is None")
        end ;;
   ret (mkSA (sa_explored st) (sa_pathtrees st) (sa_bestpaths st)
             (pptc.mask (sa_pptc st) (ID tc) m)))%M.

(** [select_sa], returning with its result the final value of its local
    dictionaries. *)
Definition select_sa_run (fuel : nat) (apps : list App) (topo : Topology)
    (network_config : NetworkConfig) (num_paths max_iter : Z) (tstart c : Qc)
    (fairness : Fairness) (epoch_mode : EpochComposition)
    (expel_mode replace_mode : Z) (debug : bool)
    : M (Opt * PPTC * Qc * Qc * sa_state) :=
  (let all_pptc := pptc.merge (map app_pptc apps) in
   match all_pptc with
   | [] => raise StopIteration
   | _ :: _ =>
     let pptc_len : gmap Z Z :=
       foldl (fun acc e => <[ID (entry_tc e) := pptc.num_paths e num_paths_default_all]> acc)
             ∅ all_pptc in
     start_time <- time_time ;;
     sorted <- lift (k_shortest_paths all_pptc num_paths true) ;;
     let all_pptc := sorted.1 in
     let initial_masks := sorted.2 in
     explored <- foldM (seed_explored initial_masks) (pptc.tcs all_pptc) ∅ ;;
     pathtrees <- lift (build_pathtrees replace_mode all_pptc) ;;
     let bestpaths : gmap Z (option ref) :=
       foldl (fun acc e => <[ID (entry_tc e) := None]> acc) ∅ all_pptc in
     let st := mkSA explored pathtrees bestpaths all_pptc in
     opt <- compose_apps all_pptc topo network_config fairness epoch_mode ;;
     solver_do opt Solve ;;
     t <- opt_get_time opt ;;
     when debug (solver_do opt (Write ("debug/annealing_" +:+ topo_name topo
                                        +:+ "_" +:+ pretty 0))) ;;
     ph0 <- feasibility_loop (Z.to_nat (max_iter + 1)) fuel topo network_config
                             fairness epoch_mode num_paths max_iter replace_mode
                             0 opt (Q2Qc 0 + t)%Qc st ;;
     let '(k, opt, opt_time, st) := ph0 in
     if max_iter <? k then
       raise (SOLException "Could not solve the base simulated annealing problem")
     else
       st <- foldM set_best (pptc.tcs (sa_pptc st)) st ;;
       ph1 <- foldM (anneal_step fuel topo network_config fairness epoch_mode
                                 num_paths tstart c expel_mode replace_mode debug
                                 pptc_len)
                    (seq 1 (Z.to_nat (max_iter - 1))) (opt, opt_time, st) ;;
       let '(bestopt, opt_time, st) := ph1 in
       st <- foldM commit_best (pptc.tcs (sa_pptc st)) st ;;
       now <- time_time ;;
       ret (bestopt, sa_pptc st, (now - start_time)%Qc, opt_time, st)
   end)%M.

Definition select_sa (fuel : nat) (apps : list App) (topo : Topology)
    (network_config : NetworkConfig) (num_paths max_iter : Z) (tstart c : Qc)
    (fairness : Fairness) (epoch_mode : EpochComposition)
    (expel_mode replace_mode : Z) (debug : bool)
    : M (Opt * PPTC * Qc * Qc) :=
  (r <- select_sa_run fuel apps topo network_config num_paths max_iter tstart c
                      fairness epoch_mode expel_mode replace_mode debug ;;
   ret r.1)%M.

End Selection.

(** ** Specification-level notions *)

(** The order on objectives that [_saprob] tests: [-inf] is below
    everything. *)
Definition obj_le (a b : objective) : Prop :=
  match a, b with
  | NegInf, _ => True
  | Finite _, NegInf => False
  | Finite x, Finite y => (x <= y)%Qc
  end.

(** What numpy promises of [argsort] whatever the kind: a permutation of
    the indices along which the keys ascend. *)
Definition ascending_along (lens : list Z) (ind : list nat) : Prop :=
  forall i j a b x y,
    (i <= j)%nat -> ind !! i = Some a -> ind !! j = Some b ->
    lens !! a = Some x -> lens !! b = Some y -> x <= y.

Definition argsort_spec
    (argsort : forall K : Type, (K -> K -> bool) -> list K -> list nat) : Prop :=
  forall lens : list Z,
    argsort Z Z.leb lens ≡ₚ seq 0 (length lens)
    /\ ascending_along lens (argsort Z Z.leb lens).

(** What numpy promises of [choice(pop, k, replace=False)] on a population
    without repetitions: [k] distinct members of the population. *)
Definition valid_sample (pop : list nat) (k : nat) (s : list nat) : Prop :=
  length s = k /\ NoDup s /\ s ⊆ pop.

Definition choice_spec (choice_oracle : nat -> list nat -> nat -> list nat) : Prop :=
  forall c pop k,
    NoDup pop -> (k <= length pop)%nat -> valid_sample pop k (choice_oracle c pop k).

(** The number of visible entries before position [i]: the dense index of
    the path at [i] in the solver's tensor. *)
Definition dense_index (m : ndarray) (i : nat) : nat :=
  length (filter (fun v => v = 0) (take i m)).

(** ** Concrete collaborators *)

(** A stable argsort: insertion sort of the indexed keys. *)
Fixpoint insert_key {K} (leb : K -> K -> bool) (x : nat * K)
    (l : list (nat * K)) : list (nat * K) :=
  match l with
  | [] => [x]
  | y :: rest =>
      if leb x.2 y.2 then x :: y :: rest else y :: insert_key leb x rest
  end.

Definition stable_argsort (K : Type) (leb : K -> K -> bool) (keys : list K)
    : list nat :=
  map fst (foldr (insert_key leb) [] (zip (seq 0 (length keys)) keys)).

(** An argsort that is stable except on eighteen equal keys, where it
    answers as the default kind of numpy does: the quicksort behind it
    partitions arrays of more than sixteen elements around a median of
    three and swaps equal keys while doing so. *)
Definition all_equal {K} (leb : K -> K -> bool) (keys : list K) : bool :=
  match keys with
  | [] => true
  | x :: rest => forallb (fun y => leb x y && leb y x) rest
  end.

Definition quicksort18 : list nat :=
  [0%nat] ++ reverse (seq 1 15) ++ [16%nat; 17%nat].

Definition unstable_argsort (K : Type) (leb : K -> K -> bool) (keys : list K)
    : list nat :=
  if (length keys =? 18)%nat && all_equal leb keys then quicksort18
  else stable_argsort K leb keys.

(** Random draws read from a script; past its end, the first [k] members of
    the population. *)
Definition scripted_choice (script : list (list nat)) (c : nat)
    (pop : list nat) (k : nat) : list nat :=
  default (take k pop) (script !! c).

Definition prefix_choice : nat -> list nat -> nat -> list nat :=
  scripted_choice [].

Definition const_random (u : Qc) : nat -> Qc := fun _ => u.

Definition tick_clock : nat -> Qc := Qc_of_nat.

(** A solver that solves every problem with one objective and reports one
    unit of flow on every path in a single epoch. *)
Definition easy_solved : list solver_call -> bool := fun _ => true.
Definition easy_time : list solver_call -> Qc := fun _ => Q2Qc 0.
Definition easy_objective : list solver_call -> Qc := fun _ => Q2Qc 1.
Definition easy_xps : list solver_call -> xps_t :=
  fun _ _ _ => Some [Var (Q2Qc 1)].
Definition easy_chosen : list solver_call -> bool -> PPTC := fun _ _ => [].

Definition no_kmeans : Z -> matrix -> res matrix := fun _ _ => Ok [].
Definition no_labels : Z -> matrix -> res (list Z) := fun _ _ => Ok [].

Definition empty_world : world := mkWorld [] 0 0 0 [].

Definition a_topology (name : string) (n : Z) : Topology :=
  mkTopology name n (fun _ => ∅) (fun _ => ∅) (fun _ => Q2Qc 1) (Q2Qc 1).

Definition a_config : NetworkConfig := mkNetworkConfig ∅.

Definition a_tc (id : Z) : TrafficClass := mkTC id 1 0 3 [Q2Qc 1].

(** ** Statements and examples *)

(** The claim of C9 as it is written: an unknown method raises the
    invalid-configuration error. *)
Definition raises_invalid_config {A} (r : res A) : Prop :=
  exists msg, r = Raise (InvalidConfigException msg).

Definition is_cap (oc : Opt * solver_call) : Prop :=
  exists c, oc.2 = CapNumPaths c.

(** [max(...)] as a total function, for statements. *)
Definition max_of (l : list Qc) : Qc :=
  match l with
  | [] => Q2Qc 0
  | x :: rest => foldl Qcmax x rest
  end.

(** The contribution of one resource [r] with weight [W[r]]:
    [max_n t.resources(n).get(r, 0) / N[r] * W[r]]. *)
Definition resource_term (p : Path) (t : Topology) (norm : gmap string Qc)
    (rw : string * Qc) : Qc :=
  (max_of (path_resources t p rw.1) / default (Q2Qc 0) (norm !! rw.1) * rw.2)%Qc.

Definition length_penalty (p : Path) (d : Qc) : Qc :=
  (Qc_of_nat (path_len p) / d)%Qc.

(** The score as C3 states it: the sum over the resources, minus the
    penalty once. *)
Definition claimed_score (p : Path) (t : Topology) (weights norm : gmap string Qc)
    (d : Qc) : Qc :=
  (Qcsum (map (resource_term p t norm) (map_to_list weights))
   - length_penalty p d)%Qc.

(** The score with the penalty inside the sum: once for every resource. *)
Definition summed_score (p : Path) (t : Topology) (weights norm : gmap string Qc)
    (d : Qc) : Qc :=
  (Qcsum (map (resource_term p t norm) (map_to_list weights))
   - Qc_of_nat (size weights) * length_penalty p d)%Qc.

Definition two_resources : gmap string Qc :=
  <["bw" := Q2Qc 1]> (<["cpu" := Q2Qc 1]> ∅).

(** Three visible paths: the first carries flow, the second has a zero
    variable and an integer literal, the third carries flow in its second
    epoch. *)
Definition three_rows : xps_t :=
  fun tcid j =>
    if decide (tcid = 7) then
      [[Var (Q2Qc 1)]; [Var (Q2Qc 0); IntLit 5]; [Var (Q2Qc 0); Var (Q2Qc 2)]] !! j
    else None.

Definition key_le (a b : nat * Z) : Prop := a.2 <= b.2.

(** [len(x) for x in pptc.all_paths(tc)] *)
Definition lens_of (e : pptc_entry) : list Z :=
  map (fun x => Z.of_nat (path_len x)) (entry_paths e).

(** [e'] is [e] with a mask that shows the first [min(k, n)] indices of the
    order [ind] and hides every other candidate. *)
Definition selects_prefix (ind : list nat) (k : Z) (e e' : pptc_entry) : Prop :=
  entry_tc e' = entry_tc e
  /\ entry_paths e' = entry_paths e
  /\ length (entry_mask e') = length (entry_paths e)
  /\ (forall i,
        i ∈ take (Z.to_nat (Z.min k (Z.of_nat (length (entry_paths e))))) ind ->
        entry_mask e' !! i = Some 0)
  /\ (forall i,
        (i < length (entry_paths e))%nat ->
        i ∉ take (Z.to_nat (Z.min k (Z.of_nat (length (entry_paths e))))) ind ->
        entry_mask e' !! i = Some 1).

(** No visible path is longer than a masked one. *)
Definition no_masked_shorter (e' : pptc_entry) : Prop :=
  forall i j pi pj,
    entry_mask e' !! i = Some 0 -> entry_mask e' !! j = Some 1 ->
    entry_paths e' !! i = Some pi -> entry_paths e' !! j = Some pj ->
    (path_len pi <= path_len pj)%nat.

(** C4 as it is written: whatever admissible order [argsort] returns, the
    visible paths are the first [min(k, n)] of the order by length with
    ties by smaller original index, which is the order of the stable
    sort. *)
Definition ties_by_index
    (argsort : forall K : Type, (K -> K -> bool) -> list K -> list nat) : Prop :=
  forall (p : PPTC) (k : Z) (rm : bool),
    0 <= k ->
    exists p' inds,
      k_shortest_paths argsort p k rm = Ok (p', inds)
      /\ Forall2 (fun e e' =>
                    selects_prefix (stable_argsort Z Z.leb (lens_of e)) k e e')
                 p p'.

(** Eighteen candidates of one length. *)
Definition eighteen_paths : PPTC :=
  [mkEntry (a_tc 7)
           (map (fun i => PlainPath [0; Z.of_nat i; 19]) (seq 1 18))
           (replicate 18 0)].

(** The mask [choose_rand] builds from a draw: ones, with the drawn indices
    set to 0. *)
Definition rand_mask (n : nat) (draw : list nat) : res ndarray :=
  np.put draw 0 (np.ones n).


(** A mask of [n] entries, each 0 or 1, with [k] zeros. *)
Definition k_visible_mask (n k : nat) (m : ndarray) : Prop :=
  length m = n
  /\ (forall i v, m !! i = Some v -> v = 0 \/ v = 1)
  /\ np.count_zero m = Z.of_nat k.


(** A finite distribution: outcomes with their probabilities. *)
Abbreviation dist A := (list (A * Qc)).

(** The probability of an event. *)
Definition prob {A} (P : A -> Prop) `{forall a, Decision (P a)} (D : dist A) : Qc :=
  Qcsum (map snd (filter (fun aw : A * Qc => P aw.1) D)).

(** The binomial coefficient [C(n, k)]. *)
Fixpoint binom (n k : nat) : nat :=
  match n with
  | O => match k with O => 1 | S _ => 0 end
  | S n' => match k with O => 1 | S k' => binom n' k' + binom n' k end
  end.

(** What uniformity of [choice(arange(n), k, replace=False)] over the
    combinations means for the distribution of its answers: each of the
    [C(n, k)] sets of [k] indices is drawn, in whatever order, with the
    same probability. *)
Definition uniform_draws (n k : nat) (D : dist (list nat)) : Prop :=
  forall c,
    c ∈ combinations (np.arange n) k ->
    prob (fun d => list_to_set d =@{gset nat} list_to_set c) D
    = (1 / Qc_of_nat (binom n k))%Qc.

(** The distribution that gives every combination, in ascending order,
    the same probability. *)
Definition uniform_over_combinations (n k : nat) : dist (list nat) :=
  map (fun c => (c, (1 / Qc_of_nat (binom n k))%Qc))
      (combinations (np.arange n) k).





Definition set_heap (w : world) (h : list ndarray) : world :=
  mkWorld h (np_draws w) (py_draws w) (ticks w) (solver_log w).

(** [m] is not bitwise-equal to any of the arrays that [refs] point to. *)
Definition fresh_for (h : list ndarray) (m : ndarray) (refs : list ref) : Prop :=
  forall x mx, x ∈ refs -> h !! x = Some mx -> np.xor_all_zero m mx = Ok false.

(** The arrays that [refs] point to exist and have the length [n]. *)
Definition all_of_length (h : list ndarray) (n : nat) (refs : list ref) : Prop :=
  forall x, x ∈ refs -> exists mx, h !! x = Some mx /\ length mx = n.

(** C1 as it is written: in the final state of a run, the masks listed
    for a traffic class are pairwise different bit by bit. *)
Definition pairwise_distinct (h : list ndarray) (refs : list ref) : Prop :=
  forall i j ri rj mi mj,
    i <> j -> refs !! i = Some ri -> refs !! j = Some rj ->
    h !! ri = Some mi -> h !! rj = Some mj ->
    np.xor_all_zero mi mj <> Ok true.

Definition explored_distinct (st : sa_state) (w : world) : Prop :=
  forall tcid refs,
    sa_explored st !! tcid = Some refs -> pairwise_distinct (heap w) refs.

(** A state of the annealing of one traffic class with four candidates:
    one explored mask, which is also the best one. *)
Definition one_explored : sa_state :=
  mkSA {[7 := [O]]} {[7 := None]} {[7 := Some O]}
       [mkEntry (a_tc 7)
                [PlainPath [0; 3]; PlainPath [0; 1; 3]; PlainPath [0; 2; 3];
                 PlainPath [0; 1; 2; 3]]
                [0; 0; 1; 1]].

Definition one_explored_world : world := mkWorld [[0; 0; 1; 1]] 0 0 0 [].

Definition three_candidates : PPTC :=
  [mkEntry (a_tc 7)
           [PlainPath [0; 1; 2; 3]; PlainPath [0; 4; 1; 2; 3];
            PlainPath [0; 4; 5; 1; 2; 3]]
           [0; 0; 0]].

(** One explored mask, [0, 0, 1], at reference 0, and the mask to fill,
    [0, 1, 1], at reference 1. *)
Definition explored_and_mask : world := mkWorld [[0; 0; 1]; [0; 1; 1]] 0 0 0 [].

(** ** Statements about the rest of the module *)

(** What [_expel] may do to an entry: keep it, or set it to 1. *)
Definition kept_or_masked (v v' : Z) : Prop := v' = v \/ v' = 1.

(** What holds of the variables of the loop of [select_iterative], in mode
    [len], before every test of its condition: [k] is [5 * 2^i], and the
    container is the one of [k_shortest_paths] for the previous [k]. *)
Definition iter_inv
    (argsort : forall K : Type, (K -> K -> bool) -> list K -> list nat)
    (all : PPTC) (inds : gmap Z (list nat)) (st : iter_state) : Prop :=
  0 <= it_i st
  /\ it_k st = 5 * 2 ^ it_i st
  /\ k_shortest_paths argsort all (5 * 2 ^ Z.max 0 (it_i st - 1)) true
     = Ok (it_pptc st, inds).

(** A computation that makes no call on the solver. *)
Definition keeps_log {A} (m : M A) : Prop :=
  forall w, solver_log (m w).2 = solver_log w.

(** Every handle in the log was handed out by [compose_apps]: it is below
    the length of the log, so the next handle is new. *)
Definition log_wf (log : list (Opt * solver_call)) : Prop :=
  Forall (fun oc => (oc.1 < length log)%nat) log.

(** Every list of explored arrays ends in an array that exists, and all its
    arrays have one length. *)
Definition explored_ready (ex : gmap Z (list ref)) (h : list ndarray) : Prop :=
  forall id refs,
    ex !! id = Some refs ->
    exists r m, last refs = Some r /\ h !! r = Some m /\ all_of_length h (length m) refs.

(** The dictionaries of [select_sa] have an entry for the traffic class. *)
Definition has_keys (st : sa_state) (tc : TrafficClass) : Prop :=
  is_Some (sa_explored st !! ID tc) /\ is_Some (sa_pathtrees st !! ID tc).

(** A solver that finds no solution. *)
Definition no_solution : list solver_call -> bool := fun _ => false.

(** [n] calls of [next(tree)], with the indices they yield. *)
Fixpoint PathTree_take (n : nat) (t : PathTree) : res (list nat * PathTree) :=
  match n with
  | O => Ok ([], t)
  | S n' =>
      let! (i, t') := PathTree_next t in
      let! (rest, t'') := PathTree_take n' t' in
      Ok (i :: rest, t'')
  end.

(** Every bucket of a tree over [paths] is non-empty and lists indices of
    paths that go through the middlebox the bucket is named after. *)
Definition buckets_ok (paths : list Path) (bs : list (Z * list nat)) : Prop :=
  forall m items,
    (m, items) ∈ bs ->
    items <> []
    /\ forall i, i ∈ items ->
         exists ns ms, paths !! i = Some (PathWithMbox ns ms) /\ m ∈ ms.

Definition tree_ok (paths : list Path) (t : PathTree) : Prop :=
  buckets t <> []
  /\ buckets_ok paths (buckets t)
  /\ length (inner_iters t) = length (buckets t).

(** The middleboxes of a path; a plain path has no such method. *)
Definition mboxes_of (p : Path) : option (list Z) :=
  match p with
  | PlainPath _ => None
  | PathWithMbox _ ms => Some ms
  end.

(** Two traffic classes that differ at most in their volumes. *)
Definition same_class (tc tc' : TrafficClass) : Prop :=
  ID tc' = ID tc /\ priority tc' = priority tc /\ src tc' = src tc /\ dst tc' = dst tc.

(** A clustering that returns two centres for three traffic classes. *)
Definition two_centers : Z -> matrix -> res matrix :=
  fun _ _ => Ok [[Q2Qc 1; Q2Qc 2; Q2Qc 3]; [Q2Qc 4; Q2Qc 5; Q2Qc 6]].

(** What numpy promises of [argsort] on scores: a permutation of the
    indices along which the scores ascend. *)
Definition argsort_scores_spec
    (argsort : forall K : Type, (K -> K -> bool) -> list K -> list nat) : Prop :=
  forall scores : list Qc,
    argsort Qc Qcleb scores ≡ₚ seq 0 (length scores)
    /\ forall i j a b x y,
         (i <= j)%nat ->
         argsort Qc Qcleb scores !! i = Some a ->
         argsort Qc Qcleb scores !! j = Some b ->
         scores !! a = Some x -> scores !! b = Some y -> (x <= y)%Qc.

(** The scores [k_resource_paths] gives to the candidates of an entry. *)
Definition scores_of (topo : Topology) (weights : gmap string Qc)
    (e : pptc_entry) : list Qc :=
  map (fun p =>
         summed_score p topo weights
           (map_imap (fun r _ => Some (topo_total_resource topo r)) weights)
           (topo_diameter topo))
      (entry_paths e).

(** No masked path has a higher score than a visible one. *)
Definition no_masked_better (scores : list Qc) (e' : pptc_entry) : Prop :=
  forall i j x y,
    entry_mask e' !! i = Some 0 -> entry_mask e' !! j = Some 1 ->
    scores !! i = Some x -> scores !! j = Some y -> (y <= x)%Qc.

(** A topology in which every resource has the total 4, with diameter 2. *)
Definition a_resource_topology : Topology :=
  mkTopology "mesh" 4 (fun _ => ∅) (fun _ => ∅) (fun _ => Q2Qc 4) (Q2Qc 2).

(** ** The utilities and the class [Topology] of [sol/topology/topology.pyx] *)

Module utils.

(** [len(a) == len(b) and all([x == y for x, y in zip(a, b)])] *)
Definition listeq {A} `{EqDecision A} (a b : list A) : bool :=
  (length a =? length b)%nat
  && forallb (fun xy : A * A => bool_decide (xy.1 = xy.2)) (zip a b).

(** [len(set(alist)) == len(alist)] *)
Definition uniq {A} `{Countable A} (alist : list A) : bool :=
  (size (list_to_set alist : gset A) =? length alist)%nat.

End utils.

(** The string methods the class uses, for a separator of one character. *)
Module pystr.

(** [s.split(sep)]: the pieces between the separators; never empty. *)
Fixpoint split (sep : Ascii.ascii) (s : string) : list string :=
  match s with
  | EmptyString => [EmptyString]
  | String c rest =>
      if Ascii.eqb c sep then EmptyString :: split sep rest
      else match split sep rest with
           | [] => [String c EmptyString]
           | piece :: pieces => String c piece :: pieces
           end
  end.

(** [sep.join(l)] *)
Fixpoint join (sep : Ascii.ascii) (l : list string) : string :=
  match l with
  | [] => EmptyString
  | x :: rest =>
      match rest with
      | [] => x
      | _ :: _ => x +:+ String sep (join sep rest)
      end
  end.

(** [needle in hay] on strings: [needle] occurs in [hay] as a substring. *)
Fixpoint contains (needle hay : string) : bool :=
  String.prefix needle hay
  || match hay with
     | EmptyString => false
     | String _ rest => contains needle rest
     end.

End pystr.

Module topology.

(** The attributes of a node that the class reads and writes: the services
    (one string, the names separated by semicolons) and the middlebox
    flag. Each may be absent. *)
Record node_attrs : Type := mkAttrs {
  services : option string;
  hasMbox : option bool
}.

(** [self._graph.node]: the nodes of the graph with their attributes. *)
Abbreviation graph := (gmap Z node_attrs).

(** The argument [serviceTypes]: a string, a list of strings, or a value
    of another type. *)
Inductive service_types : Type :=
| AsStr (s : string)
| AsList (l : list string)
| AsOther.

Definition in_services (service : string) (na : Z * node_attrs) : bool :=
  match services na.2 with
  | Some s => pystr.contains service s
  | None => false
  end.

Definition getNumNodes (g : graph) (service : option string) : nat :=
  match service with
  | None => size g
  | Some s => length (List.filter (in_services s) (map_to_list g))
  end.

Definition getServiceTypes (g : graph) (n : Z) : res (list string) :=
  match g !! n with
  | None => Raise KeyError
  | Some a =>
      match services a with
      | None => Raise KeyError
      | Some s => Ok (pystr.split ";"%char s)
      end
  end.

(** [self._graph.node[node]['services'] = s] *)
Definition store_services (g : graph) (n : Z) (s : string) : res graph :=
  match g !! n with
  | None => Raise KeyError
  | Some a => Ok (<[n := mkAttrs (Some s) (hasMbox a)]> g)
  end.

Definition setServiceTypes (g : graph) (n : Z) (serviceTypes : service_types)
    : res graph :=
  match serviceTypes with
  | AsStr s => store_services g n s
  | AsList l => store_services g n (pystr.join ";"%char l)
  | AsOther => Raise (AttributeError "Wrong type of serviceTypes, use a list")
  end.

Definition addServiceType (g : graph) (n : Z) (serviceType : string) : res graph :=
  match g !! n with
  | None => Raise KeyError
  | Some a =>
      let types := match services a with
                   | Some s => pystr.split ";"%char s ++ [serviceType]
                   | None => [serviceType]
                   end in
      store_services g n (pystr.join ";"%char types)
  end.

(** [try: return self._graph.node[node]['hasMbox'] except KeyError: return False] *)
Definition hasMiddlebox (g : graph) (n : Z) : bool :=
  match g !! n with
  | Some a => default false (hasMbox a)
  | None => false
  end.

Definition setMiddlebox (g : graph) (n : Z) (val : bool) : res graph :=
  match g !! n with
  | None => Raise KeyError
  | Some a => Ok (<[n := mkAttrs (services a) (Some val)]> g)
  end.

End topology.

(** A string without the separator. *)
Definition no_sep (sep : Ascii.ascii) (s : string) : Prop :=
  forall c, c ∈ String.list_ascii_of_string s -> c <> sep.

(** The number of nodes that list [service] among their service types. *)
Definition listed_count (g : topology.graph) (service : string) : nat :=
  length (List.filter
            (fun na : Z * topology.node_attrs =>
               match topology.services na.2 with
               | Some s => bool_decide (service ∈ pystr.split ";"%char s)
               | None => false
               end)
            (map_to_list g)).

(** * Properties *)

(** ** Numbers and results *)

Lemma Qcleb_le (a b : Qc) : Qcleb a b = true <-> (a <= b)%Qc.
Proof. unfold Qcleb, Qcle. apply Qle_bool_iff. Qed.

Lemma Qcltb_lt (a b : Qc) : Qcltb a b = true <-> (a < b)%Qc.
Proof.
  unfold Qcltb. rewrite negb_true_iff, <- not_true_iff_false.
  fold (Qcleb b a). rewrite Qcleb_le. split.
  - apply Qcnot_le_lt.
  - apply Qclt_not_le.
Qed.

Lemma Qceqb_eq (a b : Qc) : Qceqb a b = true <-> a = b.
Proof.
  unfold Qceqb. rewrite Qeq_bool_iff. split.
  - apply Qc_is_canon.
  - intros ->. reflexivity.
Qed.

#[global] Instance obj_le_dec (a b : objective) : Decision (obj_le a b).
Proof.
  destruct a as [|x], b as [|y]; simpl.
  - left; exact I.
  - left; exact I.
  - right; tauto.
  - destruct (Qclt_le_dec y x) as [Hlt|Hle].
    + right. apply Qclt_not_le, Hlt.
    + left. exact Hle.
Defined.

Lemma obj_leb_le (a b : objective) : obj_leb a b = true <-> obj_le a b.
Proof.
  destruct a as [|x], b as [|y]; simpl; try tauto.
  - split; [discriminate | tauto].
  - apply Qcleb_le.
Qed.

(** ** C7: the acceptance probability *)

(** C7. [_saprob(old, new, t)] is 1 when [old <= new] and 0 otherwise, and
    the temperature does not enter: the hill-climbing form. *)
Theorem saprob_hill_climbing (oldo newo : objective) (temp : Qc) :
  _saprob oldo newo temp = (if decide (obj_le oldo newo) then Q2Qc 1 else Q2Qc 0)
  /\ (forall temp', _saprob oldo newo temp' = _saprob oldo newo temp).
Proof.
  split; [|reflexivity].
  unfold _saprob. destruct (decide (obj_le oldo newo)) as [Hle|Hnle].
  - apply obj_leb_le in Hle. now rewrite Hle.
  - destruct (obj_leb oldo newo) eqn:Hb; [|reflexivity].
    apply obj_leb_le in Hb. contradiction.
Qed.

(** ** C9: clustering with an unknown method *)

(** C9, against the claim: for the method ["dbscan"] the error is not the
    invalid-configuration error. *)
Lemma cluster_tcs_not_invalid_config :
  ~ raises_invalid_config (cluster_tcs no_kmeans no_labels [a_tc 1; a_tc 2] 2 "dbscan").
Proof. intros [msg Hmsg]. vm_compute in Hmsg. discriminate Hmsg. Qed.

(** C9, amended. For a method other than ['kmeans'] and ['agg'],
    [cluster_tcs] raises Python's [ValueError], whatever the traffic
    classes, the number of clusters and the behaviour of sklearn; nothing is
    retried and no traffic class is returned changed. *)
Theorem cluster_tcs_unknown_method
    (kmeans_cluster_centers : Z -> matrix -> res matrix)
    (agglomerative_labels : Z -> matrix -> res (list Z))
    (tcs : list TrafficClass) (num_clusters : Z) (method : string) :
  method <> "kmeans" -> method <> "agg" ->
  cluster_tcs kmeans_cluster_centers agglomerative_labels tcs num_clusters method
  = Raise (ValueError ("Unsupported clustering method " +:+ method)).
Proof.
  intros Hk Ha. unfold cluster_tcs.
  destruct (decide (method = "kmeans")) as [->|_]; [contradiction|].
  destruct (decide (method = "agg")) as [->|_]; [contradiction|].
  reflexivity.
Qed.

Lemma cluster_tcs_unknown_method_witness :
  cluster_tcs no_kmeans no_labels [a_tc 1; a_tc 2] 2 "dbscan"
  = Raise (ValueError ("Unsupported clustering method " +:+ "dbscan")).
Proof.
  apply (cluster_tcs_unknown_method no_kmeans no_labels [a_tc 1; a_tc 2] 2 "dbscan").
  - discriminate.
  - discriminate.
Defined.

(** ** C8: the global cap of [select_ilp] *)

(** What [select_ilp] adds to the log of solver calls: the composition, one
    cap, the solve, and then only debug writes. *)
Lemma select_ilp_log
    (clock : nat -> Qc) (solver_is_solved : list solver_call -> bool)
    (solver_get_time : list solver_call -> Qc)
    (solver_get_chosen_paths : list solver_call -> bool -> PPTC)
    apps topo cfg num_paths debug fairness em w :
  exists rest,
    solver_log (select_ilp clock solver_is_solved solver_get_time
                           solver_get_chosen_paths apps topo cfg num_paths
                           debug fairness em w).2
    = solver_log w
      ++ [(length (solver_log w),
           Compose (pptc.merge (map app_pptc apps)) topo cfg fairness em);
          (length (solver_log w),
           CapNumPaths ((topo_num_nodes topo - 1) ^ 2 * num_paths));
          (length (solver_log w), Solve)]
      ++ rest
    /\ Forall (fun oc => ~ is_cap oc) rest.
Proof.
  unfold select_ilp, bind, time_time, compose_apps,
    solver_do, opt_get_time, opt_is_solved, opt_get_chosen_paths, when, raise, ret.
  cbn [fst snd solver_log heap np_draws py_draws ticks].
  destruct debug; cbn [fst snd solver_log];
    match goal with
    | |- context [negb ?b] => destruct b
    end; cbn [negb fst snd solver_log];
    rewrite <- ?app_assoc; cbn [app];
    eexists; (split; [reflexivity|]);
    repeat constructor; intros [c Hc]; discriminate Hc.
Qed.

(** C8. Whatever the applications, the topology with [N] nodes and
    [num_paths = k], [select_ilp] composes the problem, imposes the cap
    [(N - 1)^2 * k] through [cap_num_paths] once and before it solves, and
    issues only debug writes afterwards; with 3 nodes and [k = 2] the cap
    is 8. *)
Theorem select_ilp_cap
    (clock : nat -> Qc) (solver_is_solved : list solver_call -> bool)
    (solver_get_time : list solver_call -> Qc)
    (solver_get_chosen_paths : list solver_call -> bool -> PPTC)
    (apps : list App) (topo : Topology) (cfg : NetworkConfig) (num_paths : Z)
    (debug : bool) (fairness : Fairness) (em : EpochComposition) (w : world) :
  (exists rest,
     solver_log (select_ilp clock solver_is_solved solver_get_time
                            solver_get_chosen_paths apps topo cfg num_paths
                            debug fairness em w).2
     = solver_log w
       ++ [(length (solver_log w),
            Compose (pptc.merge (map app_pptc apps)) topo cfg fairness em);
           (length (solver_log w),
            CapNumPaths ((topo_num_nodes topo - 1) ^ 2 * num_paths));
           (length (solver_log w), Solve)]
       ++ rest
     /\ Forall (fun oc => ~ is_cap oc) rest)
  /\ (exists rest,
        solver_log (select_ilp clock solver_is_solved solver_get_time
                               solver_get_chosen_paths apps
                               (a_topology (topo_name topo) 3) cfg 2
                               debug fairness em w).2
        = solver_log w
          ++ [(length (solver_log w),
               Compose (pptc.merge (map app_pptc apps))
                       (a_topology (topo_name topo) 3) cfg fairness em);
              (length (solver_log w), CapNumPaths 8);
              (length (solver_log w), Solve)]
          ++ rest
        /\ Forall (fun oc => ~ is_cap oc) rest).
Proof.
  split.
  - apply select_ilp_log.
  - apply (select_ilp_log clock solver_is_solved solver_get_time
             solver_get_chosen_paths apps (a_topology (topo_name topo) 3) cfg 2).
Qed.

(** ** C10: [select_iterative] when the loop does not run *)

Lemma res_bind_ok {A B} (r : res A) (k : A -> res B) (b : B) :
  res_bind r k = Ok b -> exists a, r = Ok a /\ k a = Ok b.
Proof. destruct r as [a|e]; simpl; [eauto | discriminate]. Qed.

Lemma k_shortest_paths_tc_paths argsort e k e' ind :
  k_shortest_paths_tc argsort e k = Ok (e', ind) ->
  entry_paths e' = entry_paths e /\ entry_tc e' = entry_tc e.
Proof.
  unfold k_shortest_paths_tc. intros H.
  apply res_bind_ok in H as (m & _ & Hm). inversion Hm; subst. auto.
Qed.

Lemma k_shortest_paths_paths argsort p k rm p' inds :
  k_shortest_paths argsort p k rm = Ok (p', inds) ->
  map entry_paths p' = map entry_paths p.
Proof.
  revert p' inds. induction p as [|e rest IH]; intros p' inds H; simpl in H.
  - inversion H; reflexivity.
  - apply res_bind_ok in H as ([e' ind] & He & H1).
    apply res_bind_ok in H1 as ([rest' inds'] & Hrest & H2).
    inversion H2; subst. simpl.
    apply k_shortest_paths_tc_paths in He as [-> _].
    f_equal. eapply IH, Hrest.
Qed.

Lemma k_resource_paths_loop_paths argsort p k rw tr d topo p' inds :
  k_resource_paths_loop argsort p k rw tr d topo = Ok (p', inds) ->
  map entry_paths p' = map entry_paths p.
Proof.
  revert p' inds. induction p as [|e rest IH]; intros p' inds H; simpl in H.
  - inversion H; reflexivity.
  - apply res_bind_ok in H as ([e' ind] & He & H1).
    apply res_bind_ok in H1 as ([rest' inds'] & Hrest & H2).
    inversion H2; subst. simpl. f_equal; [|eapply IH, Hrest].
    unfold k_resource_paths_tc in He.
    apply res_bind_ok in He as (scores & _ & He1).
    apply res_bind_ok in He1 as (m & _ & He2).
    inversion He2; reflexivity.
Qed.

Lemma presort_paths argsort apps topo p k sort_mode p' inds :
  presort argsort apps topo p k sort_mode = Ok (p', inds) ->
  map entry_paths p' = map entry_paths p.
Proof.
  unfold presort. repeat case_decide; intros Hsorted.
  - eapply k_shortest_paths_paths, Hsorted.
  - eapply k_resource_paths_loop_paths, Hsorted.
  - discriminate Hsorted.
Qed.

Lemma max_paths_all_paths (p q : PPTC) :
  map entry_paths p = map entry_paths q ->
  pptc.max_paths p true = pptc.max_paths q true.
Proof.
  unfold pptc.max_paths, pptc.num_paths. intros H.
  replace (map (fun e => Z.of_nat (length (entry_paths e))) p)
    with (map (fun ps : list Path => Z.of_nat (length ps)) (map entry_paths p))
    by (rewrite map_map; reflexivity).
  replace (map (fun e => Z.of_nat (length (entry_paths e))) q)
    with (map (fun ps : list Path => Z.of_nat (length ps)) (map entry_paths q))
    by (rewrite map_map; reflexivity).
  now rewrite H.
Qed.

(** The test of the [while] loop fails before the first turn exactly in the
    three cases the claim lists. *)
Lemma iter_guard_initial max_iter epsilon mp p :
  iter_guard max_iter epsilon mp
             (mkIter 0 (Qc_of_Z (Z.shiftl 1 10)) (Q2Qc 0) 5 (Q2Qc 0) None p) = false
  <-> (max_iter <= 0 \/ (Qc_of_Z 1024 <= epsilon)%Qc \/ mp <= 5).
Proof.
  unfold iter_guard. cbn [it_i it_diff it_k].
  change (Z.shiftl 1 10) with 1024.
  rewrite !andb_false_iff, Z.ltb_ge, Z.ltb_ge.
  rewrite <- (not_true_iff_false (Qcltb _ _)), Qcltb_lt.
  split.
  - intros [[H|H]|H]; [left; exact H | right; left | right; right; exact H].
    apply Qcnot_lt_le, H.
  - intros [H|[H|H]]; [left; left; exact H | left; right | right; exact H].
    apply Qcle_not_lt, H.
Qed.

(** C10. When the sorting step that precedes the loop completes and the
    loop body never runs, that is when [max_iter <= 0], or [epsilon >= 1024]
    (the initial [diff]), or no traffic class has more than 5 candidates
    (the initial [k]), [select_iterative] fails on the name [opt], which was
    never assigned: it neither returns a result nor raises the solver's
    error. *)
Theorem select_iterative_unbound_opt
    (argsort : forall K : Type, (K -> K -> bool) -> list K -> list nat)
    (clock : nat -> Qc) (solver_is_solved : list solver_call -> bool)
    (solver_get_time : list solver_call -> Qc)
    (solver_get_solved_objective : list solver_call -> Qc)
    (solver_get_chosen_paths : list solver_call -> bool -> PPTC)
    (apps : list App) (topo : Topology) (cfg : NetworkConfig)
    (max_iter : Z) (epsilon : Qc) (fairness : Fairness)
    (em : EpochComposition) (sort_mode : string) (debug : bool) (w : world) :
  is_ok (presort argsort apps topo (pptc.merge (map app_pptc apps)) 5 sort_mode) = true ->
  (max_iter <= 0 \/ (Qc_of_Z 1024 <= epsilon)%Qc
   \/ pptc.max_paths (pptc.merge (map app_pptc apps)) true <= 5) ->
  (select_iterative argsort clock solver_is_solved solver_get_time
                    solver_get_solved_objective solver_get_chosen_paths
                    apps topo cfg max_iter epsilon fairness em sort_mode debug w).1
  = Raise (UnboundLocalError "opt").
Proof.
  intros Hsort Hguard.
  destruct (presort argsort apps topo (pptc.merge (map app_pptc apps)) 5 sort_mode)
    as [[p' inds]|e] eqn:Hpre; [|discriminate Hsort].
  pose proof (max_paths_all_paths _ _ (presort_paths _ _ _ _ _ _ _ _ Hpre)) as Hmp.
  rewrite <- Hmp in Hguard.
  apply (iter_guard_initial max_iter epsilon _ p') in Hguard.
  unfold select_iterative, bind, time_time, lift. rewrite Hpre.
  cbn [fst snd].
  destruct (Z.to_nat max_iter); cbn [iter_loop]; rewrite Hguard; reflexivity.
Qed.

Lemma select_iterative_unbound_opt_witness :
  (select_iterative stable_argsort tick_clock easy_solved easy_time
                    easy_objective easy_chosen
                    [mkApp [mkEntry (a_tc 7)
                                    [PlainPath [0; 1; 2; 3]; PlainPath [0; 4; 1; 2; 3]]
                                    [0; 0]]
                           (Q2Qc 1) []]
                    (a_topology "line" 6) a_config 10 (Q2Qc 0) WEIGHTED WORST
                    "len" false empty_world).1
  = Raise (UnboundLocalError "opt").
Proof.
  apply select_iterative_unbound_opt.
  - vm_compute. reflexivity.
  - right. right. vm_compute. discriminate.
Defined.

(** ** C3: the resource score *)

(** C3, against the claim: with two resources of no capacity on a path of
    two nodes and diameter 2, the code gives -2 and the claimed formula
    -1. *)
Lemma compute_score_not_claimed :
  compute_score (PlainPath [0; 1]) (a_topology "pair" 2) two_resources
                two_resources (Q2Qc 2)
  <> Ok (claimed_score (PlainPath [0; 1]) (a_topology "pair" 2) two_resources
                       two_resources (Q2Qc 2)).
Proof. intros H. vm_compute in H. discriminate H. Qed.

Lemma Qc_of_nat_S (n : nat) : Qc_of_nat (S n) = (Qc_of_nat n + Q2Qc 1)%Qc.
Proof.
  unfold Qc_of_nat, Qc_of_Z. apply Qc_is_canon. simpl.
  rewrite Nat2Z.inj_succ, <- Z.add_1_r, inject_Z_plus.
  rewrite !Qred_correct. reflexivity.
Qed.

Lemma py_max_max_of (l : list Qc) : l <> [] -> py_max l = Ok (max_of l).
Proof. destruct l; [contradiction | reflexivity]. Qed.

Lemma py_div_ok (a b : Qc) : b <> Q2Qc 0 -> py_div a b = Ok (a / b)%Qc.
Proof.
  intros Hb. unfold py_div. destruct (Qceqb b (Q2Qc 0)) eqn:E; [|reflexivity].
  apply Qceqb_eq in E. contradiction.
Qed.

Lemma path_resources_nonempty t p r :
  path_nodes p <> [] -> path_resources t p r <> [].
Proof.
  unfold path_resources. destruct (path_nodes p); [contradiction|].
  intros _. discriminate.
Qed.

Lemma score_loop_sum p t norm d rws score :
  path_nodes p <> [] -> d <> Q2Qc 0 ->
  Forall (fun rw : string * Qc =>
            exists v, norm !! rw.1 = Some v /\ v <> Q2Qc 0) rws ->
  score_loop p t norm d rws score
  = Ok (score + Qcsum (map (resource_term p t norm) rws)
        - Qc_of_nat (length rws) * length_penalty p d)%Qc.
Proof.
  intros Hp Hd Hn. revert score.
  induction Hn as [|rw rest (v & Hv & Hv0) _ IH]; intros score.
  - cbn [score_loop map length Qcsum foldr].
    change (Qc_of_nat 0) with (Q2Qc 0). f_equal. ring.
  - cbn [score_loop]. unfold score_step.
    rewrite py_max_max_of by (apply path_resources_nonempty, Hp).
    cbn [res_bind]. rewrite Hv. cbn [res_bind].
    rewrite py_div_ok by exact Hv0. cbn [res_bind].
    rewrite py_div_ok by exact Hd. cbn [res_bind].
    rewrite IH. f_equal. cbn [map length Qcsum foldr].
    rewrite Qc_of_nat_S. unfold resource_term at 2, length_penalty.
    rewrite Hv. cbn [default]. fold (Qcsum (map (resource_term p t norm) rest)).
    unfold id, Qcdiv. ring.
Qed.

(** C3, amended. For a path with at least one node, a diameter other than
    0 and totals [N[r]] other than 0 for the weighted resources,
    [compute_score] returns the sum over the resources of
    [max_n t.resources(n).get(r, 0) / N[r] * W[r]] minus the length penalty
    [len(p)/d] once for every resource, that is [|R| * len(p)/d] in all. *)
Theorem compute_score_penalty_per_resource
    (p : Path) (t : Topology) (weights norm : gmap string Qc) (d : Qc) :
  path_nodes p <> [] -> d <> Q2Qc 0 ->
  (forall r w, weights !! r = Some w ->
               exists v, norm !! r = Some v /\ v <> Q2Qc 0) ->
  compute_score p t weights norm d = Ok (summed_score p t weights norm d).
Proof.
  intros Hp Hd Hn. unfold compute_score, summed_score.
  rewrite score_loop_sum; [| exact Hp | exact Hd |].
  - rewrite length_map_to_list. f_equal. ring.
  - apply Forall_forall. intros [r w] Hin.
    apply elem_of_map_to_list in Hin. apply (Hn r w Hin).
Qed.

Lemma compute_score_penalty_per_resource_witness :
  compute_score (PlainPath [0; 1]) (a_topology "pair" 2) two_resources
                two_resources (Q2Qc 2)
  = Ok (summed_score (PlainPath [0; 1]) (a_topology "pair" 2) two_resources
                     two_resources (Q2Qc 2)).
Proof.
  apply compute_score_penalty_per_resource.
  - discriminate.
  - intros H; vm_compute in H; discriminate H.
  - intros r w Hw. exists (Q2Qc 1). unfold two_resources in *.
    destruct (decide (r = "bw")) as [->|Hbw].
    + rewrite lookup_insert_eq. split; [reflexivity|].
      intros H; vm_compute in H; discriminate H.
    + rewrite lookup_insert_ne in Hw |- * by congruence.
      destruct (decide (r = "cpu")) as [->|Hcpu].
      * rewrite lookup_insert_eq. split; [reflexivity|].
        intros H; vm_compute in H; discriminate H.
      * rewrite lookup_insert_ne in Hw by congruence.
        rewrite lookup_empty in Hw. discriminate Hw.
Defined.

(** ** C6: [_expel] in mode [no_flow] *)

Lemma any_flow_true (row : list FlowVar) :
  any_flow row = true
  <-> exists e x, row !! e = Some (Var x) /\ x <> Q2Qc 0.
Proof.
  unfold any_flow, flow_values. induction row as [|f row IH].
  - simpl. split; [discriminate|]. intros (e & x & He & _).
    rewrite lookup_nil in He. discriminate He.
  - destruct f as [z|x]; cbn [omap list_omap existsb].
    + rewrite IH. split.
      * intros (e & x & He & Hx). exists (S e), x. auto.
      * intros ([|e] & x & He & Hx); [discriminate He|]. exists e, x. auto.
    + rewrite orb_true_iff, IH, negb_true_iff, <- not_true_iff_false, Qceqb_eq.
      split.
      * intros [Hx|(e & y & He & Hy)]; [exists O, x | exists (S e), y]; auto.
      * intros ([|e] & y & He & Hy).
        -- injection He as ->. left; exact Hy.
        -- right. exists e, y. auto.
Qed.

Lemma any_flow_false (row : list FlowVar) :
  any_flow row = false
  <-> forall e x, row !! e = Some (Var x) -> x = Q2Qc 0.
Proof.
  rewrite <- not_true_iff_false, any_flow_true. split.
  - intros Hn e x He. destruct (decide (x = Q2Qc 0)) as [|Hx]; [assumption|].
    exfalso. apply Hn. exists e, x. auto.
  - intros Hall (e & x & He & Hx). apply Hx, (Hall e x He).
Qed.

Lemma dense_index_0 (m : ndarray) : dense_index m 0 = O.
Proof. reflexivity. Qed.

Lemma dense_index_S_visible (rest : ndarray) (i : nat) :
  dense_index (0 :: rest) (S i) = S (dense_index rest i).
Proof. unfold dense_index. cbn [take]. now rewrite filter_cons_True. Qed.

Lemma dense_index_S_masked (v : Z) (rest : ndarray) (i : nat) :
  v <> 0 -> dense_index (v :: rest) (S i) = dense_index rest i.
Proof. intros Hv. unfold dense_index. cbn [take]. now rewrite filter_cons_False. Qed.

(** The loop of mode [no_flow], started with the counter at [ii]. *)
Lemma expel_no_flow_spec (tcid : Z) (xps : xps_t) (m : ndarray) :
  forall ii : nat,
    (forall j, (ii <= j < ii + length (filter (fun v : Z => v = 0%Z) m))%nat ->
               is_Some (xps tcid j)) ->
    exists m',
      expel_no_flow tcid (Some xps) ii m = Ok m'
      /\ length m' = length m
      /\ (forall i v, m !! i = Some v -> v <> 0 -> m' !! i = Some v)
      /\ (forall i, m !! i = Some 0 ->
            exists row, xps tcid (ii + dense_index m i)%nat = Some row
                        /\ m' !! i = Some (if any_flow row then 0 else 1)).
Proof.
  induction m as [|v rest IH]; intros ii Hrows.
  - exists []. split; [reflexivity|]. split; [reflexivity|].
    split.
    + intros i v Hi _. rewrite lookup_nil in Hi. discriminate Hi.
    + intros i Hi. rewrite lookup_nil in Hi. discriminate Hi.
  - cbn [expel_no_flow]. destruct (Z.eqb_spec v 0) as [->|Hv].
    + rewrite filter_cons_True in Hrows by reflexivity. cbn [length] in Hrows.
      destruct (Hrows ii ltac:(lia)) as [row Hrow].
      destruct (IH (S ii)) as (rest' & Hrest & Hlen & Hmasked & Hvisible).
      { intros j Hj. apply Hrows. lia. }
      unfold xps_row at 1. rewrite Hrow. cbn [res_bind]. rewrite Hrest.
      cbn [res_bind]. eexists. split; [reflexivity|].
      split; [cbn [length]; now rewrite Hlen|]. split.
      * intros [|i] x Hx Hx0; cbn [lookup list_lookup] in Hx |- *.
        -- injection Hx as <-. contradiction.
        -- apply (Hmasked i x Hx Hx0).
      * intros [|i] Hi; cbn [lookup list_lookup] in Hi |- *.
        -- exists row. rewrite dense_index_0, Nat.add_0_r. split; [exact Hrow|].
           now destruct (any_flow row).
        -- destruct (Hvisible i Hi) as (row' & Hrow' & Hm').
           exists row'. rewrite dense_index_S_visible.
           now rewrite Nat.add_succ_r.
    + rewrite filter_cons_False in Hrows by exact Hv.
      destruct (IH ii Hrows) as (rest' & Hrest & Hlen & Hmasked & Hvisible).
      rewrite Hrest. cbn [res_bind]. eexists. split; [reflexivity|].
      split; [cbn [length]; now rewrite Hlen|]. split.
      * intros [|i] x Hx Hx0; cbn [lookup list_lookup] in Hx |- *; [exact Hx|].
        apply (Hmasked i x Hx Hx0).
      * intros [|i] Hi; cbn [lookup list_lookup] in Hi |- *.
        -- injection Hi as ->. contradiction.
        -- rewrite dense_index_S_masked by exact Hv. apply (Hvisible i Hi).
Qed.

(** C6. In mode [no_flow], on a mask [m] held at reference [r] and a
    tensor with a row for every visible path, [_expel] returns [r] and
    rewrites only that array: an entry other than 0 keeps its value, and
    the visible entry at position [i], whose dense index [j] is the number
    of visible entries before [i], becomes 1 exactly when every decision
    variable [xps[tcid, j, e]] is zero, and stays 0 exactly when one of them
    is not. *)
Theorem expel_no_flow_masks_idle_paths
    (random_oracle : nat -> Qc) (tcid : Z) (r : ref) (xps : xps_t)
    (w : world) (m : ndarray) :
  heap w !! r = Some m ->
  (forall j, (j < Z.to_nat (np.count_zero m))%nat -> is_Some (xps tcid j)) ->
  exists m',
    _expel random_oracle tcid r (Some xps) ExpelMode_no_flow w
    = (Ok r, mkWorld (<[r := m']> (heap w)) (np_draws w) (py_draws w)
                     (ticks w) (solver_log w))
    /\ length m' = length m
    /\ (forall i v, m !! i = Some v -> v <> 0 -> m' !! i = Some v)
    /\ (forall i, m !! i = Some 0 ->
          exists row,
            xps tcid (dense_index m i) = Some row
            /\ (m' !! i = Some 1
                <-> forall e x, row !! e = Some (Var x) -> x = Q2Qc 0)
            /\ (m' !! i = Some 0
                <-> exists e x, row !! e = Some (Var x) /\ x <> Q2Qc 0)).
Proof.
  intros Hr Hrows.
  destruct (expel_no_flow_spec tcid xps m O) as (m' & Hrun & Hlen & Hmasked & Hvisible).
  { intros j Hj. apply Hrows. unfold np.count_zero. rewrite Nat2Z.id. lia. }
  exists m'. split; [|split; [exact Hlen|split; [exact Hmasked|]]].
  - unfold _expel, bind, load, lift, store, ret. rewrite Hr.
    cbn [default from_option fst snd]. unfold id.
    destruct (decide (ExpelMode_no_flow = ExpelMode_no_flow)) as [_|Hne];
      [|contradiction].
    rewrite Hrun. reflexivity.
  - intros i Hi. destruct (Hvisible i Hi) as (row & Hrow & Hm').
    exists row. split; [exact Hrow|]. rewrite Hm'.
    pose proof (any_flow_true row) as Ht. pose proof (any_flow_false row) as Hf.
    destruct (any_flow row); split.
    + split; [discriminate|]. intros Hall. apply Hf in Hall. discriminate Hall.
    + split; [intros _; now apply Ht | reflexivity].
    + split; [intros _; now apply Hf | reflexivity].
    + split; [discriminate|]. intros Hex. apply Ht in Hex. discriminate Hex.
Qed.

Lemma expel_no_flow_masks_idle_paths_witness :
  exists m',
    _expel (const_random (Q2Qc 0)) 7 O (Some three_rows) ExpelMode_no_flow
           (mkWorld [[0; 1; 0; 0]] 0 0 0 [])
    = (Ok O, mkWorld (<[O := m']> [[0; 1; 0; 0]]) 0 0 0 [])
    /\ length m' = 4%nat.
Proof.
  destruct (expel_no_flow_masks_idle_paths (const_random (Q2Qc 0)) 7 O three_rows
              (mkWorld [[0; 1; 0; 0]] 0 0 0 []) [0; 1; 0; 0])
    as (m' & Hrun & Hlen & _).
  - reflexivity.
  - intros j Hj. change (Z.to_nat (np.count_zero [0; 1; 0; 0])) with 3%nat in Hj.
    destruct j as [|[|[|j]]]; [eexists; reflexivity .. | lia].
  - exists m'. split; [exact Hrun | exact Hlen].
Defined.

(** ** Assignment through a list of indices *)

Lemma put_spec (idxs : list nat) (v : Z) :
  forall a : ndarray,
    Forall (fun i => (i < length a)%nat) idxs ->
    exists a',
      np.put idxs v a = Ok a'
      /\ length a' = length a
      /\ forall i, a' !! i = if decide (i ∈ idxs) then Some v else a !! i.
Proof.
  induction idxs as [|j rest IH]; intros a Hin.
  - exists a. split; [reflexivity|]. split; [reflexivity|].
    intros i. destruct (decide (i ∈ [])) as [Hi|_]; [|reflexivity].
    apply elem_of_nil in Hi. contradiction.
  - apply Forall_cons in Hin as [Hj Hrest]. cbn [np.put].
    destruct (decide (j < length a)%nat) as [_|Hn]; [|contradiction].
    destruct (IH (<[j:=v]> a)) as (a' & Hput & Hlen & Hlook).
    { rewrite length_insert. exact Hrest. }
    exists a'. split; [exact Hput|]. split.
    { rewrite Hlen. apply length_insert. }
    intros i. rewrite Hlook.
    destruct (decide (i ∈ rest)) as [Hi|Hi].
    + rewrite decide_True by (right; exact Hi). reflexivity.
    + destruct (decide (i = j)) as [->|Hij].
      * rewrite decide_True by left. now apply list_lookup_insert_eq.
      * rewrite decide_False.
        -- now apply list_lookup_insert_ne.
        -- intros Hc. apply elem_of_cons in Hc as [Hc|Hc]; contradiction.
Qed.

(** ** The stable argsort meets what numpy promises *)

Lemma insert_key_perm (x : nat * Z) (l : list (nat * Z)) :
  insert_key Z.leb x l ≡ₚ x :: l.
Proof.
  induction l as [|y rest IH]; [reflexivity|].
  cbn [insert_key]. destruct (x.2 <=? y.2); [reflexivity|].
  rewrite IH. apply perm_swap.
Qed.

Lemma insertion_perm (l : list (nat * Z)) :
  foldr (insert_key Z.leb) [] l ≡ₚ l.
Proof.
  induction l as [|x rest IH]; [reflexivity|].
  cbn [foldr]. rewrite insert_key_perm. now rewrite IH.
Qed.

Lemma insert_key_sorted (x : nat * Z) (l : list (nat * Z)) :
  StronglySorted key_le l -> StronglySorted key_le (insert_key Z.leb x l).
Proof.
  induction 1 as [|y rest Hsorted IH Hy].
  - repeat constructor.
  - cbn [insert_key]. destruct (Z.leb_spec x.2 y.2) as [Hle|Hgt].
    + constructor; [constructor; assumption|].
      constructor; [exact Hle|].
      eapply Forall_impl; [exact Hy|]. unfold key_le. intros z Hz. cbn beta in Hz. lia.
    + constructor; [exact IH|].
      rewrite insert_key_perm. constructor; [unfold key_le; lia | exact Hy].
Qed.

Lemma insertion_sorted (l : list (nat * Z)) :
  StronglySorted key_le (foldr (insert_key Z.leb) [] l).
Proof.
  induction l as [|x rest IH]; [constructor|].
  cbn [foldr]. now apply insert_key_sorted.
Qed.

Lemma strongly_sorted_lookup (l : list (nat * Z)) (i j : nat) (a b : nat * Z) :
  StronglySorted key_le l -> (i <= j)%nat ->
  l !! i = Some a -> l !! j = Some b -> a.2 <= b.2.
Proof.
  intros Hs. revert i j. induction Hs as [|y rest Hsorted IH Hy]; intros i j Hij Hi Hj.
  - rewrite lookup_nil in Hi. discriminate Hi.
  - destruct i as [|i], j as [|j]; cbn [lookup list_lookup] in Hi, Hj.
    + injection Hi as <-. injection Hj as <-. lia.
    + injection Hi as <-. rewrite Forall_forall in Hy.
      apply (Hy b). eapply list_elem_of_lookup_2, Hj.
    + lia.
    + apply (IH i j); [lia | exact Hi | exact Hj].
Qed.

Lemma zip_seq_lookup (lens : list Z) (a : nat) (x : Z) :
  (a, x) ∈ zip (seq 0 (length lens)) lens -> lens !! a = Some x.
Proof.
  intros Hin. apply list_elem_of_lookup in Hin as [i Hi].
  apply lookup_zip_with_Some in Hi as (a' & x' & Heq & Ha & Hx).
  injection Heq as -> ->.
  apply lookup_seq in Ha as [-> _]. exact Hx.
Qed.

Lemma stable_argsort_spec : argsort_spec stable_argsort.
Proof.
  intros lens. unfold stable_argsort.
  set (pairs := zip (seq 0 (length lens)) lens).
  split.
  - rewrite insertion_perm. unfold pairs.
    rewrite fst_zip; [reflexivity|]. rewrite length_seq. lia.
  - intros i j a b x y Hij Ha Hb Hx Hy.
    rewrite list_lookup_fmap in Ha, Hb.
    destruct (foldr (insert_key Z.leb) [] pairs !! i) as [[a' x']|] eqn:Hi;
      [|discriminate Ha].
    destruct (foldr (insert_key Z.leb) [] pairs !! j) as [[b' y']|] eqn:Hj;
      [|discriminate Hb].
    cbn in Ha, Hb. injection Ha as ->. injection Hb as ->.
    pose proof (strongly_sorted_lookup _ i j _ _ (insertion_sorted pairs) Hij Hi Hj)
      as Hle. cbn in Hle.
    assert (lens !! a = Some x') as Hx'.
    { apply zip_seq_lookup. fold pairs. rewrite <- (insertion_perm pairs).
      eapply list_elem_of_lookup_2, Hi. }
    assert (lens !! b = Some y') as Hy'.
    { apply zip_seq_lookup. fold pairs. rewrite <- (insertion_perm pairs).
      eapply list_elem_of_lookup_2, Hj. }
    congruence.
Qed.

(** ** C4: the k shortest paths *)

Lemma argsort_in_range argsort (lens : list Z) (i : nat) :
  argsort_spec argsort ->
  i ∈ argsort Z Z.leb lens <-> (i < length lens)%nat.
Proof.
  intros Hspec. destruct (Hspec lens) as [Hperm _].
  rewrite Hperm, elem_of_seq. lia.
Qed.

Lemma argsort_NoDup argsort (lens : list Z) :
  argsort_spec argsort -> NoDup (argsort Z Z.leb lens).
Proof.
  intros Hspec. destruct (Hspec lens) as [Hperm _].
  rewrite Hperm. apply NoDup_seq.
Qed.

Lemma length_lens_of (e : pptc_entry) : length (lens_of e) = length (entry_paths e).
Proof. unfold lens_of. apply length_map. Qed.

(** One traffic class. *)
Lemma k_shortest_paths_tc_spec argsort (e : pptc_entry) (k : Z) :
  argsort_spec argsort -> 0 <= k ->
  exists e',
    k_shortest_paths_tc argsort e k = Ok (e', argsort Z Z.leb (lens_of e))
    /\ selects_prefix (argsort Z Z.leb (lens_of e)) k e e'
    /\ length (pptc.visible e')
       = Z.to_nat (Z.min k (Z.of_nat (length (entry_paths e))))
    /\ no_masked_shorter e'.
Proof.
  intros Hspec Hk.
  set (n := length (entry_paths e)).
  set (ind := argsort Z Z.leb (lens_of e)).
  set (c := Z.to_nat (Z.min k (Z.of_nat n))).
  assert (length ind = n) as Hlen_ind.
  { destruct (Hspec (lens_of e)) as [Hperm _]. unfold ind.
    rewrite (Permutation_length Hperm), length_seq. apply length_lens_of. }
  assert (c <= n)%nat as Hc by (unfold c; lia).
  assert (forall i, i ∈ take c ind -> (i < n)%nat) as Hsel_range.
  { intros i Hi. apply elem_of_take in Hi as (pos & Hpos & _).
    apply list_elem_of_lookup_2 in Hpos.
    apply (argsort_in_range argsort) in Hpos; [|exact Hspec].
    now rewrite length_lens_of in Hpos. }
  destruct (put_spec (take c ind) 0 (np.ones n)) as (m & Hput & Hlen & Hlook).
  { apply Forall_forall. intros i Hi. unfold np.ones.
    rewrite length_replicate. apply (Hsel_range i Hi). }
  unfold np.ones in Hlen. rewrite length_replicate in Hlen.
  assert (forall i, i ∈ take c ind -> m !! i = Some 0) as Hvis.
  { intros i Hi. rewrite Hlook. now rewrite decide_True. }
  assert (forall i, (i < n)%nat -> i ∉ take c ind -> m !! i = Some 1) as Hmasked.
  { intros i Hi Hni. rewrite Hlook, decide_False by exact Hni.
    now apply lookup_replicate_2. }
  assert (forall i, m !! i = Some 0 -> i ∈ take c ind) as Hvis_inv.
  { intros i Hi. destruct (decide (i ∈ take c ind)) as [|Hni]; [assumption|].
    rewrite Hmasked in Hi; [discriminate Hi | | exact Hni].
    apply lookup_lt_Some in Hi. lia. }
  exists (pptc.set_mask e m). split; [|split; [|split]].
  - unfold k_shortest_paths_tc. fold (lens_of e). fold ind.
    unfold pptc.num_paths. fold n. rewrite Nat2Z.id.
    unfold np.size, np.ones at 1. rewrite length_replicate.
    unfold np.slice_to. rewrite decide_True by lia. fold c.
    rewrite Hput. reflexivity.
  - unfold selects_prefix. cbn [entry_tc entry_paths entry_mask pptc.set_mask].
    fold n c. auto.
  - unfold pptc.visible. cbn [entry_mask pptc.set_mask]. rewrite Hlen.
    transitivity (length (take c ind)); [|apply length_take_le; lia].
    apply Permutation_length, NoDup_Permutation.
    + apply NoDup_filter, NoDup_seq.
    + eapply sublist_NoDup; [|apply sublist_take].
      apply argsort_NoDup, Hspec.
    + intros i. rewrite list_elem_of_filter, elem_of_seq. split.
      * intros [Hi _]. apply Hvis_inv, Hi.
      * intros Hi. split; [apply Hvis, Hi|]. specialize (Hsel_range i Hi). lia.
  - intros i j pi pj Hi Hj Hpi Hpj.
    cbn [entry_mask entry_paths pptc.set_mask] in Hi, Hj, Hpi, Hpj.
    apply Hvis_inv in Hi. apply elem_of_take in Hi as (a & Ha & Hac).
    assert (j ∉ take c ind) as Hnj.
    { intros Hc'. apply Hvis in Hc'. congruence. }
    assert (j ∈ ind) as Hj_in.
    { apply (argsort_in_range argsort); [exact Hspec|].
      rewrite length_lens_of. eapply lookup_lt_Some, Hpj. }
    apply list_elem_of_lookup in Hj_in as [b Hb].
    assert (c <= b)%nat as Hcb.
    { destruct (le_lt_dec c b) as [|Hlt]; [assumption|].
      exfalso. apply Hnj, elem_of_take. exists b. auto. }
    destruct (Hspec (lens_of e)) as [_ Hasc].
    assert (Z.of_nat (path_len pi) <= Z.of_nat (path_len pj)) as Hle; [|lia].
    apply (Hasc a b i j); [lia | exact Ha | exact Hb | |];
      unfold lens_of; rewrite list_lookup_fmap.
    + now rewrite Hpi.
    + now rewrite Hpj.
Qed.

(** C4, amended. For every admissible [argsort], every PPTC and every
    [k >= 0], [k_shortest_paths] returns, and for every traffic class with
    [n] candidates the visible paths are exactly the first [min(k, n)]
    indices of the order that [argsort] gives to the path lengths, every
    other candidate has mask value 1, and no visible path is longer than a
    masked one. Which of several candidates of equal length come first is
    left to [argsort]. *)
Theorem k_shortest_paths_selects_shortest
    (argsort : forall K : Type, (K -> K -> bool) -> list K -> list nat)
    (p : PPTC) (k : Z) (rm : bool) :
  argsort_spec argsort -> 0 <= k ->
  exists p' inds,
    k_shortest_paths argsort p k rm = Ok (p', inds)
    /\ Forall2 (fun e e' =>
                  selects_prefix (argsort Z Z.leb (lens_of e)) k e e'
                  /\ length (pptc.visible e')
                     = Z.to_nat (Z.min k (Z.of_nat (length (entry_paths e))))
                  /\ no_masked_shorter e')
               p p'.
Proof.
  intros Hspec Hk. induction p as [|e rest IH].
  - exists [], ∅. split; [reflexivity | constructor].
  - destruct IH as (rest' & inds & Hrest & Hall).
    destruct (k_shortest_paths_tc_spec argsort e k Hspec Hk)
      as (e' & He & Hsel & Hcount & Hshort).
    exists (e' :: rest'), (inds ∪ {[ID (entry_tc e) := argsort Z Z.leb (lens_of e)]}).
    split.
    + cbn [k_shortest_paths]. rewrite He. cbn [res_bind]. rewrite Hrest.
      reflexivity.
    + constructor; [auto | exact Hall].
Qed.

Lemma k_shortest_paths_selects_shortest_witness :
  exists p' inds,
    k_shortest_paths stable_argsort
      [mkEntry (a_tc 7)
               [PlainPath [0; 1; 2; 3]; PlainPath [0; 4; 1; 2; 3];
                PlainPath [0; 4; 5; 1; 2; 3]]
               [0; 0; 0]]
      2 true
    = Ok (p', inds)
    /\ length p' = 1%nat.
Proof.
  destruct (k_shortest_paths_selects_shortest stable_argsort
              [mkEntry (a_tc 7)
                       [PlainPath [0; 1; 2; 3]; PlainPath [0; 4; 1; 2; 3];
                        PlainPath [0; 4; 5; 1; 2; 3]]
                       [0; 0; 0]]
              2 true stable_argsort_spec ltac:(lia))
    as (p' & inds & Hrun & Hall).
  exists p', inds. split; [exact Hrun|].
  apply Forall2_length in Hall. symmetry. exact Hall.
Defined.

Lemma all_equal_elements (lens : list Z) (a b : nat) (x y : Z) :
  all_equal Z.leb lens = true ->
  lens !! a = Some x -> lens !! b = Some y -> x = y.
Proof.
  destruct lens as [|h rest]; intros Heq Ha Hb.
  - rewrite lookup_nil in Ha. discriminate Ha.
  - cbn [all_equal] in Heq. rewrite forallb_forall in Heq.
    assert (forall i z, (h :: rest) !! i = Some z -> z = h) as Hh.
    { intros [|i] z Hz; cbn [lookup list_lookup] in Hz; [congruence|].
      apply list_elem_of_lookup_2, list_elem_of_In, Heq in Hz.
      apply andb_true_iff in Hz as [H1 H2].
      apply Z.leb_le in H1, H2. lia. }
    rewrite (Hh a x Ha), (Hh b y Hb). reflexivity.
Qed.

Lemma unstable_argsort_spec : argsort_spec unstable_argsort.
Proof.
  intros lens. unfold unstable_argsort.
  destruct ((length lens =? 18)%nat && all_equal Z.leb lens) eqn:Hcase;
    [|apply stable_argsort_spec].
  apply andb_true_iff in Hcase as [Hlen Heq]. apply Nat.eqb_eq in Hlen.
  split.
  - rewrite Hlen. unfold quicksort18. rewrite reverse_Permutation. reflexivity.
  - intros i j a b x y _ _ _ Hx Hy.
    rewrite (all_equal_elements lens a b x y Heq Hx Hy). lia.
Qed.

(** C4, against the claim: an argsort within what numpy promises orders
    eighteen candidates of one length as the quicksort of numpy does, and
    [k_shortest_paths] with [k = 2] then shows the candidates 0 and 15, not
    the candidates 0 and 1. *)
Lemma k_shortest_ties_not_by_index :
  argsort_spec unstable_argsort
  /\ (exists p' inds,
        k_shortest_paths unstable_argsort eighteen_paths 2 true = Ok (p', inds)
        /\ map pptc.visible p' = [[0%nat; 15%nat]])
  /\ ~ ties_by_index unstable_argsort.
Proof.
  split; [exact unstable_argsort_spec|]. split.
  - eexists. eexists. split; vm_compute; reflexivity.
  - intros Hclaim.
    destruct (Hclaim eighteen_paths 2 true ltac:(lia)) as (p' & inds & Hrun & Hall).
    vm_compute in Hrun. injection Hrun as <- _.
    apply Forall2_cons_1 in Hall as [(_ & _ & _ & Hvis & _) _].
    specialize (Hvis 1%nat). vm_compute in Hvis.
    assert (Some 1 = Some 0) as Habs; [|discriminate Habs].
    apply Hvis. right. left.
Qed.

(** ** C5: random selection *)

Lemma filter_ext_in {A} (P Q : A -> Prop) `{forall x, Decision (P x)}
    `{forall x, Decision (Q x)} (l : list A) :
  (forall x, x ∈ l -> (P x <-> Q x)) -> filter P l = filter Q l.
Proof.
  induction l as [|x rest IH]; intros Hext; [reflexivity|].
  rewrite !filter_cons.
  rewrite IH by (intros y Hy; apply Hext; now right).
  destruct (decide (P x)) as [Hp|Hp], (decide (Q x)) as [Hq|Hq];
    try reflexivity; exfalso.
  - apply Hq, (Hext x); [left | exact Hp].
  - apply Hp, (Hext x); [left | exact Hq].
Qed.

Lemma count_zero_positions_from (m : ndarray) :
  forall off : nat,
    length (filter (fun v : Z => v = 0) m)
    = length (filter (fun i => m !! (i - off)%nat = Some 0) (seq off (length m))).
Proof.
  induction m as [|x rest IH]; intros off; [reflexivity|].
  cbn [length seq]. rewrite !filter_cons.
  rewrite Nat.sub_diag. cbn [lookup list_lookup].
  rewrite (filter_ext_in (fun i => (x :: rest) !! (i - off)%nat = Some 0)
                         (fun i => rest !! (i - S off)%nat = Some 0)
                         (seq (S off) (length rest))).
  - destruct (decide (x = 0)) as [->|Hx].
    + rewrite decide_True by reflexivity. cbn [length]. now rewrite (IH (S off)).
    + rewrite decide_False by congruence. apply (IH (S off)).
  - intros i Hi. apply elem_of_seq in Hi.
    replace (i - off)%nat with (S (i - S off)) by lia. reflexivity.
Qed.

Lemma count_zero_positions (m : ndarray) :
  np.count_zero m
  = Z.of_nat (length (filter (fun i => m !! i = Some 0) (seq 0 (length m)))).
Proof.
  unfold np.count_zero. rewrite (count_zero_positions_from m 0). do 2 f_equal.
  apply filter_ext_in. intros i _. now rewrite Nat.sub_0_r.
Qed.

(** What the mask of a draw looks like. *)
Lemma rand_mask_spec (n : nat) (draw : list nat) :
  NoDup draw -> draw ⊆ np.arange n ->
  exists m,
    rand_mask n draw = Ok m
    /\ length m = n
    /\ (forall i, i ∈ draw -> m !! i = Some 0)
    /\ (forall i, (i < n)%nat -> i ∉ draw -> m !! i = Some 1)
    /\ (forall i, m !! i = Some 0 -> i ∈ draw)
    /\ np.count_zero m = Z.of_nat (length draw).
Proof.
  intros Hnd Hsub.
  assert (forall i, i ∈ draw -> (i < n)%nat) as Hrange.
  { intros i Hi. apply Hsub, elem_of_seq in Hi. lia. }
  destruct (put_spec draw 0 (np.ones n)) as (m & Hput & Hlen & Hlook).
  { apply Forall_forall. intros i Hi. unfold np.ones.
    rewrite length_replicate. apply (Hrange i Hi). }
  unfold np.ones in Hlen, Hlook. rewrite length_replicate in Hlen.
  assert (forall i, m !! i = Some 0 -> i ∈ draw) as Hinv.
  { intros i Hi. rewrite Hlook in Hi.
    destruct (decide (i ∈ draw)) as [|_]; [assumption|].
    apply lookup_replicate in Hi as [Hi _]. discriminate Hi. }
  exists m. split; [exact Hput|]. split; [exact Hlen|].
  split; [|split; [|split; [exact Hinv|]]].
  - intros i Hi. rewrite Hlook. now rewrite decide_True.
  - intros i Hi Hni. rewrite Hlook, decide_False by exact Hni.
    now apply lookup_replicate_2.
  - rewrite count_zero_positions, Hlen. f_equal.
    apply Permutation_length, NoDup_Permutation.
    + apply NoDup_filter, NoDup_seq.
    + exact Hnd.
    + intros i. rewrite list_elem_of_filter, elem_of_seq. split.
      * intros [Hi _]. apply Hinv, Hi.
      * intros Hi. split; [|specialize (Hrange i Hi); lia].
        rewrite Hlook. now rewrite decide_True.
Qed.

(** Two draws give one mask exactly when they are the same combination. *)
Lemma rand_mask_combination (n k : nat) (d1 d2 : list nat) :
  valid_sample (np.arange n) k d1 -> valid_sample (np.arange n) k d2 ->
  rand_mask n d1 = rand_mask n d2 <-> d1 ≡ₚ d2.
Proof.
  intros (_ & Hnd1 & Hsub1) (_ & Hnd2 & Hsub2).
  destruct (rand_mask_spec n d1 Hnd1 Hsub1)
    as (m1 & Hm1 & Hlen1 & Hvis1 & Hmask1 & Hinv1 & _).
  destruct (rand_mask_spec n d2 Hnd2 Hsub2)
    as (m2 & Hm2 & Hlen2 & Hvis2 & Hmask2 & Hinv2 & _).
  rewrite Hm1, Hm2. split.
  - intros Heq. injection Heq as ->.
    apply NoDup_Permutation; [exact Hnd1 | exact Hnd2 |].
    intros i. split; intros Hi.
    + apply Hinv2, Hvis1, Hi.
    + apply Hinv1, Hvis2, Hi.
  - intros Hperm. f_equal. apply list_eq. intros i.
    destruct (decide (i < n)%nat) as [Hi|Hi].
    + destruct (decide (i ∈ d1)) as [Hin|Hnin].
      * rewrite (Hvis1 i Hin). symmetry. apply Hvis2. now rewrite <- Hperm.
      * rewrite (Hmask1 i Hi Hnin). symmetry. apply Hmask2; [exact Hi|].
        now rewrite <- Hperm.
    + rewrite (proj2 (lookup_ge_None m1 i)) by lia.
      rewrite (proj2 (lookup_ge_None m2 i)) by lia. reflexivity.
Qed.

(** Every mask with [k] zeros is the mask of a draw. *)
Lemma rand_mask_onto (n k : nat) (m : ndarray) :
  k_visible_mask n k m ->
  exists draw, valid_sample (np.arange n) k draw /\ rand_mask n draw = Ok m.
Proof.
  intros (Hlen & Hbits & Hcount).
  set (draw := filter (fun i => m !! i = Some 0) (seq 0 n)).
  assert (NoDup draw) as Hnd by apply NoDup_filter, NoDup_seq.
  assert (draw ⊆ np.arange n) as Hsub.
  { intros i Hi. apply list_elem_of_filter in Hi as [_ Hi]. exact Hi. }
  exists draw. split.
  - split; [|split; [exact Hnd | exact Hsub]].
    rewrite count_zero_positions, Hlen in Hcount. fold draw in Hcount. lia.
  - destruct (rand_mask_spec n draw Hnd Hsub)
      as (m' & Hm' & Hlen' & Hvis & Hmask & _).
    rewrite Hm'. f_equal. apply list_eq. intros i.
    destruct (decide (i < n)%nat) as [Hi|Hi].
    + destruct (decide (i ∈ draw)) as [Hin|Hnin].
      * rewrite (Hvis i Hin). apply list_elem_of_filter in Hin as [Hin _].
        now rewrite Hin.
      * rewrite (Hmask i Hi Hnin).
        destruct (m !! i) as [v|] eqn:Hv.
        -- destruct (Hbits i v Hv) as [->| ->]; [|reflexivity].
           exfalso. apply Hnin, list_elem_of_filter. split; [exact Hv|].
           apply elem_of_seq. lia.
        -- apply lookup_ge_None in Hv. lia.
    + rewrite (proj2 (lookup_ge_None m' i)) by lia.
      rewrite (proj2 (lookup_ge_None m i)) by lia. reflexivity.
Qed.

Lemma scripted_choice_nil_spec : choice_spec prefix_choice.
Proof.
  intros c pop k Hnd Hk. unfold prefix_choice, scripted_choice.
  rewrite lookup_nil. cbn [default from_option]. unfold id.
  split; [|split].
  - now apply length_take_le.
  - eapply sublist_NoDup; [exact Hnd | apply sublist_take].
  - intros i Hi. apply elem_of_take in Hi as (pos & Hpos & _).
    eapply list_elem_of_lookup_2, Hpos.
Qed.



(** ** C5: the distribution of the masks *)


Lemma combinations_count {A} (l : list A) (k : nat) :
  length (combinations l k) = binom (length l) k.
Proof.
  revert k. induction l as [|x rest IH]; intros [|k]; cbn [combinations binom length];
    try reflexivity.
  rewrite length_app, length_map, !IH. reflexivity.
Qed.




Lemma filter_map_comm {A B} (f : A -> B) (P : B -> Prop)
    `{forall b, Decision (P b)} (l : list A) :
  filter P (map f l) = map f (filter (fun a => P (f a)) l).
Proof.
  induction l as [|a rest IH]; [reflexivity|].
  cbn [map]. rewrite !filter_cons, IH.
  destruct (decide (P (f a))); reflexivity.
Qed.

Lemma filter_none {A} (P : A -> Prop) `{forall a, Decision (P a)} (l : list A) :
  (forall a, a ∈ l -> ~ P a) -> filter P l = [].
Proof.
  induction l as [|a rest IH]; intros Hnone; [reflexivity|].
  rewrite filter_cons, decide_False by (apply Hnone; left).
  apply IH. intros b Hb. apply Hnone. now right.
Qed.

Lemma combinations_within {A} (l : list A) (k : nat) (c : list A) :
  c ∈ combinations l k -> forall i, i ∈ c -> i ∈ l.
Proof.
  revert k c. induction l as [|x rest IH]; intros [|k] c Hc i Hi;
    cbn [combinations] in Hc.
  - apply list_elem_of_singleton in Hc. subst c. inversion Hi.
  - inversion Hc.
  - apply list_elem_of_singleton in Hc. subst c. inversion Hi.
  - apply elem_of_app in Hc as [Hc|Hc].
    + apply list_elem_of_fmap in Hc as (c1 & -> & Hc1).
      apply elem_of_cons in Hi as [->|Hi]; [left|].
      right. eapply IH; eassumption.
    + right. eapply IH; eassumption.
Qed.

(** Distinct combinations are distinct as sets. *)
Lemma combinations_same_set (l : list nat) :
  NoDup l ->
  forall (k : nat) (c : list nat),
    c ∈ combinations l k ->
    filter (fun c' => list_to_set c' =@{gset nat} list_to_set c)
           (combinations l k)
    = [c].
Proof.
  induction 1 as [|x rest Hx Hnd IH]; intros [|k] c Hc; cbn [combinations] in Hc |- *.
  - apply list_elem_of_singleton in Hc. subst c.
    rewrite filter_cons, decide_True by reflexivity. reflexivity.
  - inversion Hc.
  - apply list_elem_of_singleton in Hc. subst c.
    rewrite filter_cons, decide_True by reflexivity. reflexivity.
  - rewrite filter_app, filter_map_comm. apply elem_of_app in Hc as [Hc|Hc].
    + apply list_elem_of_fmap in Hc as (c1 & -> & Hc1).
      rewrite (filter_ext_in _
                 (fun c' => list_to_set c' =@{gset nat} list_to_set c1)
                 (combinations rest k)).
      * rewrite (IH k c1 Hc1). rewrite filter_none; [reflexivity|].
        intros c' Hc' Heq. apply Hx.
        apply (combinations_within _ _ _ Hc').
        apply (elem_of_list_to_set (C := gset nat)). rewrite Heq.
        apply elem_of_list_to_set. left.
      * intros c' Hc'. split; [|intros Heq; cbn [list_to_set]; now rewrite Heq].
        intros Heq. apply set_eq. intros i.
        rewrite !elem_of_list_to_set.
        assert (i ∈ x :: c' <-> i ∈ x :: c1) as Hsame.
        { rewrite <- !(elem_of_list_to_set (C := gset nat)). now rewrite Heq. }
        rewrite !elem_of_cons in Hsame.
        split; intros Hi.
        -- destruct (proj1 Hsame (or_intror Hi)) as [->|Hi1]; [|exact Hi1].
           exfalso. apply Hx, (combinations_within _ _ _ Hc'), Hi.
        -- destruct (proj2 Hsame (or_intror Hi)) as [->|Hi1]; [|exact Hi1].
           exfalso. apply Hx, (combinations_within _ _ _ Hc1), Hi.
    + rewrite filter_none.
      * cbn [map app]. apply IH, Hc.
      * intros c' Hc' Heq. apply Hx.
        apply (combinations_within _ _ _ Hc).
        apply (elem_of_list_to_set (C := gset nat)). rewrite <- Heq.
        apply elem_of_list_to_set. left.
Qed.

(** Uniformity over the combinations can be met, whatever [n] and [k]. *)
Lemma uniform_over_combinations_uniform (n k : nat) :
  uniform_draws n k (uniform_over_combinations n k).
Proof.
  intros c Hc. unfold prob, uniform_over_combinations.
  rewrite filter_map_comm.
  rewrite (filter_ext_in _
             (fun c' => list_to_set c' =@{gset nat} list_to_set c)
             (combinations (np.arange n) k)) by reflexivity.
  unfold np.arange in Hc |- *.
  rewrite (combinations_same_set _ (NoDup_seq 0 n) k c Hc).
  cbn [map snd Qcsum foldr]. apply Qcplus_0_r.
Qed.











(** ** Shared arrays *)

Lemma load_some (r : ref) (w : world) (m : ndarray) :
  heap w !! r = Some m -> load r w = (Ok m, w).
Proof. intros H. unfold load. now rewrite H. Qed.

Lemma put_ref_some (r : ref) (idxs : list nat) (v : Z) (w : world) (m m' : ndarray) :
  heap w !! r = Some m -> np.put idxs v m = Ok m' ->
  put_ref r idxs v w = (Ok tt, set_heap w (<[r := m']> (heap w))).
Proof.
  intros Hr Hput. unfold put_ref, bind. rewrite (load_some r w m Hr).
  unfold lift. rewrite Hput. reflexivity.
Qed.

Lemma xor_all_zero_total (a b : ndarray) :
  length a = length b -> exists s, np.xor_all_zero a b = Ok s.
Proof.
  intros Hlen. unfold np.xor_all_zero. rewrite decide_True by exact Hlen. eauto.
Qed.

(** [_in] reads the heap and leaves it as it is; it answers [false] exactly
    when the mask is fresh. *)
Lemma _in_spec (mask : ref) (m : ndarray) (explored : list ref) (w : world) :
  heap w !! mask = Some m ->
  all_of_length (heap w) (length m) explored ->
  exists seen,
    _in mask explored w = (Ok seen, w)
    /\ (seen = false <-> fresh_for (heap w) m explored).
Proof.
  intros Hm. induction explored as [|x rest IH]; intros Hshape.
  - exists false. split; [reflexivity|]. split; [|reflexivity].
    intros _ x mx Hx. apply elem_of_nil in Hx. contradiction.
  - destruct (Hshape x ltac:(left)) as (mx & Hx & Hlen).
    destruct (xor_all_zero_total m mx (eq_sym Hlen)) as [s Hs].
    destruct IH as (seen & Hrun & Hseen).
    { intros y Hy. apply Hshape. now right. }
    cbn [_in]. unfold bind. rewrite (load_some mask w m Hm), (load_some x w mx Hx).
    unfold lift. rewrite Hs. destruct s.
    + exists true. split; [reflexivity|]. split; [discriminate|].
      intros Hfresh. specialize (Hfresh x mx ltac:(left) Hx). congruence.
    + exists seen. split; [exact Hrun|]. rewrite Hseen. split.
      * intros Hfresh y my Hy Hmy. apply elem_of_cons in Hy as [->|Hy].
        -- congruence.
        -- apply (Hfresh y my Hy Hmy).
      * intros Hfresh y my Hy Hmy. apply (Hfresh y my); [now right | exact Hmy].
Qed.

(** ** Combinations *)

Lemma combinations_sublist {A} (l : list A) (k : nat) (comb : list A) :
  comb ∈ combinations l k -> comb `sublist_of` l.
Proof.
  revert k comb. induction l as [|x rest IH]; intros [|k] comb Hin;
    cbn [combinations] in Hin.
  - apply list_elem_of_singleton in Hin as ->. constructor.
  - apply elem_of_nil in Hin. contradiction.
  - apply list_elem_of_singleton in Hin as ->. apply sublist_nil_l.
  - apply elem_of_app in Hin as [Hin|Hin].
    + apply list_elem_of_fmap in Hin as (c & -> & Hc).
      apply sublist_skip, (IH k c Hc).
    + apply sublist_cons, (IH (S k) comb Hin).
Qed.

Lemma unused_of_lookup (m : ndarray) (i : nat) :
  i ∈ unused_of m <-> m !! i = Some 1.
Proof.
  unfold unused_of. rewrite list_elem_of_filter, elem_of_seq. split.
  - intros [Hi _]. exact Hi.
  - intros Hi. split; [exact Hi|]. apply lookup_lt_Some in Hi. lia.
Qed.

(** Setting masked entries to 0 and back to 1 restores the mask. *)
Lemma put_restore (comb : list nat) (m : ndarray) :
  (forall i, i ∈ comb -> m !! i = Some 1) ->
  exists m',
    np.put comb 0 m = Ok m'
    /\ length m' = length m
    /\ np.put comb 1 m' = Ok m.
Proof.
  intros Hcomb.
  assert (Forall (fun i => (i < length m)%nat) comb) as Hrange.
  { apply Forall_forall. intros i Hi. eapply lookup_lt_Some, Hcomb, Hi. }
  destruct (put_spec comb 0 m Hrange) as (m' & Hput & Hlen & Hlook).
  exists m'. split; [exact Hput|]. split; [exact Hlen|].
  destruct (put_spec comb 1 m') as (m'' & Hput' & Hlen' & Hlook').
  { now rewrite Hlen. }
  rewrite Hput'. f_equal. apply list_eq. intros i.
  rewrite Hlook', Hlook.
  destruct (decide (i ∈ comb)) as [Hi|_]; [|reflexivity].
  symmetry. apply Hcomb, Hi.
Qed.

(** ** The walk of mode [next_sorted] *)

Lemma set_heap_same (w : world) : set_heap w (heap w) = w.
Proof. destruct w; reflexivity. Qed.

Lemma fresh_for_agree (h h' : list ndarray) (m : ndarray) (refs : list ref) :
  (forall x, x ∈ refs -> h' !! x = h !! x) ->
  fresh_for h m refs <-> fresh_for h' m refs.
Proof.
  intros Hagree. unfold fresh_for. split; intros Hfresh x mx Hx Hmx.
  - apply (Hfresh x mx Hx). now rewrite <- Hagree.
  - apply (Hfresh x mx Hx). now rewrite Hagree.
Qed.

(** When some combination gives a fresh mask, the walk stops at one: it
    returns [found_new = True], leaves a fresh mask at [mask] and touches
    no other array. *)
Lemma next_sorted_loop_found (explored : list ref) (mask : ref) (m1 : ndarray) :
  mask ∉ explored ->
  forall (combs : list (list nat)) (w : world),
    heap w !! mask = Some m1 ->
    all_of_length (heap w) (length m1) explored ->
    (forall comb, comb ∈ combs -> forall i, i ∈ comb -> m1 !! i = Some 1) ->
    (exists comb m', comb ∈ combs /\ np.put comb 0 m1 = Ok m'
                     /\ fresh_for (heap w) m' explored) ->
    exists comb m',
      next_sorted_loop explored mask combs w
      = (Ok true, set_heap w (<[mask := m']> (heap w)))
      /\ comb ∈ combs
      /\ np.put comb 0 m1 = Ok m'
      /\ fresh_for (heap w) m' explored.
Proof.
  intros Hmask. induction combs as [|comb rest IH]; intros w Hm1 Hshape Hones Hex.
  - destruct Hex as (comb & _ & Hin & _). apply elem_of_nil in Hin. contradiction.
  - destruct (put_restore comb m1 (Hones comb ltac:(left)))
      as (m' & Hput & Hlen & Hback).
    assert (mask < length (heap w))%nat as Hbound by (eapply lookup_lt_Some, Hm1).
    set (w1 := set_heap w (<[mask := m']> (heap w))).
    assert (heap w1 !! mask = Some m') as Hm'.
    { unfold w1. cbn [heap set_heap]. now apply list_lookup_insert_eq. }
    assert (forall x, x ∈ explored -> heap w1 !! x = heap w !! x) as Hagree.
    { intros x Hx. unfold w1. cbn [heap set_heap].
      apply list_lookup_insert_ne. intros ->. contradiction. }
    destruct (_in_spec mask m' explored w1 Hm') as (seen & Hin & Hseen).
    { intros x Hx. rewrite Hagree by exact Hx. rewrite Hlen. apply Hshape, Hx. }
    rewrite <- (fresh_for_agree (heap w) (heap w1) m' explored Hagree) in Hseen.
    cbn [next_sorted_loop]. unfold bind at 1.
    rewrite (put_ref_some mask comb 0 w m1 m' Hm1 Hput). fold w1.
    unfold bind at 1. rewrite Hin. destruct seen; cbn [negb].
    + assert (put_ref mask comb 1 w1 = (Ok tt, w)) as Hrestore.
      { rewrite (put_ref_some mask comb 1 w1 m' m1 Hm' Hback).
        unfold w1, set_heap. cbn [heap np_draws py_draws ticks solver_log].
        rewrite list_insert_insert_eq, (list_insert_id _ _ _ Hm1).
        destruct w; reflexivity. }
      unfold bind. rewrite Hrestore.
      destruct (IH w Hm1 Hshape) as (comb' & m'' & Hrun & Hin' & Hput' & Hfresh').
      { intros c Hc. apply Hones. now right. }
      { destruct Hex as (c & mc & Hc & Hputc & Hfreshc).
        apply elem_of_cons in Hc as [->|Hc].
        - exfalso. rewrite Hput in Hputc. injection Hputc as <-.
          apply Hseen in Hfreshc. discriminate Hfreshc.
        - exists c, mc. auto. }
      exists comb', m''. split; [exact Hrun|].
      split; [now right|]. auto.
    + exists comb, m'. split; [reflexivity|]. split; [left|].
      split; [exact Hput|]. now apply Hseen.
Qed.

(** ** [_replace] in mode [next_sorted] *)

Lemma replace_next_sorted_fresh
    (choice_oracle : nat -> list nat -> nat -> list nat) (fuel : nat)
    (explored : list ref) (mask : ref) (m1 : ndarray) (num_paths : Z)
    (tree : option PathTree) (w : world) :
  mask ∉ explored ->
  heap w !! mask = Some m1 ->
  all_of_length (heap w) (length m1) explored ->
  0 < num_paths - np.count_zero m1 <= Z.of_nat (length (unused_of m1)) ->
  (exists comb m',
     comb ∈ combinations (unused_of m1) (Z.to_nat (num_paths - np.count_zero m1))
     /\ np.put comb 0 m1 = Ok m'
     /\ fresh_for (heap w) m' explored) ->
  exists m',
    _replace choice_oracle fuel explored mask num_paths ReplaceMode_next_sorted tree w
    = (Ok tree, set_heap w (<[mask := m']> (heap w)))
    /\ fresh_for (heap w) m' explored.
Proof.
  intros Hmask Hm1 Hshape Hneed Hex.
  destruct (next_sorted_loop_found explored mask m1 Hmask
              (combinations (unused_of m1) (Z.to_nat (num_paths - np.count_zero m1)))
              w Hm1 Hshape)
    as (comb & m' & Hrun & _ & _ & Hfresh); [|exact Hex|].
  { intros comb Hcomb i Hi. apply unused_of_lookup.
    apply combinations_sublist in Hcomb.
    eapply sublist_subseteq; [exact Hcomb | exact Hi]. }
  exists m'. split; [|exact Hfresh].
  unfold _replace. unfold bind at 1. rewrite (load_some mask w m1 Hm1).
  rewrite Z.max_r by lia.
  destruct (Z.leb_spec (num_paths - np.count_zero m1) 0) as [Hle|_]; [lia|].
  destruct (Z.ltb_spec (Z.of_nat (length (unused_of m1)))
                       (num_paths - np.count_zero m1)) as [Hlt|_]; [lia|].
  rewrite decide_True by reflexivity.
  unfold bind. rewrite Hrun. reflexivity.
Qed.

(** ** [_expel] writes one array *)

Lemma expel_inverse_flow_heap random_oracle tcid xps (m : ndarray) :
  forall ii w, heap (expel_inverse_flow random_oracle tcid xps ii m w).2 = heap w.
Proof.
  induction m as [|v rest IH]; intros ii w; [reflexivity|].
  cbn [expel_inverse_flow]. destruct (v =? 0).
  - unfold bind at 1, lift. destruct (xps_row xps tcid ii) as [row|e]; [|reflexivity].
    unfold bind at 1, random_random.
    unfold bind at 1.
    match goal with
    | |- context [expel_inverse_flow _ _ _ ?i _ ?w0] =>
        specialize (IH i w0);
        destruct (expel_inverse_flow random_oracle tcid xps i rest w0) as [[a|e] w2]
    end; exact IH.
  - unfold bind at 1. specialize (IH ii w).
    destruct (expel_inverse_flow random_oracle tcid xps ii rest w) as [[a|e] w2];
      exact IH.
Qed.

Lemma expel_random_heap random_oracle (m : ndarray) :
  forall w, heap (expel_random random_oracle m w).2 = heap w.
Proof.
  induction m as [|v rest IH]; intros w; [reflexivity|].
  cbn [expel_random]. destruct (v =? 0).
  - unfold bind at 1, random_random. unfold bind at 1.
    match goal with
    | |- context [expel_random _ _ ?w0] =>
        specialize (IH w0);
        destruct (expel_random random_oracle rest w0) as [[a|e] w2]
    end; exact IH.
  - unfold bind at 1. specialize (IH w).
    destruct (expel_random random_oracle rest w) as [[a|e] w2]; exact IH.
Qed.

Lemma expel_frame random_oracle tcid (r : ref) xps (mode : Z) (w : world)
    (r' : ref) (w1 : world) :
  _expel random_oracle tcid r xps mode w = (Ok r', w1) ->
  r' = r /\ exists m', heap w1 = <[r := m']> (heap w).
Proof.
  unfold _expel. unfold bind at 1, load. unfold bind at 1.
  repeat case_decide.
  - unfold lift. destruct (expel_no_flow tcid xps 0 _) as [m'|e]; [|discriminate].
    cbn. intros Hrun. injection Hrun as <- <-. eauto.
  - pose proof (expel_inverse_flow_heap random_oracle tcid xps
                  (default [] (heap w !! r)) 0 w) as Hheap.
    destruct (expel_inverse_flow random_oracle tcid xps 0 _ w) as [[m'|e] w2];
      [|discriminate].
    cbn in Hheap |- *. intros Hrun. injection Hrun as <- <-. cbn. rewrite Hheap. eauto.
  - pose proof (expel_random_heap random_oracle (default [] (heap w !! r)) w) as Hheap.
    destruct (expel_random random_oracle _ w) as [[m'|e] w2]; [|discriminate].
    cbn in Hheap |- *. intros Hrun. injection Hrun as <- <-. cbn. rewrite Hheap. eauto.
  - cbn. intros Hrun. injection Hrun as <- <-. eauto.
  - cbn. discriminate.
Qed.

(** ** C1: the explored masks *)

(** C1, amended. In an annealing step of a traffic class with more than
    [num_paths] candidates, in replace mode [next_sorted]: when the mask
    that [_expel] leaves lacks [replace_len > 0] visible paths, has at least
    [replace_len] entries equal to 1, and some combination of [replace_len]
    of them gives a mask that is not bitwise-equal to any explored mask of
    the class, then the step appends a new array to [explored[tc]], leaves
    the explored arrays as they were, and the appended mask is not
    bitwise-equal to any mask already in [explored[tc]]. *)
Theorem anneal_step_appends_fresh_mask
    (choice_oracle : nat -> list nat -> nat -> list nat)
    (random_oracle : nat -> Qc) (fuel : nat) (num_paths expel_mode : Z)
    (pptc_len : gmap Z Z) (optvars : xps_t) (st : sa_state)
    (tc : TrafficClass) (w : world)
    (len : Z) (best : ref) (refs : list ref) (tree : option PathTree)
    (r : ref) (w1 : world) (m1 : ndarray) :
  pptc_len !! ID tc = Some len -> num_paths < len ->
  sa_bestpaths st !! ID tc = Some (Some best) ->
  sa_explored st !! ID tc = Some refs ->
  sa_pathtrees st !! ID tc = Some tree ->
  Forall (fun x => (x < length (heap w))%nat) refs ->
  bind (copy best)
       (fun fresh => _expel random_oracle (ID tc) fresh (Some optvars) expel_mode) w
  = (Ok r, w1) ->
  heap w1 !! r = Some m1 ->
  all_of_length (heap w) (length m1) refs ->
  0 < num_paths - np.count_zero m1 <= Z.of_nat (length (unused_of m1)) ->
  (exists comb m',
     comb ∈ combinations (unused_of m1) (Z.to_nat (num_paths - np.count_zero m1))
     /\ np.put comb 0 m1 = Ok m'
     /\ fresh_for (heap w) m' refs) ->
  exists st' w' m',
    anneal_tc choice_oracle random_oracle fuel num_paths expel_mode
              ReplaceMode_next_sorted pptc_len optvars st tc w = (Ok st', w')
    /\ sa_explored st' !! ID tc = Some (refs ++ [r])
    /\ (r ∉ refs)
    /\ heap w' !! r = Some m'
    /\ (forall x, x ∈ refs -> heap w' !! x = heap w !! x)
    /\ fresh_for (heap w') m' refs.
Proof.
  intros Hlen Hmore Hbest Hrefs Htree Hwf Hexpel Hm1 Hshape Hneed Hex.
  rewrite Forall_forall in Hwf.
  (* the copy and the expulsion *)
  unfold bind at 1, copy in Hexpel. unfold bind at 1, load, alloc in Hexpel.
  set (mb := default [] (heap w !! best)) in Hexpel.
  set (w0 := mkWorld (heap w ++ [mb]) (np_draws w) (py_draws w) (ticks w)
                     (solver_log w)) in Hexpel.
  cbn [fst snd] in Hexpel.
  destruct (expel_frame _ _ _ _ _ _ _ _ Hexpel) as [-> (mx & Hheap1)].
  cbn [heap w0] in Hheap1.
  assert (length (heap w) ∉ refs) as Hr.
  { intros Hin. specialize (Hwf _ Hin). lia. }
  assert (forall x, x ∈ refs -> heap w1 !! x = heap w !! x) as Hagree1.
  { intros x Hx. specialize (Hwf x Hx). rewrite Hheap1.
    rewrite list_lookup_insert_ne by lia. now apply lookup_app_l. }
  (* the replacement *)
  destruct (replace_next_sorted_fresh choice_oracle fuel refs (length (heap w)) m1
              num_paths tree w1 Hr Hm1) as (m' & Hreplace & Hfresh).
  { intros x Hx. rewrite (Hagree1 x Hx). apply Hshape, Hx. }
  { exact Hneed. }
  { destruct Hex as (comb & mc & Hcomb & Hput & Hfreshc).
    exists comb, mc. split; [exact Hcomb|]. split; [exact Hput|].
    now apply (fresh_for_agree (heap w) (heap w1) mc refs Hagree1). }
  set (w2 := set_heap w1 (<[length (heap w) := m']> (heap w1))) in Hreplace.
  assert (heap w2 !! length (heap w) = Some m') as Hm'.
  { unfold w2. cbn [heap set_heap]. apply list_lookup_insert_eq.
    eapply lookup_lt_Some, Hm1. }
  assert (forall x, x ∈ refs -> heap w2 !! x = heap w1 !! x) as Hagree2.
  { intros x Hx. unfold w2. cbn [heap set_heap].
    apply list_lookup_insert_ne. intros <-. contradiction. }
  eexists _, w2, m'. split; [|split; [|split; [exact Hr|split; [exact Hm'|split]]]].
  - unfold anneal_tc. unfold bind at 1, dict_get. rewrite Hlen. unfold ret at 1.
    replace (num_paths >=? len) with false by (symmetry; rewrite Z.geb_leb; apply Z.leb_gt; lia).
    unfold bind at 1. rewrite Hbest. unfold ret at 1.
    unfold bind at 1. unfold ret at 1.
    unfold bind at 1, copy. unfold bind at 1, load, alloc. cbn [fst snd].
    fold mb. fold w0.
    unfold bind at 1. rewrite Hexpel.
    unfold bind at 1. rewrite Hrefs. unfold ret at 1.
    unfold bind at 1. rewrite Htree. unfold ret at 1.
    unfold bind at 1. rewrite Hreplace.
    unfold bind, ret. reflexivity.
  - cbn [sa_explored]. apply lookup_insert_eq.
  - intros x Hx. rewrite (Hagree2 x Hx). apply (Hagree1 x Hx).
  - apply (fresh_for_agree (heap w1) (heap w2) m' refs Hagree2), Hfresh.
Qed.

Lemma anneal_step_appends_fresh_mask_witness :
  exists st' w' m',
    anneal_tc prefix_choice (const_random (Q2Qc 0)) 10 2 ExpelMode_no_flow
              ReplaceMode_next_sorted {[7 := 4]} three_rows one_explored
              (a_tc 7) one_explored_world = (Ok st', w')
    /\ sa_explored st' !! 7 = Some [O; 1%nat]
    /\ heap w' !! 1%nat = Some m'
    /\ fresh_for (heap w') m' [O].
Proof.
  destruct (anneal_step_appends_fresh_mask prefix_choice (const_random (Q2Qc 0))
              10 2 ExpelMode_no_flow {[7 := 4]} three_rows one_explored (a_tc 7)
              one_explored_world 4 O [O] None 1%nat
              (mkWorld [[0; 0; 1; 1]; [0; 1; 1; 1]] 0 0 0 []) [0; 1; 1; 1])
    as (st' & w' & m' & Hrun & Hexp & _ & Hm' & _ & Hfresh).
  - reflexivity.
  - lia.
  - reflexivity.
  - reflexivity.
  - reflexivity.
  - repeat constructor.
  - reflexivity.
  - reflexivity.
  - intros x Hx. apply list_elem_of_singleton in Hx as ->.
    exists [0; 0; 1; 1]. split; reflexivity.
  - vm_compute. split; [reflexivity | discriminate].
  - exists [2%nat], [0; 1; 0; 1]. split; [|split].
    + vm_compute. right. left.
    + reflexivity.
    + intros x mx Hx Hmx. apply list_elem_of_singleton in Hx as ->.
      injection Hmx as <-. reflexivity.
  - exists st', w', m'. auto.
Defined.

(** ** C1, against the claim: a run that explores one mask twice *)

(** C1, against the claim. One traffic class with three candidates,
    [num_paths = 2], [max_iter = 3], modes [no_flow] and [next_sorted], and
    a solver that always succeeds with the same objective and sees flow on
    every visible path. [explored[tc]] starts with the array that
    [k_shortest_paths] returns, [0, 1, 2]. The first annealing step turns a
    copy of it into [0, 0, 2], which is new, and the state is accepted. In
    the second step nothing is expelled, [replace_len] is 0, [_replace]
    returns at once, and the copy [0, 0, 2] of the best mask is appended
    although it is listed already. *)
Lemma select_sa_explores_a_mask_twice :
  exists r w,
    select_sa_run stable_argsort prefix_choice (const_random (Q2Qc 0)) tick_clock
                  easy_solved easy_time easy_objective easy_xps true 10
                  [mkApp three_candidates (Q2Qc 1) []] (a_topology "line" 6)
                  a_config 2 3 (Q2Qc (72 # 100)) (Q2Qc (88 # 100)) WEIGHTED WORST
                  ExpelMode_no_flow ReplaceMode_next_sorted false empty_world
    = (Ok r, w)
    /\ ~ explored_distinct r.2 w.
Proof.
  eexists. eexists. split.
  - vm_compute. reflexivity.
  - intros Hdistinct.
    apply (Hdistinct 7 [O; 1%nat; 2%nat] eq_refl 1%nat 2%nat 1%nat 2%nat
                     [0; 0; 2] [0; 0; 2]);
      [lia | reflexivity ..].
Qed.

(** ** C2: [_replace] in mode [random] *)

(** The loop of mode [random] draws again when the mask is new and stops
    when it is explored. *)
Lemma random_loop_fresh_redraws choice_oracle (tries_left : nat)
    (explored : list ref) (mask : ref) (unused : list nat) (replace_len : Z)
    (comb : list nat) (w : world) :
  _in mask explored w = (Ok false, w) ->
  random_loop choice_oracle (S tries_left) explored mask unused replace_len comb w
  = bind (put_ref mask comb 1)
         (fun _ =>
            bind (np_choice choice_oracle unused replace_len)
                 (fun comb' =>
                    bind (put_ref mask comb' 0)
                         (fun _ => random_loop choice_oracle tries_left explored
                                               mask unused replace_len comb')))
         w.
Proof.
  intros Hnew. cbn [random_loop]. unfold bind at 1. rewrite Hnew. reflexivity.
Qed.

Lemma random_loop_explored_stops choice_oracle (tries_left : nat)
    (explored : list ref) (mask : ref) (unused : list nat) (replace_len : Z)
    (comb : list nat) (w : world) :
  _in mask explored w = (Ok true, w) ->
  random_loop choice_oracle tries_left explored mask unused replace_len comb w
  = (Ok tt, w).
Proof.
  intros Hseen. destruct tries_left; cbn [random_loop]; unfold bind;
    rewrite Hseen; reflexivity.
Qed.

(** C2, on the code. With [num_paths = 2] one index is missing. The
    generator draws index 2 first: the candidate [0, 1, 0] is not explored,
    and the claim accepts it. The loop of the source runs while the mask is
    not explored: it undoes the candidate, draws again (index 1), and stops
    at [0, 0, 1], a mask that is explored, after two draws. *)
Theorem replace_random_redraws_unexplored :
  np.put [2%nat] 0 [0; 1; 1] = Ok [0; 1; 0]
  /\ np.xor_all_zero [0; 1; 0] [0; 0; 1] = Ok false
  /\ _replace (scripted_choice [[2%nat]; [1%nat]]) 0 [O] 1%nat 2
              ReplaceMode_random None explored_and_mask
     = (Ok None, mkWorld [[0; 0; 1]; [0; 0; 1]] 2 0 0 [])
  /\ np.xor_all_zero [0; 0; 1] [0; 0; 1] = Ok true.
Proof. repeat split; vm_compute; reflexivity. Qed.

(** ** The feasibility phase appends the array it was given *)

(** [_expel] works in place and [resample_tc] passes it the last explored
    array without a copy: the reference appended to [explored[tc]] is the
    last reference again. *)
Lemma resample_tc_appends_alias choice_oracle random_oracle (fuel : nat)
    (num_paths replace_mode : Z) (st : sa_state) (tc : TrafficClass)
    (w : world) (st' : sa_state) (w' : world) :
  resample_tc choice_oracle random_oracle fuel num_paths replace_mode st tc w
  = (Ok st', w') ->
  exists refs lastmask,
    sa_explored st !! ID tc = Some refs
    /\ last refs = Some lastmask
    /\ sa_explored st' !! ID tc = Some (refs ++ [lastmask]).
Proof.
  unfold resample_tc. unfold bind at 1, dict_get.
  destruct (sa_explored st !! ID tc) as [refs|] eqn:Hrefs; [|discriminate].
  unfold ret at 1. unfold bind at 1, py_last.
  destruct (last refs) as [lastmask|] eqn:Hlast; [|discriminate].
  unfold ret at 1. unfold bind at 1.
  destruct (_expel random_oracle (ID tc) lastmask None ExpelMode_all w)
    as [[newmask|e] w1] eqn:Hexpel; [|discriminate].
  apply expel_frame in Hexpel as [-> _].
  unfold bind at 1.
  destruct (sa_pathtrees st !! ID tc) as [tree|]; [|discriminate].
  unfold ret at 1. unfold bind at 1.
  destruct (_replace choice_oracle fuel refs lastmask num_paths replace_mode tree w1)
    as [[tree'|e] w2]; [|discriminate].
  unfold ret. intros Hrun. injection Hrun as <- <-.
  exists refs, lastmask. split; [reflexivity|]. split; [exact Hlast|].
  cbn [sa_explored]. apply lookup_insert_eq.
Qed.

(** ** Sorting by length before the loop of [select_iterative] *)

Lemma k_shortest_paths_ok argsort (p : PPTC) (k : Z) (rm : bool) :
  argsort_spec argsort -> 0 <= k ->
  is_ok (k_shortest_paths argsort p k rm) = true.
Proof.
  intros Hspec Hk. induction p as [|e rest IH]; [reflexivity|].
  destruct (k_shortest_paths_tc_spec argsort e k Hspec Hk) as (e' & He & _).
  cbn [k_shortest_paths]. rewrite He. cbn [res_bind].
  destruct (k_shortest_paths argsort rest k rm) as [[rest' inds]|err];
    [reflexivity | discriminate IH].
Qed.

Lemma presort_len_ok argsort (apps : list App) (topo : Topology) (p : PPTC) :
  argsort_spec argsort -> is_ok (presort argsort apps topo p 5 "len") = true.
Proof.
  intros Hspec. unfold presort. rewrite decide_True by reflexivity.
  apply k_shortest_paths_ok; [exact Hspec | lia].
Qed.

(** * More of the module *)

(** ** [_expel]: every mode *)

Lemma expel_no_flow_entries tcid xps (m : ndarray) :
  forall ii m',
    expel_no_flow tcid xps ii m = Ok m' -> Forall2 kept_or_masked m m'.
Proof.
  induction m as [|v rest IH]; intros ii m' Hrun; cbn [expel_no_flow] in Hrun.
  - injection Hrun as <-. constructor.
  - destruct (v =? 0).
    + apply res_bind_ok in Hrun as (row & _ & Hrun1).
      apply res_bind_ok in Hrun1 as (rest' & Hrest & Hrun2).
      injection Hrun2 as <-. constructor; [|eapply IH, Hrest].
      unfold kept_or_masked. destruct (negb (any_flow row)); auto.
    + apply res_bind_ok in Hrun as (rest' & Hrest & Hrun1).
      injection Hrun1 as <-. constructor; [now left | eapply IH, Hrest].
Qed.

Lemma expel_inverse_flow_entries random_oracle tcid xps (m : ndarray) :
  forall ii w m' w',
    expel_inverse_flow random_oracle tcid xps ii m w = (Ok m', w') ->
    Forall2 kept_or_masked m m'.
Proof.
  induction m as [|v rest IH]; intros ii w m' w' Hrun;
    cbn [expel_inverse_flow] in Hrun.
  - injection Hrun as <- _. constructor.
  - destruct (v =? 0).
    + unfold bind at 1, lift in Hrun.
      destruct (xps_row xps tcid ii) as [row|e]; [|discriminate Hrun].
      unfold bind at 1, random_random in Hrun. unfold bind at 1 in Hrun.
      match type of Hrun with
      | context [expel_inverse_flow _ _ _ ?i _ ?w0] =>
          destruct (expel_inverse_flow random_oracle tcid xps i rest w0)
            as [[rest'|e] w2] eqn:Hrest; [|discriminate Hrun]
      end.
      unfold ret in Hrun. injection Hrun as <- _.
      constructor; [|eapply IH, Hrest].
      unfold kept_or_masked.
      match goal with |- context [if ?b then _ else _] => destruct b end; auto.
    + unfold bind at 1 in Hrun.
      destruct (expel_inverse_flow random_oracle tcid xps ii rest w)
        as [[rest'|e] w2] eqn:Hrest; [|discriminate Hrun].
      unfold ret in Hrun. injection Hrun as <- _.
      constructor; [now left | eapply IH, Hrest].
Qed.

Lemma expel_random_entries random_oracle (m : ndarray) :
  forall w m' w',
    expel_random random_oracle m w = (Ok m', w') -> Forall2 kept_or_masked m m'.
Proof.
  induction m as [|v rest IH]; intros w m' w' Hrun; cbn [expel_random] in Hrun.
  - injection Hrun as <- _. constructor.
  - destruct (v =? 0).
    + unfold bind at 1, random_random in Hrun. unfold bind at 1 in Hrun.
      match type of Hrun with
      | context [expel_random _ _ ?w0] =>
          destruct (expel_random random_oracle rest w0)
            as [[rest'|e] w2] eqn:Hrest; [|discriminate Hrun]
      end.
      unfold ret in Hrun. injection Hrun as <- _.
      constructor; [|eapply IH, Hrest].
      unfold kept_or_masked.
      match goal with |- context [if ?b then _ else _] => destruct b end; auto.
    + unfold bind at 1 in Hrun.
      destruct (expel_random random_oracle rest w) as [[rest'|e] w2] eqn:Hrest;
        [|discriminate Hrun].
      unfold ret in Hrun. injection Hrun as <- _.
      constructor; [now left | eapply IH, Hrest].
Qed.

Lemma replicate_kept_or_masked (m : ndarray) :
  Forall2 kept_or_masked m (replicate (length m) 1).
Proof.
  induction m as [|v rest IH]; cbn [length replicate]; constructor;
    [now right | exact IH].
Qed.

(** X1. Whatever the mode, the tensor and the random numbers, when [_expel]
    returns it returns the array it was given, has rewritten that array
    only, has kept its length, and every entry either keeps its value or
    becomes 1: a masked path is never made visible. *)
Theorem expel_never_unmasks
    (random_oracle : nat -> Qc) (tcid : Z) (r : ref) (xps : option xps_t)
    (mode : Z) (w : world) (m : ndarray) (r' : ref) (w1 : world) :
  heap w !! r = Some m ->
  _expel random_oracle tcid r xps mode w = (Ok r', w1) ->
  r' = r
  /\ exists m',
       heap w1 = <[r := m']> (heap w)
       /\ Forall2 kept_or_masked m m'
       /\ (forall i v, m !! i = Some v -> v <> 0 ->
                       exists v', m' !! i = Some v' /\ v' <> 0).
Proof.
  intros Hm Hrun.
  assert (r' = r /\ exists m', heap w1 = <[r := m']> (heap w)
                               /\ Forall2 kept_or_masked m m') as (-> & m' & Hheap & Hall).
  { revert Hrun. unfold _expel. unfold bind at 1. rewrite (load_some r w m Hm).
    unfold bind at 1. repeat case_decide.
    - unfold lift. destruct (expel_no_flow tcid xps 0 m) as [m'|e] eqn:Hloop;
        [|discriminate].
      cbn. intros Hrun. injection Hrun as <- <-. split; [reflexivity|].
      exists m'. split; [reflexivity|]. eapply expel_no_flow_entries, Hloop.
    - pose proof (expel_inverse_flow_heap random_oracle tcid xps m 0 w) as Hheap.
      destruct (expel_inverse_flow random_oracle tcid xps 0 m w)
        as [[m'|e] w2] eqn:Hloop; [|discriminate].
      cbn in Hheap |- *. intros Hrun. injection Hrun as <- <-.
      split; [reflexivity|]. exists m'. cbn. rewrite Hheap.
      split; [reflexivity|]. eapply expel_inverse_flow_entries, Hloop.
    - pose proof (expel_random_heap random_oracle m w) as Hheap.
      destruct (expel_random random_oracle m w) as [[m'|e] w2] eqn:Hloop;
        [|discriminate].
      cbn in Hheap |- *. intros Hrun. injection Hrun as <- <-.
      split; [reflexivity|]. exists m'. cbn. rewrite Hheap.
      split; [reflexivity|]. eapply expel_random_entries, Hloop.
    - cbn. intros Hrun. injection Hrun as <- <-. split; [reflexivity|].
      exists (np.fill 1 m). split; [reflexivity|]. apply replicate_kept_or_masked.
    - cbn. discriminate. }
  split; [reflexivity|]. exists m'. split; [exact Hheap|]. split; [exact Hall|].
  intros i v Hv Hv0.
  destruct (Forall2_lookup_l _ _ _ _ _ Hall Hv) as (v' & Hv' & [->| ->]).
  - exists v. auto.
  - exists 1. split; [exact Hv' | lia].
Qed.

Lemma expel_never_unmasks_witness :
  exists m',
    <[O := m']> [[0; 2; 0]] = [[1; 2; 1]]
    /\ Forall2 kept_or_masked [0; 2; 0] m'.
Proof.
  destruct (expel_never_unmasks (const_random (Q2Qc 0)) 7 O None ExpelMode_random
              (mkWorld [[0; 2; 0]] 0 0 0 []) [0; 2; 0] O
              (mkWorld [[1; 2; 1]] 0 2 0 []))
    as (_ & m' & Hheap & Hall & _).
  - reflexivity.
  - reflexivity.
  - exists m'. split; [symmetry; exact Hheap | exact Hall].
Defined.

(** X2. A mode that is none of [no_flow], [inverse_flow], [random] and
    [all] makes [_expel] raise [ValueError]; the mask and the generators are
    left as they were. *)
Theorem expel_unknown_mode
    (random_oracle : nat -> Qc) (tcid : Z) (r : ref) (xps : option xps_t)
    (mode : Z) (w : world) :
  mode <> ExpelMode_no_flow -> mode <> ExpelMode_inverse_flow ->
  mode <> ExpelMode_random -> mode <> ExpelMode_all ->
  exists msg,
    _expel random_oracle tcid r xps mode w = (Raise (ValueError msg), w).
Proof.
  intros H1 H2 H3 H4. unfold _expel, bind, load.
  rewrite !decide_False by assumption. eexists. reflexivity.
Qed.

Lemma expel_unknown_mode_witness :
  exists msg,
    _expel (const_random (Q2Qc 0)) 7 O None 5 (mkWorld [[0; 1]] 0 0 0 [])
    = (Raise (ValueError msg), mkWorld [[0; 1]] 0 0 0 []).
Proof.
  apply expel_unknown_mode; discriminate.
Defined.

(** ** [_replace]: what comes before the modes *)

(** X3. [_replace] looks at the mode only when paths are missing and enough
    unused ones remain. With [num_paths] visible paths or more it returns
    with nothing changed, and with fewer unused entries than missing paths
    it makes every path visible; both whatever the mode, a value that is no
    mode included. *)
Theorem replace_early_returns
    (choice_oracle : nat -> list nat -> nat -> list nat) (fuel : nat)
    (explored : list ref) (mask : ref) (num_paths mode : Z)
    (tree : option PathTree) (w : world) (m : ndarray) :
  heap w !! mask = Some m ->
  (num_paths <= np.count_zero m ->
   _replace choice_oracle fuel explored mask num_paths mode tree w = (Ok tree, w))
  /\ (np.count_zero m < num_paths ->
      Z.of_nat (length (unused_of m)) < num_paths - np.count_zero m ->
      _replace choice_oracle fuel explored mask num_paths mode tree w
      = (Ok tree, set_heap w (<[mask := replicate (length m) 0]> (heap w)))).
Proof.
  intros Hm. split.
  - intros Hfull. unfold _replace. unfold bind at 1.
    rewrite (load_some mask w m Hm).
    destruct (Z.leb_spec (Z.max 0 (num_paths - np.count_zero m)) 0) as [_|Hgt];
      [reflexivity | lia].
  - intros Hmissing Hfew. unfold _replace. unfold bind at 1.
    rewrite (load_some mask w m Hm). rewrite Z.max_r by lia.
    destruct (Z.leb_spec (num_paths - np.count_zero m) 0) as [Hle|_]; [lia|].
    destruct (Z.ltb_spec (Z.of_nat (length (unused_of m)))
                         (num_paths - np.count_zero m)) as [_|Hge]; [|lia].
    reflexivity.
Qed.

Lemma replace_early_returns_witness :
  _replace prefix_choice 0 [] O 1 99 None (mkWorld [[0; 0; 1]] 0 0 0 [])
  = (Ok None, mkWorld [[0; 0; 1]] 0 0 0 []).
Proof.
  destruct (replace_early_returns prefix_choice 0 [] O 1 99 None
              (mkWorld [[0; 0; 1]] 0 0 0 []) [0; 0; 1] eq_refl) as [Hfull _].
  apply Hfull. vm_compute. discriminate.
Defined.

(** X4. When paths are missing and enough unused ones remain, a mode other
    than [next_sorted], [random] and [pathtree] makes [_replace] raise
    [ValueError] with nothing changed; [ReplaceMode.pathscore] is such a
    mode. *)
Theorem replace_unknown_mode
    (choice_oracle : nat -> list nat -> nat -> list nat) (fuel : nat)
    (explored : list ref) (mask : ref) (num_paths mode : Z)
    (tree : option PathTree) (w : world) (m : ndarray) :
  heap w !! mask = Some m ->
  0 < num_paths - np.count_zero m <= Z.of_nat (length (unused_of m)) ->
  mode <> ReplaceMode_next_sorted -> mode <> ReplaceMode_random ->
  mode <> ReplaceMode_pathtree ->
  (exists msg,
     _replace choice_oracle fuel explored mask num_paths mode tree w
     = (Raise (ValueError msg), w))
  /\ ReplaceMode_pathscore <> ReplaceMode_next_sorted
  /\ ReplaceMode_pathscore <> ReplaceMode_random
  /\ ReplaceMode_pathscore <> ReplaceMode_pathtree.
Proof.
  intros Hm Hneed H1 H2 H3. split; [|repeat split; discriminate].
  unfold _replace. unfold bind at 1. rewrite (load_some mask w m Hm).
  rewrite Z.max_r by lia.
  destruct (Z.leb_spec (num_paths - np.count_zero m) 0) as [Hle|_]; [lia|].
  destruct (Z.ltb_spec (Z.of_nat (length (unused_of m)))
                       (num_paths - np.count_zero m)) as [Hlt|_]; [lia|].
  rewrite !decide_False by assumption. eexists. reflexivity.
Qed.

Lemma replace_unknown_mode_witness :
  exists msg,
    _replace prefix_choice 0 [] O 2 ReplaceMode_pathscore None
             (mkWorld [[0; 1; 1]] 0 0 0 [])
    = (Raise (ValueError msg), mkWorld [[0; 1; 1]] 0 0 0 []).
Proof.
  apply (replace_unknown_mode prefix_choice 0 [] O 2 ReplaceMode_pathscore None
           (mkWorld [[0; 1; 1]] 0 0 0 []) [0; 1; 1] eq_refl).
  - vm_compute. split; [reflexivity | discriminate].
  - discriminate.
  - discriminate.
  - discriminate.
Defined.

(** ** [_in]: membership up to bitwise equality *)

Lemma same_bits_eq (a : ndarray) :
  forall b : ndarray,
    length a = length b ->
    forallb (fun xy : Z * Z => Z.lxor xy.1 xy.2 =? 0) (zip a b) = true <-> a = b.
Proof.
  induction a as [|x a IH]; intros [|y b] Hlen; try discriminate Hlen.
  - split; reflexivity.
  - cbn [zip zip_with forallb fst snd]. rewrite andb_true_iff, Z.eqb_eq.
    rewrite (IH b) by (cbn [length] in Hlen; lia). split.
    + intros [Hx ->]. apply Z.lxor_eq in Hx. now subst.
    + intros Heq. injection Heq as -> ->. split; [apply Z.lxor_nilpotent | reflexivity].
Qed.

Lemma xor_all_zero_eq (a b : ndarray) :
  length a = length b -> np.xor_all_zero a b = Ok true <-> a = b.
Proof.
  intros Hlen. unfold np.xor_all_zero. rewrite decide_True by exact Hlen.
  rewrite <- (same_bits_eq a b Hlen). split.
  - intros Heq. now injection Heq.
  - intros ->. reflexivity.
Qed.

(** X5. On arrays of one length, [_in(mask, explored)] answers [True]
    exactly when one of the explored arrays holds the same values as the
    mask, entry by entry, and it changes nothing. *)
Theorem in_iff_listed (mask : ref) (m : ndarray) (explored : list ref) (w : world) :
  heap w !! mask = Some m ->
  all_of_length (heap w) (length m) explored ->
  exists seen,
    _in mask explored w = (Ok seen, w)
    /\ (seen = true <-> exists x, x ∈ explored /\ heap w !! x = Some m).
Proof.
  intros Hm. induction explored as [|x rest IH]; intros Hshape.
  - exists false. split; [reflexivity|]. split; [discriminate|].
    intros (x & Hx & _). apply elem_of_nil in Hx. contradiction.
  - destruct (Hshape x ltac:(left)) as (mx & Hx & Hlen).
    destruct (xor_all_zero_total m mx (eq_sym Hlen)) as [s Hs].
    destruct IH as (seen & Hrun & Hseen).
    { intros y Hy. apply Hshape. now right. }
    cbn [_in]. unfold bind. rewrite (load_some mask w m Hm), (load_some x w mx Hx).
    unfold lift. rewrite Hs. destruct s.
    + exists true. split; [reflexivity|]. split; [|reflexivity].
      intros _. exists x. split; [left|].
      apply xor_all_zero_eq in Hs; [|now symmetry]. now subst.
    + exists seen. split; [exact Hrun|]. rewrite Hseen. split.
      * intros (y & Hy & Hmy). exists y. split; [now right | exact Hmy].
      * intros (y & Hy & Hmy). apply elem_of_cons in Hy as [->|Hy].
        -- exfalso. rewrite Hx in Hmy. injection Hmy as ->.
           assert (np.xor_all_zero m m = Ok true) as Hsame
             by (now apply xor_all_zero_eq).
           congruence.
        -- exists y. auto.
Qed.

Lemma in_iff_listed_witness :
  exists seen,
    _in 2%nat [O; 1%nat] (mkWorld [[0; 1]; [1; 0]; [1; 0]] 0 0 0 [])
    = (Ok seen, mkWorld [[0; 1]; [1; 0]; [1; 0]] 0 0 0 [])
    /\ (seen = true
        <-> exists x, x ∈ [O; 1%nat]
                      /\ heap (mkWorld [[0; 1]; [1; 0]; [1; 0]] 0 0 0 []) !! x
                         = Some [1; 0]).
Proof.
  apply (in_iff_listed 2%nat [1; 0] [O; 1%nat]
           (mkWorld [[0; 1]; [1; 0]; [1; 0]] 0 0 0 [])).
  - reflexivity.
  - intros x Hx. apply elem_of_cons in Hx as [->|Hx].
    + exists [0; 1]. split; reflexivity.
    + apply list_elem_of_singleton in Hx as ->. exists [1; 0]. split; reflexivity.
Defined.

(** ** [_replace]: the number of visible paths *)

Lemma unused_of_NoDup (m : ndarray) : NoDup (unused_of m).
Proof. apply NoDup_filter, NoDup_seq. Qed.

Lemma combinations_length {A} (l : list A) (k : nat) (comb : list A) :
  comb ∈ combinations l k -> length comb = k.
Proof.
  revert k comb. induction l as [|x rest IH]; intros [|k] comb Hin;
    cbn [combinations] in Hin.
  - apply list_elem_of_singleton in Hin as ->. reflexivity.
  - apply elem_of_nil in Hin. contradiction.
  - apply list_elem_of_singleton in Hin as ->. reflexivity.
  - apply elem_of_app in Hin as [Hin|Hin].
    + apply list_elem_of_fmap in Hin as (c & -> & Hc).
      cbn [length]. f_equal. apply (IH k c Hc).
    + apply (IH (S k) comb Hin).
Qed.

(** Making [length idxs] masked entries visible adds that many zeros. *)
Lemma put_zero_count (idxs : list nat) (m m' : ndarray) :
  NoDup idxs -> (forall i, i ∈ idxs -> m !! i = Some 1) ->
  np.put idxs 0 m = Ok m' ->
  length m' = length m
  /\ np.count_zero m' = np.count_zero m + Z.of_nat (length idxs)
  /\ (forall i v, m !! i = Some v -> v <> 1 -> m' !! i = Some v).
Proof.
  intros Hnd Hones Hput.
  destruct (put_spec idxs 0 m) as (m'' & Hput' & Hlen & Hlook).
  { apply Forall_forall. intros i Hi. eapply lookup_lt_Some, Hones, Hi. }
  rewrite Hput in Hput'. injection Hput' as <-.
  split; [exact Hlen|]. split.
  - rewrite !count_zero_positions, Hlen, <- Nat2Z.inj_add, <- length_app.
    f_equal. apply Permutation_length, NoDup_Permutation.
    + apply NoDup_filter, NoDup_seq.
    + apply NoDup_app. split; [apply NoDup_filter, NoDup_seq|]. split; [|exact Hnd].
      intros i Hi Hi'. apply list_elem_of_filter in Hi as [Hi _].
      rewrite (Hones i Hi') in Hi. discriminate Hi.
    + intros i. rewrite elem_of_app, !list_elem_of_filter, elem_of_seq, Hlook.
      destruct (decide (i ∈ idxs)) as [Hin|Hnin].
      * split; [now right|]. intros _. split; [reflexivity|].
        apply Hones, lookup_lt_Some in Hin. lia.
      * split; [now left|]. intros [Hi|Hi]; [exact Hi | contradiction].
  - intros i v Hv Hv1. rewrite Hlook, decide_False; [exact Hv|].
    intros Hin. rewrite (Hones i Hin) in Hv. congruence.
Qed.

(** The walk of mode [next_sorted], whatever the explored arrays: it stops
    at a combination and leaves its mask, or it restores the mask and tells
    that it found none. *)
Lemma next_sorted_loop_spec (explored : list ref) (mask : ref) (m1 : ndarray) :
  forall (combs : list (list nat)) (w : world),
    heap w !! mask = Some m1 ->
    all_of_length (heap w) (length m1) explored ->
    (forall comb, comb ∈ combs -> forall i, i ∈ comb -> m1 !! i = Some 1) ->
    (exists comb m',
       comb ∈ combs /\ np.put comb 0 m1 = Ok m'
       /\ next_sorted_loop explored mask combs w
          = (Ok true, set_heap w (<[mask := m']> (heap w))))
    \/ next_sorted_loop explored mask combs w = (Ok false, w).
Proof.
  induction combs as [|comb rest IH]; intros w Hm1 Hshape Hones.
  - right. reflexivity.
  - destruct (put_restore comb m1 (Hones comb ltac:(left)))
      as (m' & Hput & Hlen & Hback).
    assert (mask < length (heap w))%nat as Hbound by (eapply lookup_lt_Some, Hm1).
    set (w1 := set_heap w (<[mask := m']> (heap w))).
    assert (heap w1 !! mask = Some m') as Hm'.
    { unfold w1. cbn [heap set_heap]. now apply list_lookup_insert_eq. }
    destruct (_in_spec mask m' explored w1 Hm') as (seen & Hin & _).
    { intros x Hx. destruct (decide (x = mask)) as [->|Hne].
      - exists m'. split; [exact Hm' | reflexivity].
      - unfold w1. cbn [heap set_heap]. rewrite list_lookup_insert_ne by congruence.
        rewrite Hlen. apply Hshape, Hx. }
    assert (next_sorted_loop explored mask (comb :: rest) w
            = if seen then next_sorted_loop explored mask rest w
              else (Ok true, w1)) as Hstep.
    { cbn [next_sorted_loop]. unfold bind at 1.
      rewrite (put_ref_some mask comb 0 w m1 m' Hm1 Hput). fold w1.
      unfold bind at 1. rewrite Hin. destruct seen; cbn [negb]; [|reflexivity].
      unfold bind. rewrite (put_ref_some mask comb 1 w1 m' m1 Hm' Hback).
      unfold w1, set_heap. cbn [heap np_draws py_draws ticks solver_log].
      rewrite list_insert_insert_eq, (list_insert_id _ _ _ Hm1).
      destruct w; reflexivity. }
    rewrite Hstep. destruct seen.
    + destruct (IH w Hm1 Hshape) as [(c & mc & Hc & Hputc & Hrun)|Hrun].
      { intros c Hc. apply Hones. now right. }
      * left. exists c, mc. split; [now right|]. auto.
      * right. exact Hrun.
    + left. exists comb, m'. split; [left|]. auto.
Qed.

(** X6. In mode [next_sorted], with a generator that returns distinct
    members of the population, when [replace_len > 0] paths are missing and
    at least as many entries are 1, [_replace] returns, rewrites the mask
    only, changes only entries that were 1, and leaves exactly [num_paths]
    visible paths; it draws at most once from the generator. *)
Theorem replace_next_sorted_fills
    (choice_oracle : nat -> list nat -> nat -> list nat) (fuel : nat)
    (explored : list ref) (mask : ref) (m1 : ndarray) (num_paths : Z)
    (tree : option PathTree) (w : world) :
  choice_spec choice_oracle ->
  heap w !! mask = Some m1 ->
  all_of_length (heap w) (length m1) explored ->
  0 < num_paths - np.count_zero m1 <= Z.of_nat (length (unused_of m1)) ->
  exists m' w',
    _replace choice_oracle fuel explored mask num_paths ReplaceMode_next_sorted tree w
    = (Ok tree, w')
    /\ heap w' = <[mask := m']> (heap w)
    /\ length m' = length m1
    /\ np.count_zero m' = num_paths
    /\ (forall i v, m1 !! i = Some v -> v <> 1 -> m' !! i = Some v)
    /\ (np_draws w <= np_draws w' <= S (np_draws w))%nat.
Proof.
  intros Hspec Hm1 Hshape Hneed.
  set (rl := num_paths - np.count_zero m1) in *.
  assert (forall comb, comb ∈ combinations (unused_of m1) (Z.to_nat rl) ->
                       forall i, i ∈ comb -> m1 !! i = Some 1) as Hones.
  { intros comb Hcomb i Hi. apply unused_of_lookup.
    apply combinations_sublist in Hcomb.
    eapply sublist_subseteq; [exact Hcomb | exact Hi]. }
  assert (_replace choice_oracle fuel explored mask num_paths
                   ReplaceMode_next_sorted tree w
          = bind (next_sorted_loop explored mask
                      (combinations (unused_of m1) (Z.to_nat rl)))
                   (fun found_new =>
                      if negb found_new then
                        bind (np_choice choice_oracle (unused_of m1) rl)
                             (fun comb => bind (put_ref mask comb 0)
                                               (fun _ => ret tree))
                      else ret tree) w) as Hunfold.
  { unfold _replace. unfold bind at 1.
    rewrite (load_some mask w m1 Hm1). fold rl. rewrite Z.max_r by lia.
    destruct (Z.leb_spec rl 0) as [Hle|_]; [lia|].
    destruct (Z.ltb_spec (Z.of_nat (length (unused_of m1))) rl) as [Hlt|_]; [lia|].
    rewrite decide_True by reflexivity. reflexivity. }
  rewrite Hunfold. clear Hunfold.
  destruct (next_sorted_loop_spec explored mask m1 _ w Hm1 Hshape Hones)
    as [(comb & m' & Hcomb & Hput & Hrun)|Hrun].
  - destruct (put_zero_count comb m1 m') as (Hlen & Hcount & Hkeep).
    { eapply sublist_NoDup; [apply unused_of_NoDup|].
      eapply combinations_sublist, Hcomb. }
    { apply Hones, Hcomb. }
    { exact Hput. }
    exists m', (set_heap w (<[mask := m']> (heap w))).
    split; [unfold bind; rewrite Hrun; reflexivity|].
    split; [reflexivity|]. split; [exact Hlen|].
    split; [rewrite Hcount, (combinations_length _ _ _ Hcomb); lia|].
    split; [exact Hkeep|]. cbn [np_draws set_heap]. lia.
  - set (draw := choice_oracle (np_draws w) (unused_of m1) (Z.to_nat rl)).
    destruct (Hspec (np_draws w) (unused_of m1) (Z.to_nat rl))
      as (Hlen_draw & Hnd & Hsub); [apply unused_of_NoDup | lia |].
    fold draw in Hlen_draw, Hnd, Hsub.
    assert (forall i, i ∈ draw -> m1 !! i = Some 1) as Hones_draw.
    { intros i Hi. apply unused_of_lookup, Hsub, Hi. }
    destruct (put_restore draw m1 Hones_draw) as (m' & Hput & _ & _).
    destruct (put_zero_count draw m1 m' Hnd Hones_draw Hput)
      as (Hlen & Hcount & Hkeep).
    set (w1 := mkWorld (heap w) (S (np_draws w)) (py_draws w) (ticks w)
                       (solver_log w)).
    exists m', (set_heap w1 (<[mask := m']> (heap w))).
    split.
    + unfold bind at 1. rewrite Hrun. cbn [negb].
      unfold bind at 1, np_choice. rewrite decide_True.
      * fold draw. fold w1. unfold bind at 1.
        rewrite (put_ref_some mask draw 0 w1 m1 m' Hm1 Hput). reflexivity.
      * split; [|lia]. intros Hnil. rewrite Hnil in Hneed. cbn [length] in Hneed. lia.
    + split; [reflexivity|]. split; [exact Hlen|].
      split; [rewrite Hcount, Hlen_draw; lia|].
      split; [exact Hkeep|]. cbn [np_draws set_heap w1]. lia.
Qed.

Lemma replace_next_sorted_fills_witness :
  exists m' w',
    _replace prefix_choice 0 [O] 1%nat 2 ReplaceMode_next_sorted None
             (mkWorld [[0; 0; 1; 1]; [0; 1; 1; 1]] 0 0 0 [])
    = (Ok None, w')
    /\ heap w' = <[1%nat := m']> [[0; 0; 1; 1]; [0; 1; 1; 1]]
    /\ np.count_zero m' = 2.
Proof.
  destruct (replace_next_sorted_fills prefix_choice 0 [O] 1%nat [0; 1; 1; 1] 2 None
              (mkWorld [[0; 0; 1; 1]; [0; 1; 1; 1]] 0 0 0 []))
    as (m' & w' & Hrun & Hheap & _ & Hcount & _).
  - exact scripted_choice_nil_spec.
  - reflexivity.
  - intros x Hx. apply list_elem_of_singleton in Hx as ->.
    exists [0; 0; 1; 1]. split; reflexivity.
  - vm_compute. split; [reflexivity | discriminate].
  - exists m', w'. auto.
Defined.

(** ** The feasibility phase in mode [next_sorted] *)

Lemma in_self (mask : ref) (m : ndarray) (explored : list ref) (w : world) :
  heap w !! mask = Some m ->
  all_of_length (heap w) (length m) explored ->
  mask ∈ explored ->
  _in mask explored w = (Ok true, w).
Proof.
  intros Hm Hshape Hin.
  destruct (_in_spec mask m explored w Hm Hshape) as (seen & Hrun & Hseen).
  destruct seen; [exact Hrun|]. exfalso.
  assert (np.xor_all_zero m m = Ok false) as Hfalse
    by (apply (proj1 Hseen eq_refl mask m Hin Hm)).
  assert (np.xor_all_zero m m = Ok true) as Htrue by (now apply xor_all_zero_eq).
  congruence.
Qed.

(** When the mask is one of the explored arrays, every candidate is found
    explored and the walk ends with the mask restored. *)
Lemma next_sorted_loop_listed (explored : list ref) (mask : ref) (m1 : ndarray) :
  mask ∈ explored ->
  forall (combs : list (list nat)) (w : world),
    heap w !! mask = Some m1 ->
    all_of_length (heap w) (length m1) explored ->
    (forall comb, comb ∈ combs -> forall i, i ∈ comb -> m1 !! i = Some 1) ->
    next_sorted_loop explored mask combs w = (Ok false, w).
Proof.
  intros Hlisted. induction combs as [|comb rest IH]; intros w Hm1 Hshape Hones;
    [reflexivity|].
  destruct (put_restore comb m1 (Hones comb ltac:(left)))
    as (m' & Hput & Hlen & Hback).
  assert (mask < length (heap w))%nat as Hbound by (eapply lookup_lt_Some, Hm1).
  set (w1 := set_heap w (<[mask := m']> (heap w))).
  assert (heap w1 !! mask = Some m') as Hm'.
  { unfold w1. cbn [heap set_heap]. now apply list_lookup_insert_eq. }
  assert (_in mask explored w1 = (Ok true, w1)) as Hin.
  { apply (in_self mask m'); [exact Hm' | | exact Hlisted].
    intros x Hx. destruct (decide (x = mask)) as [->|Hne].
    - exists m'. split; [exact Hm' | reflexivity].
    - unfold w1. cbn [heap set_heap]. rewrite list_lookup_insert_ne by congruence.
      rewrite Hlen. apply Hshape, Hx. }
  cbn [next_sorted_loop]. unfold bind at 1.
  rewrite (put_ref_some mask comb 0 w m1 m' Hm1 Hput). fold w1.
  unfold bind at 1. rewrite Hin. cbn [negb].
  unfold bind. rewrite (put_ref_some mask comb 1 w1 m' m1 Hm' Hback).
  replace (set_heap w1 (<[mask := m1]> (heap w1))) with w.
  - apply IH; [exact Hm1 | exact Hshape |]. intros c Hc. apply Hones. now right.
  - unfold w1, set_heap. cbn [heap np_draws py_draws ticks solver_log].
    rewrite list_insert_insert_eq, (list_insert_id _ _ _ Hm1).
    destruct w; reflexivity.
Qed.

Lemma filter_all {A} (P : A -> Prop) `{forall x, Decision (P x)} (l : list A) :
  (forall x, x ∈ l -> P x) -> filter P l = l.
Proof.
  induction l as [|x rest IH]; intros Hall; [reflexivity|].
  rewrite filter_cons, decide_True by (apply Hall; left).
  f_equal. apply IH. intros y Hy. apply Hall. now right.
Qed.

Lemma unused_of_ones (n : nat) : unused_of (replicate n 1) = seq 0 n.
Proof.
  unfold unused_of. rewrite length_replicate. apply filter_all.
  intros i Hi. apply elem_of_seq in Hi. apply lookup_replicate_2. lia.
Qed.

Lemma count_zero_ones (n : nat) : np.count_zero (replicate n 1) = 0.
Proof.
  unfold np.count_zero. rewrite filter_none; [reflexivity|].
  intros v Hv. apply elem_of_replicate in Hv as [-> _]. discriminate.
Qed.

Lemma resample_tc_next_sorted_run
    (choice_oracle : nat -> list nat -> nat -> list nat)
    (random_oracle : nat -> Qc) (fuel : nat) (num_paths : Z) (st : sa_state)
    (tc : TrafficClass) (w : world) (refs : list ref) (r : ref) (m : ndarray)
    (tree : option PathTree) :
  choice_spec choice_oracle ->
  sa_explored st !! ID tc = Some refs ->
  last refs = Some r ->
  sa_pathtrees st !! ID tc = Some tree ->
  heap w !! r = Some m ->
  all_of_length (heap w) (length m) refs ->
  0 < num_paths <= Z.of_nat (length m) ->
  exists m',
    rand_mask (length m)
              (choice_oracle (np_draws w) (np.arange (length m)) (Z.to_nat num_paths))
    = Ok m'
    /\ resample_tc choice_oracle random_oracle fuel num_paths
                   ReplaceMode_next_sorted st tc w
       = (Ok (mkSA (<[ID tc := refs ++ [r]]> (sa_explored st))
                   (<[ID tc := tree]> (sa_pathtrees st))
                   (sa_bestpaths st) (sa_pptc st)),
          mkWorld (<[r := m']> (heap w)) (S (np_draws w)) (py_draws w)
                  (ticks w) (solver_log w)).
Proof.
  intros Hspec Hrefs Hlast Htree Hm Hshape Hk.
  set (n := length m).
  set (draw := choice_oracle (np_draws w) (np.arange n) (Z.to_nat num_paths)).
  destruct (Hspec (np_draws w) (np.arange n) (Z.to_nat num_paths))
    as (Hlen_draw & Hnd & Hsub).
  { apply NoDup_seq. }
  { unfold np.arange. rewrite length_seq. lia. }
  fold draw in Hlen_draw, Hnd, Hsub.
  destruct (rand_mask_spec n draw Hnd Hsub) as (m' & Hm' & _).
  exists m'. split; [exact Hm'|].
  assert (r ∈ refs) as Hr.
  { apply last_Some in Hlast as [l' ->]. apply elem_of_app. right. left. }
  assert (r < length (heap w))%nat as Hbound by (eapply lookup_lt_Some, Hm).
  set (w1 := set_heap w (<[r := replicate n 1]> (heap w))).
  assert (heap w1 !! r = Some (replicate n 1)) as Hones.
  { unfold w1. cbn [heap set_heap]. now apply list_lookup_insert_eq. }
  assert (all_of_length (heap w1) (length (replicate n 1)) refs) as Hshape1.
  { rewrite length_replicate. intros x Hx. destruct (decide (x = r)) as [->|Hne].
    - exists (replicate n 1). split; [exact Hones | apply length_replicate].
    - unfold w1. cbn [heap set_heap]. rewrite list_lookup_insert_ne by congruence.
      apply Hshape, Hx. }
  unfold resample_tc. unfold bind at 1, dict_get. rewrite Hrefs. unfold ret at 1.
  unfold bind at 1, py_last. rewrite Hlast. unfold ret at 1.
  unfold bind at 1.
  assert (_expel random_oracle (ID tc) r None ExpelMode_all w = (Ok r, w1)) as Hexpel.
  { unfold _expel. unfold bind at 1. rewrite (load_some r w m Hm).
    unfold bind at 1. reflexivity. }
  rewrite Hexpel. unfold bind at 1. rewrite Htree. unfold ret at 1.
  unfold bind at 1.
  assert (_replace choice_oracle fuel refs r num_paths ReplaceMode_next_sorted tree w1
          = (Ok tree,
             mkWorld (<[r := m']> (heap w)) (S (np_draws w)) (py_draws w)
                     (ticks w) (solver_log w))) as Hreplace.
  { unfold _replace. unfold bind at 1. rewrite (load_some r w1 _ Hones).
    rewrite count_zero_ones, unused_of_ones, length_seq, Z.sub_0_r.
    rewrite Z.max_r by lia.
    destruct (Z.leb_spec num_paths 0) as [Hle|_]; [lia|].
    destruct (Z.ltb_spec (Z.of_nat n) num_paths) as [Hlt|_]; [lia|].
    rewrite decide_True by reflexivity.
    unfold bind at 1.
    rewrite (next_sorted_loop_listed refs r (replicate n 1) Hr _ w1 Hones Hshape1).
    - cbn [negb]. unfold bind at 1, np_choice. rewrite decide_True.
      + unfold bind at 1.
        change (choice_oracle (np_draws w1) (seq 0 n) (Z.to_nat num_paths)) with draw.
        match goal with
        | |- context [put_ref r draw 0 ?w0] =>
            rewrite (put_ref_some r draw 0 w0 (replicate n 1) m' Hones Hm')
        end.
        unfold ret, set_heap, w1.
        cbn [heap np_draws py_draws ticks solver_log set_heap].
        now rewrite list_insert_insert_eq.
      + rewrite length_seq. split; [|unfold n; lia].
        intros Hnil. apply (f_equal length) in Hnil.
        rewrite length_seq in Hnil. cbn [length] in Hnil. unfold n in Hnil. lia.
    - intros comb Hcomb i Hi. apply combinations_sublist in Hcomb.
      apply lookup_replicate_2.
      assert (i ∈ seq 0 n) as Hi' by (eapply sublist_subseteq; eassumption).
      apply elem_of_seq in Hi'. lia. }
  rewrite Hreplace. reflexivity.
Qed.

(** X7. In the feasibility phase [_replace] receives, as its mask, the last
    explored array itself. In mode [next_sorted] every combination is then
    found explored, and the new mask is the one of [choose_rand]: ones,
    with zeros at [num_paths] indices drawn from all the candidates. The
    array is appended to [explored[tc]] again, one number is drawn, and the
    masks of the container are not touched. *)
Theorem resample_next_sorted_is_random
    (choice_oracle : nat -> list nat -> nat -> list nat)
    (random_oracle : nat -> Qc) (fuel : nat) (num_paths : Z) (st : sa_state)
    (tc : TrafficClass) (w : world) (refs : list ref) (r : ref) (m : ndarray)
    (tree : option PathTree) :
  choice_spec choice_oracle ->
  sa_explored st !! ID tc = Some refs ->
  last refs = Some r ->
  sa_pathtrees st !! ID tc = Some tree ->
  heap w !! r = Some m ->
  all_of_length (heap w) (length m) refs ->
  0 < num_paths <= Z.of_nat (length m) ->
  exists m',
    rand_mask (length m)
              (choice_oracle (np_draws w) (np.arange (length m)) (Z.to_nat num_paths))
    = Ok m'
    /\ resample_tc choice_oracle random_oracle fuel num_paths
                   ReplaceMode_next_sorted st tc w
       = (Ok (mkSA (<[ID tc := refs ++ [r]]> (sa_explored st))
                   (<[ID tc := tree]> (sa_pathtrees st))
                   (sa_bestpaths st) (sa_pptc st)),
          mkWorld (<[r := m']> (heap w)) (S (np_draws w)) (py_draws w)
                  (ticks w) (solver_log w)).
Proof. apply resample_tc_next_sorted_run. Qed.

Lemma resample_next_sorted_is_random_witness :
  exists m',
    rand_mask 3 (prefix_choice O (np.arange 3) 2) = Ok m'
    /\ resample_tc prefix_choice (const_random (Q2Qc 0)) 0 2 ReplaceMode_next_sorted
                   (mkSA {[7 := [O]]} {[7 := None]} {[7 := None]} three_candidates)
                   (a_tc 7) (mkWorld [[0; 1; 2]] 0 0 0 [])
       = (Ok (mkSA (<[7 := [O; O]]> {[7 := [O]]}) (<[7 := None]> {[7 := None]})
                   {[7 := None]} three_candidates),
          mkWorld (<[O := m']> [[0; 1; 2]]) 1 0 0 []).
Proof.
  destruct (resample_next_sorted_is_random prefix_choice (const_random (Q2Qc 0)) 0 2
              (mkSA {[7 := [O]]} {[7 := None]} {[7 := None]} three_candidates)
              (a_tc 7) (mkWorld [[0; 1; 2]] 0 0 0 []) [O] O [0; 1; 2] None)
    as (m' & Hmask & Hrun).
  - exact scripted_choice_nil_spec.
  - reflexivity.
  - reflexivity.
  - reflexivity.
  - reflexivity.
  - intros x Hx. apply list_elem_of_singleton in Hx as ->.
    exists [0; 1; 2]. split; reflexivity.
  - cbn. lia.
  - exists m'. split; [exact Hmask | exact Hrun].
Defined.

(** ** [_replace] in mode [random]: its retries *)

(** The loop of mode [random], entered with a candidate in place: it ends
    with some candidate in place, after at most [tries_left] further draws,
    and when it ends before its tries are used up the candidate is an
    explored one. *)
Lemma random_loop_spec
    (choice_oracle : nat -> list nat -> nat -> list nat)
    (explored : list ref) (mask : ref) (m1 : ndarray) (rl : Z) :
  choice_spec choice_oracle ->
  0 < rl <= Z.of_nat (length (unused_of m1)) ->
  forall (tries_left : nat) (comb : list nat) (w : world) (m' : ndarray),
    heap w !! mask = Some m' ->
    np.put comb 0 m1 = Ok m' ->
    valid_sample (unused_of m1) (Z.to_nat rl) comb ->
    all_of_length (heap w) (length m1) explored ->
    exists comb' m'' w',
      random_loop choice_oracle tries_left explored mask (unused_of m1) rl comb w
      = (Ok tt, w')
      /\ heap w' = <[mask := m'']> (heap w)
      /\ np.put comb' 0 m1 = Ok m''
      /\ valid_sample (unused_of m1) (Z.to_nat rl) comb'
      /\ (np_draws w <= np_draws w' <= np_draws w + tries_left)%nat
      /\ ((np_draws w' < np_draws w + tries_left)%nat ->
          ~ fresh_for (heap w') m'' explored).
Proof.
  intros Hspec Hrl.
  induction tries_left as [|t IH]; intros comb w m' Hm' Hput Hvalid Hshape.
  - assert (length m' = length m1) as Hlen.
    { destruct Hvalid as (_ & Hnd & Hsub).
      apply (put_zero_count comb m1 m' Hnd); [|exact Hput].
      intros i Hi. apply unused_of_lookup, Hsub, Hi. }
    destruct (_in_spec mask m' explored w Hm') as (seen & Hin & _).
    { now rewrite Hlen. }
    exists comb, m', w. split.
    { cbn [random_loop]. unfold bind. rewrite Hin. reflexivity. }
    split; [symmetry; now apply list_insert_id|].
    split; [exact Hput|]. split; [exact Hvalid|]. split; lia.
  - destruct Hvalid as (Hlen_comb & Hnd & Hsub).
    assert (forall i, i ∈ comb -> m1 !! i = Some 1) as Hones.
    { intros i Hi. apply unused_of_lookup, Hsub, Hi. }
    destruct (put_zero_count comb m1 m' Hnd Hones Hput) as (Hlen & _).
    destruct (_in_spec mask m' explored w Hm') as (seen & Hin & Hseen).
    { now rewrite Hlen. }
    destruct seen.
    + exists comb, m', w. split.
      { cbn [random_loop]. unfold bind. rewrite Hin. reflexivity. }
      split; [symmetry; now apply list_insert_id|].
      split; [exact Hput|]. split; [repeat split; assumption|].
      split; [lia|]. intros _ Hfresh. apply Hseen in Hfresh. discriminate Hfresh.
    + destruct (put_restore comb m1 Hones) as (m0 & Hput0 & _ & Hback).
      rewrite Hput in Hput0. injection Hput0 as <-.
      assert (mask < length (heap w))%nat as Hbound by (eapply lookup_lt_Some, Hm').
      set (w1 := set_heap w (<[mask := m1]> (heap w))).
      set (w2 := mkWorld (heap w1) (S (np_draws w1)) (py_draws w1) (ticks w1)
                         (solver_log w1)).
      set (comb2 := choice_oracle (np_draws w) (unused_of m1) (Z.to_nat rl)).
      destruct (Hspec (np_draws w) (unused_of m1) (Z.to_nat rl))
        as (Hlen2 & Hnd2 & Hsub2); [apply unused_of_NoDup | lia |].
      fold comb2 in Hlen2, Hnd2, Hsub2.
      assert (forall i, i ∈ comb2 -> m1 !! i = Some 1) as Hones2.
      { intros i Hi. apply unused_of_lookup, Hsub2, Hi. }
      destruct (put_restore comb2 m1 Hones2) as (m2 & Hput2 & Hlen_m2 & _).
      assert (heap w2 !! mask = Some m1) as Hm1.
      { unfold w2, w1. cbn [heap set_heap]. now apply list_lookup_insert_eq. }
      set (w3 := set_heap w2 (<[mask := m2]> (heap w2))).
      assert (heap w3 = <[mask := m2]> (heap w)) as Hheap3.
      { unfold w3, w2, w1. cbn [heap set_heap]. apply list_insert_insert_eq. }
      destruct (IH comb2 w3 m2) as (comb' & m'' & w' & Hrun & Hheap & Hput' & Hvalid'
                                    & Hdraws & Hexplored).
      { rewrite Hheap3. now apply list_lookup_insert_eq. }
      { exact Hput2. }
      { repeat split; assumption. }
      { intros x Hx. rewrite Hheap3. destruct (decide (x = mask)) as [->|Hne].
        - exists m2. split; [now apply list_lookup_insert_eq | exact Hlen_m2].
        - rewrite list_lookup_insert_ne by congruence. apply Hshape, Hx. }
      exists comb', m'', w'. split.
      { cbn [random_loop]. unfold bind at 1. rewrite Hin. cbn [negb].
        unfold bind at 1. rewrite (put_ref_some mask comb 1 w m' m1 Hm' Hback).
        fold w1. unfold bind at 1, np_choice. rewrite decide_True.
        - change (choice_oracle (np_draws w1) (unused_of m1) (Z.to_nat rl)) with comb2.
          fold w2. unfold bind at 1.
          rewrite (put_ref_some mask comb2 0 w2 m1 m2 Hm1 Hput2). fold w3.
          exact Hrun.
        - split; [|lia]. intros Hnil. rewrite Hnil in Hrl. cbn [length] in Hrl. lia. }
      split; [rewrite Hheap, Hheap3; apply list_insert_insert_eq|].
      split; [exact Hput'|]. split; [exact Hvalid'|].
      change (np_draws w3) with (S (np_draws w)) in Hdraws, Hexplored.
      split; [lia|]. intros Hlt. apply Hexplored. lia.
Qed.

(** X8. In mode [random], with a generator that returns distinct members of
    the population, when [replace_len > 0] paths are missing and at least
    as many entries are 1, [_replace] returns with exactly [num_paths]
    visible paths after at least 1 and at most 101 draws (100 retries).
    When it returns before the retries are used up, the mask it leaves is
    bitwise-equal to an explored one: the loop is left when the candidate
    is explored, not when it is new. *)
Theorem replace_random_stops_on_explored
    (choice_oracle : nat -> list nat -> nat -> list nat) (fuel : nat)
    (explored : list ref) (mask : ref) (m1 : ndarray) (num_paths : Z)
    (tree : option PathTree) (w : world) :
  choice_spec choice_oracle ->
  heap w !! mask = Some m1 ->
  all_of_length (heap w) (length m1) explored ->
  0 < num_paths - np.count_zero m1 <= Z.of_nat (length (unused_of m1)) ->
  exists m' w',
    _replace choice_oracle fuel explored mask num_paths ReplaceMode_random tree w
    = (Ok tree, w')
    /\ heap w' = <[mask := m']> (heap w)
    /\ np.count_zero m' = num_paths
    /\ (np_draws w < np_draws w' <= np_draws w + 101)%nat
    /\ ((np_draws w' < np_draws w + 101)%nat ->
        ~ fresh_for (heap w') m' explored).
Proof.
  intros Hspec Hm1 Hshape Hneed.
  set (rl := num_paths - np.count_zero m1) in *.
  set (comb := choice_oracle (np_draws w) (unused_of m1) (Z.to_nat rl)).
  destruct (Hspec (np_draws w) (unused_of m1) (Z.to_nat rl))
    as (Hlen & Hnd & Hsub); [apply unused_of_NoDup | lia |].
  fold comb in Hlen, Hnd, Hsub.
  assert (forall i, i ∈ comb -> m1 !! i = Some 1) as Hones.
  { intros i Hi. apply unused_of_lookup, Hsub, Hi. }
  destruct (put_restore comb m1 Hones) as (m0 & Hput & Hlen0 & _).
  assert (mask < length (heap w))%nat as Hbound by (eapply lookup_lt_Some, Hm1).
  set (w1 := mkWorld (heap w) (S (np_draws w)) (py_draws w) (ticks w) (solver_log w)).
  set (w2 := set_heap w1 (<[mask := m0]> (heap w1))).
  destruct (random_loop_spec choice_oracle explored mask m1 rl Hspec Hneed
              max_tries comb w2 m0)
    as (comb' & m' & w' & Hrun & Hheap & Hput' & (Hlen' & Hnd' & Hsub') & Hdraws & Hexp).
  { unfold w2, w1. cbn [heap set_heap]. now apply list_lookup_insert_eq. }
  { exact Hput. }
  { repeat split; assumption. }
  { intros x Hx. unfold w2, w1. cbn [heap set_heap].
    destruct (decide (x = mask)) as [->|Hne].
    - exists m0. split; [now apply list_lookup_insert_eq | exact Hlen0].
    - rewrite list_lookup_insert_ne by congruence. apply Hshape, Hx. }
  destruct (put_zero_count comb' m1 m' Hnd') as (_ & Hcount & _).
  { intros i Hi. apply unused_of_lookup, Hsub', Hi. }
  { exact Hput'. }
  exists m', w'. split.
  - unfold _replace. unfold bind at 1. rewrite (load_some mask w m1 Hm1).
    fold rl. rewrite Z.max_r by lia.
    destruct (Z.leb_spec rl 0) as [Hle|_]; [lia|].
    destruct (Z.ltb_spec (Z.of_nat (length (unused_of m1))) rl) as [Hlt|_]; [lia|].
    rewrite decide_False by discriminate. rewrite decide_True by reflexivity.
    unfold bind at 1, np_choice. rewrite decide_True.
    + fold comb. fold w1. unfold bind at 1.
      rewrite (put_ref_some mask comb 0 w1 m1 m0 Hm1 Hput). fold w2.
      unfold bind at 1. rewrite Hrun. reflexivity.
    + split; [|lia]. intros Hnil. rewrite Hnil in Hneed. cbn [length] in Hneed. lia.
  - split.
    { rewrite Hheap. unfold w2, w1. cbn [heap set_heap]. apply list_insert_insert_eq. }
    split; [rewrite Hcount, Hlen'; unfold rl; lia|].
    change (np_draws w2) with (S (np_draws w)) in Hdraws, Hexp.
    unfold max_tries in Hdraws, Hexp.
    split; [lia|]. intros Hlt. apply Hexp. lia.
Qed.

Lemma replace_random_stops_on_explored_witness :
  exists m' w',
    _replace prefix_choice 0 [O] 1%nat 2 ReplaceMode_random None explored_and_mask
    = (Ok None, w')
    /\ heap w' = <[1%nat := m']> (heap explored_and_mask)
    /\ np.count_zero m' = 2
    /\ (np_draws explored_and_mask < np_draws w' <= np_draws explored_and_mask + 101)%nat.
Proof.
  destruct (replace_random_stops_on_explored prefix_choice 0 [O] 1%nat [0; 1; 1] 2
              None explored_and_mask)
    as (m' & w' & Hrun & Hheap & Hcount & Hdraws & _).
  - exact scripted_choice_nil_spec.
  - reflexivity.
  - intros x Hx. apply list_elem_of_singleton in Hx as ->.
    exists [0; 0; 1]. split; reflexivity.
  - vm_compute. split; [reflexivity | discriminate].
  - exists m', w'. repeat split; try assumption; apply Hdraws.
Defined.

(** ** [k_shortest_paths] with a negative [num_paths] *)

Lemma slice_to_negative {A} (k : Z) (l : list A) :
  k < 0 ->
  np.slice_to (Z.min k (Z.of_nat (length l))) l
  = take (Z.to_nat (Z.of_nat (length l) + k)) l.
Proof.
  intros Hk. unfold np.slice_to. rewrite decide_False by lia.
  now rewrite Z.min_l by lia.
Qed.

(** X9. A negative [num_paths] raises nothing: the slice [ind[:num_paths]]
    then drops the last [-num_paths] indices of the order, so of [n]
    candidates the [n + num_paths] first of the order by length are visible
    (none when that is not positive). *)
Theorem k_shortest_paths_negative
    (argsort : forall K : Type, (K -> K -> bool) -> list K -> list nat)
    (e : pptc_entry) (k : Z) :
  argsort_spec argsort -> k < 0 ->
  exists e',
    k_shortest_paths_tc argsort e k = Ok (e', argsort Z Z.leb (lens_of e))
    /\ selects_prefix (argsort Z Z.leb (lens_of e))
                      (Z.of_nat (length (entry_paths e)) + k) e e'
    /\ length (pptc.visible e') = Z.to_nat (Z.of_nat (length (entry_paths e)) + k).
Proof.
  intros Hspec Hk.
  set (n := length (entry_paths e)).
  set (k' := Z.max 0 (Z.of_nat n + k)).
  assert (length (argsort Z Z.leb (lens_of e)) = n) as Hlen_ind.
  { destruct (Hspec (lens_of e)) as [Hperm _].
    rewrite (Permutation_length Hperm), length_seq. apply length_lens_of. }
  assert (Z.to_nat (Z.min k' (Z.of_nat n)) = Z.to_nat (Z.of_nat n + k)) as Hk' by lia.
  assert (Z.to_nat (Z.min (Z.of_nat n + k) (Z.of_nat n)) = Z.to_nat (Z.of_nat n + k))
    as Hmin by lia.
  assert (k_shortest_paths_tc argsort e k = k_shortest_paths_tc argsort e k') as Heq.
  { unfold k_shortest_paths_tc. fold (lens_of e).
    unfold pptc.num_paths. fold n. rewrite Nat2Z.id.
    unfold np.size, np.ones at 1 3. rewrite length_replicate.
    rewrite <- Hlen_ind at 1. rewrite slice_to_negative by exact Hk.
    rewrite Hlen_ind. unfold np.slice_to.
    rewrite decide_True by lia. rewrite Hk'. reflexivity. }
  destruct (k_shortest_paths_tc_spec argsort e k' Hspec) as (e' & He & Hsel & Hcount & _).
  { unfold k'. lia. }
  exists e'. split; [now rewrite Heq|]. fold n in Hsel, Hcount |- *. split.
  - unfold selects_prefix in *. fold n in Hsel |- *.
    rewrite Hmin. rewrite Hk' in Hsel. exact Hsel.
  - now rewrite Hcount, Hk'.
Qed.

Lemma k_shortest_paths_negative_witness :
  exists e',
    k_shortest_paths_tc stable_argsort
      (mkEntry (a_tc 7) [PlainPath [0; 1; 2; 3]; PlainPath [0; 3]; PlainPath [0; 2; 3]]
               [0; 0; 0]) (-1)
    = Ok (e', [1; 2; 0]%nat)
    /\ entry_mask e' = [1; 0; 0].
Proof.
  destruct (k_shortest_paths_negative stable_argsort
              (mkEntry (a_tc 7)
                       [PlainPath [0; 1; 2; 3]; PlainPath [0; 3]; PlainPath [0; 2; 3]]
                       [0; 0; 0]) (-1) stable_argsort_spec)
    as (e' & Hrun & _); [lia|].
  exists e'. split; [exact Hrun|].
  vm_compute in Hrun. injection Hrun as <-. reflexivity.
Defined.

(** ** The masks of [select_iterative] are those of [k_shortest_paths] *)

Lemma k_shortest_paths_tc_order argsort (e : pptc_entry) (k : Z)
    (e' : pptc_entry) (ind : list nat) :
  k_shortest_paths_tc argsort e k = Ok (e', ind) ->
  ind = argsort Z Z.leb (lens_of e).
Proof.
  unfold k_shortest_paths_tc. intros Hrun.
  apply res_bind_ok in Hrun as (m & _ & Hrun). now injection Hrun as _ <-.
Qed.

(** What [k_shortest_paths] returns, entry by entry; [inds] has a key for
    the identifiers of the container and no other, and when no identifier
    occurs twice the key of an entry holds the order of its paths. *)
Lemma k_shortest_paths_entries argsort (p : PPTC) (k : Z) (rm : bool) :
  forall (p' : PPTC) (inds : gmap Z (list nat)),
    k_shortest_paths argsort p k rm = Ok (p', inds) ->
    Forall2 (fun e e' =>
               k_shortest_paths_tc argsort e k = Ok (e', argsort Z Z.leb (lens_of e)))
            p p'
    /\ (forall id, is_Some (inds !! id) -> id ∈ map ID (pptc.tcs p))
    /\ (NoDup (map ID (pptc.tcs p)) ->
        forall e, e ∈ p ->
          inds !! ID (entry_tc e) = Some (argsort Z Z.leb (lens_of e))).
Proof.
  induction p as [|e rest IH]; intros p' inds Hrun.
  - injection Hrun as <- <-. split; [constructor|]. split.
    + intros id [v Hv]. rewrite lookup_empty in Hv. discriminate Hv.
    + intros _ e He. apply elem_of_nil in He. contradiction.
  - cbn [k_shortest_paths] in Hrun.
    apply res_bind_ok in Hrun as ([e' ind] & He & Hrun).
    apply res_bind_ok in Hrun as ([rest' inds'] & Hrest & Hrun).
    injection Hrun as <- <-.
    pose proof (k_shortest_paths_tc_order argsort e k e' ind He) as ->.
    destruct (IH rest' inds' Hrest) as (Hall & Hdom & Hkeys).
    split; [constructor; assumption|]. split.
    + intros id [v Hv]. cbn [pptc.tcs map]. apply lookup_union_Some_raw in Hv
        as [Hv|[_ Hv]].
      * right. apply Hdom. now exists v.
      * apply lookup_singleton_Some in Hv as [<- _]. left.
    + cbn [pptc.tcs map]. intros Hnd x Hx. apply NoDup_cons in Hnd as [Hfresh Hnd].
      apply elem_of_cons in Hx as [->|Hx].
      * apply lookup_union_Some_raw. right. split.
        -- destruct (inds' !! ID (entry_tc e)) eqn:Hlook; [|reflexivity].
           exfalso. apply Hfresh, Hdom. exists l. exact Hlook.
        -- apply lookup_singleton_eq.
      * apply lookup_union_Some_raw. left. apply Hkeys; assumption.
Qed.

(** One entry: unmasking the first [k] indices of the order in the mask
    made for [k0 <= k] gives the mask made for [k]. *)
Lemma grow_mask_entry argsort (e e0 : pptc_entry) (k0 k : Z) :
  argsort_spec argsort -> 0 <= k0 <= k ->
  k_shortest_paths_tc argsort e k0 = Ok (e0, argsort Z Z.leb (lens_of e)) ->
  exists m,
    np.put (np.slice_to (Z.min k (np.size (entry_mask e0)))
                        (argsort Z Z.leb (lens_of e)))
           0 (entry_mask e0) = Ok m
    /\ k_shortest_paths_tc argsort e k
       = Ok (pptc.set_mask e0 m, argsort Z Z.leb (lens_of e)).
Proof.
  intros Hspec Hk Hrun0.
  set (ind := argsort Z Z.leb (lens_of e)) in *.
  set (n := length (entry_paths e)).
  destruct (k_shortest_paths_tc_spec argsort e k0 Hspec) as (e0' & He0 & Hsel0 & _);
    [lia|].
  fold ind in He0, Hsel0. rewrite Hrun0 in He0. injection He0 as <-.
  destruct (k_shortest_paths_tc_spec argsort e k Hspec) as (ek & Hek & Hselk & _);
    [lia|].
  fold ind in Hek, Hselk.
  destruct Hsel0 as (Htc0 & Hpaths0 & Hlen0 & Hvis0 & Hmask0).
  destruct Hselk as (Htck & Hpathsk & Hlenk & Hvisk & Hmaskk).
  fold n in Hlen0, Hvis0, Hmask0, Hlenk, Hvisk, Hmaskk.
  set (c0 := Z.to_nat (Z.min k0 (Z.of_nat n))) in *.
  set (c := Z.to_nat (Z.min k (Z.of_nat n))) in *.
  assert (forall i, i ∈ take c ind -> (i < n)%nat) as Hrange.
  { intros i Hi. apply elem_of_take in Hi as (pos & Hpos & _).
    apply list_elem_of_lookup_2 in Hpos.
    apply (argsort_in_range argsort) in Hpos; [|exact Hspec].
    now rewrite length_lens_of in Hpos. }
  assert (forall i, i ∈ take c0 ind -> i ∈ take c ind) as Hsub.
  { intros i Hi. apply elem_of_take in Hi as (pos & Hpos & Hlt).
    apply elem_of_take. exists pos. split; [exact Hpos | unfold c0, c in *; lia]. }
  destruct (put_spec (take c ind) 0 (entry_mask e0)) as (m & Hput & Hlen & Hlook).
  { apply Forall_forall. intros i Hi. rewrite Hlen0. apply Hrange, Hi. }
  assert (m = entry_mask ek) as Hm.
  { apply list_eq. intros i. rewrite Hlook.
    destruct (decide (i ∈ take c ind)) as [Hi|Hi].
    - symmetry. apply Hvisk, Hi.
    - destruct (decide (i < n)%nat) as [Hin|Hout].
      + rewrite Hmaskk by assumption. apply Hmask0; [exact Hin|].
        intros Hc. apply Hi, Hsub, Hc.
      + rewrite !lookup_ge_None_2 by lia. reflexivity. }
  exists m. split.
  - unfold np.size. rewrite Hlen0. unfold np.slice_to. rewrite decide_True by lia.
    exact Hput.
  - rewrite Hek. f_equal. f_equal. destruct ek as [tck pk mk], e0 as [tc0 p0 m0].
    unfold pptc.set_mask. simpl in Htck, Hpathsk, Hm, Htc0, Hpaths0 |- *.
    congruence.
Qed.

Lemma grow_masks_after_k_shortest
    (argsort : forall K : Type, (K -> K -> bool) -> list K -> list nat)
    (p p' : PPTC) (k0 k : Z) (rm : bool) (inds : gmap Z (list nat)) :
  argsort_spec argsort ->
  NoDup (map ID (pptc.tcs p)) ->
  0 <= k0 <= k ->
  k_shortest_paths argsort p k0 rm = Ok (p', inds) ->
  exists p'',
    grow_masks inds k p' = Ok p''
    /\ k_shortest_paths argsort p k rm = Ok (p'', inds).
Proof.
  intros Hspec Hnd Hk Hrun.
  destruct (k_shortest_paths_entries argsort p k0 rm p' inds Hrun)
    as (Hall & _ & Hkeys).
  specialize (Hkeys Hnd).
  assert (exists p'' inds',
            grow_masks inds k p' = Ok p''
            /\ k_shortest_paths argsort p k rm = Ok (p'', inds')) as (p'' & inds' & Hgrow & Hk').
  { clear Hrun Hnd. induction Hall as [|e e0 rest rest0 He _ IH].
    - exists [], ∅. split; reflexivity.
    - destruct IH as (rest'' & inds' & Hgrow & Hrest).
      { intros x Hx. apply Hkeys. now right. }
      destruct (grow_mask_entry argsort e e0 k0 k Hspec Hk He) as (m & Hput & Hek).
      assert (entry_tc e0 = entry_tc e) as Htc.
      { unfold k_shortest_paths_tc in He.
        apply res_bind_ok in He as (m0 & _ & He). now injection He as <-. }
      exists (pptc.set_mask e0 m :: rest''),
             (inds' ∪ {[ID (entry_tc e) := argsort Z Z.leb (lens_of e)]}).
      split.
      + cbn [grow_masks]. rewrite Htc, (Hkeys e) by left. cbn [res_bind].
        rewrite Hput. cbn [res_bind]. rewrite Hgrow. reflexivity.
      + cbn [k_shortest_paths]. rewrite Hek. cbn [res_bind]. rewrite Hrest.
        reflexivity. }
  exists p''. split; [exact Hgrow|]. rewrite Hk'. f_equal. f_equal.
  destruct (k_shortest_paths_entries argsort p k rm p'' inds' Hk')
    as (_ & Hdom' & Hkeys').
  destruct (k_shortest_paths_entries argsort p k0 rm p' inds Hrun)
    as (_ & Hdom & _).
  apply map_eq. intros id.
  destruct (decide (id ∈ map ID (pptc.tcs p))) as [Hin|Hout].
  - unfold pptc.tcs in Hin. rewrite <- list_fmap_compose in Hin.
    apply list_elem_of_fmap in Hin as (e & -> & He).
    cbn. rewrite (Hkeys' Hnd e He), (Hkeys e He). reflexivity.
  - destruct (inds' !! id) as [v1|] eqn:H1.
    { exfalso. apply Hout, Hdom'. exists v1. exact H1. }
    destruct (inds !! id) as [v2|] eqn:H2; [|reflexivity].
    exfalso. apply Hout, Hdom. exists v2. exact H2.
Qed.

(** X10. When no identifier occurs twice and [0 <= k0 <= k], growing the
    masks that [k_shortest_paths] made for [k0] to [k], as the loop of
    [select_iterative] does with the stored orders, succeeds and gives
    exactly the container (and the orders) that [k_shortest_paths] gives
    for [k]. The statement applies again to its own result, so the
    problems of the doubling loop are the [k]-shortest selections for
    [k = 5, 10, 20, ...]. *)
Theorem grow_masks_is_k_shortest
    (argsort : forall K : Type, (K -> K -> bool) -> list K -> list nat)
    (p p' : PPTC) (k0 k : Z) (rm : bool) (inds : gmap Z (list nat)) :
  argsort_spec argsort ->
  NoDup (map ID (pptc.tcs p)) ->
  0 <= k0 <= k ->
  k_shortest_paths argsort p k0 rm = Ok (p', inds) ->
  exists p'',
    grow_masks inds k p' = Ok p''
    /\ k_shortest_paths argsort p k rm = Ok (p'', inds).
Proof. apply grow_masks_after_k_shortest. Qed.

Lemma grow_masks_is_k_shortest_witness :
  exists p' inds p'',
    k_shortest_paths stable_argsort three_candidates 1 true = Ok (p', inds)
    /\ grow_masks inds 2 p' = Ok p''
    /\ k_shortest_paths stable_argsort three_candidates 2 true = Ok (p'', inds).
Proof.
  destruct (k_shortest_paths stable_argsort three_candidates 1 true)
    as [[p' inds]|err] eqn:Hrun; [|vm_compute in Hrun; discriminate Hrun].
  destruct (grow_masks_is_k_shortest stable_argsort three_candidates p' 1 2 true inds)
    as (p'' & Hgrow & Hk).
  - exact stable_argsort_spec.
  - vm_compute. repeat constructor; set_solver.
  - lia.
  - exact Hrun.
  - exists p', inds, p''. repeat split; assumption.
Defined.

(** ** [select_iterative] in mode [len] *)

Lemma iter_body_len
    (argsort : forall K : Type, (K -> K -> bool) -> list K -> list nat)
    (solver_is_solved : list solver_call -> bool)
    (solver_get_time solver_get_solved_objective : list solver_call -> Qc)
    (all : PPTC) (inds : gmap Z (list nat))
    (topo : Topology) (cfg : NetworkConfig) (fairness : Fairness)
    (em : EpochComposition) (debug : bool) (st : iter_state) (w : world) :
  argsort_spec argsort ->
  NoDup (map ID (pptc.tcs all)) ->
  iter_inv argsort all inds st ->
  exists st' w',
    iter_body solver_is_solved solver_get_time solver_get_solved_objective
              topo cfg fairness em debug inds st w = (Ok st', w')
    /\ iter_inv argsort all inds st'
    /\ it_i st' = it_i st + 1
    /\ is_Some (it_opt st').
Proof.
  intros Hspec Hnd (Hi & Hk & Hsorted).
  assert (0 < 2 ^ Z.max 0 (it_i st - 1) <= 2 ^ it_i st) as Hpow.
  { split; [apply Z.pow_pos_nonneg; lia|].
    apply Z.pow_le_mono_r; lia. }
  destruct (grow_masks_after_k_shortest argsort all (it_pptc st)
              (5 * 2 ^ Z.max 0 (it_i st - 1)) (it_k st) true inds Hspec Hnd)
    as (p'' & Hgrow & Hnext); [lia | exact Hsorted |].
  assert (iter_inv argsort all inds
            (mkIter (it_i st + 1) (it_diff st) (it_old_val st) (it_k st * 2)
                    (it_opt_time st) None p'')
          -> forall d v t o,
            iter_inv argsort all inds
              (mkIter (it_i st + 1) d v (it_k st * 2) t o p'')) as Hany.
  { intros Hinv d v t o. exact Hinv. }
  assert (iter_inv argsort all inds
            (mkIter (it_i st + 1) (it_diff st) (it_old_val st) (it_k st * 2)
                    (it_opt_time st) None p'')) as Hinv.
  { unfold iter_inv. cbn [it_i it_k it_pptc]. split; [lia|]. split.
    - rewrite Hk, Z.pow_add_r, Z.pow_1_r by lia. lia.
    - replace (Z.max 0 (it_i st + 1 - 1)) with (it_i st) by lia.
      rewrite <- Hk. exact Hnext. }
  unfold iter_body. unfold bind at 1, lift. rewrite Hgrow.
  unfold bind, compose_apps, when, solver_do, opt_is_solved,
    opt_get_solved_objective, opt_get_time, ret.
  destruct debug;
    cbn [fst snd heap np_draws py_draws ticks solver_log];
    match goal with
    | |- context [if ?b then _ else _] => destruct b
    end;
    cbn [fst snd heap np_draws py_draws ticks solver_log];
    eexists; eexists; (split; [reflexivity|]);
    (split; [apply Hany, Hinv|]); (split; [reflexivity|]);
    cbn [it_opt]; eauto.
Qed.

(** In mode [len] the loop ends, within [max_iter] turns. *)
Lemma iter_loop_len
    (argsort : forall K : Type, (K -> K -> bool) -> list K -> list nat)
    (solver_is_solved : list solver_call -> bool)
    (solver_get_time solver_get_solved_objective : list solver_call -> Qc)
    (all : PPTC) (inds : gmap Z (list nat))
    (topo : Topology) (cfg : NetworkConfig) (fairness : Fairness)
    (em : EpochComposition) (debug : bool) (max_iter : Z) (epsilon : Qc) (mp : Z) :
  argsort_spec argsort ->
  NoDup (map ID (pptc.tcs all)) ->
  forall (turns : nat) (st : iter_state) (w : world),
    iter_inv argsort all inds st ->
    (Z.to_nat (max_iter - it_i st) <= turns)%nat ->
    exists st' w',
      iter_loop solver_is_solved solver_get_time solver_get_solved_objective
                turns topo cfg fairness em debug inds max_iter epsilon mp st w
      = (Ok st', w')
      /\ iter_inv argsort all inds st'
      /\ it_i st <= it_i st' <= Z.max (it_i st) max_iter
      /\ iter_guard max_iter epsilon mp st' = false
      /\ (it_i st < it_i st' -> is_Some (it_opt st'))
      /\ (it_i st' = it_i st -> st' = st /\ w' = w).
Proof.
  intros Hspec Hnd.
  induction turns as [|turns IH]; intros st w Hinv Hturns.
  - exists st, w. destruct (iter_guard max_iter epsilon mp st) eqn:Hguard.
    + exfalso. unfold iter_guard in Hguard.
      apply andb_prop in Hguard as [Hguard _].
      apply andb_prop in Hguard as [Hguard _].
      apply Z.ltb_lt in Hguard. lia.
    + cbn [iter_loop]. rewrite Hguard.
      split; [reflexivity|]. split; [exact Hinv|]. split; [lia|].
      split; [reflexivity|]. split; [lia | auto].
  - destruct (iter_guard max_iter epsilon mp st) eqn:Hguard.
    + assert (it_i st < max_iter) as Hlt.
      { unfold iter_guard in Hguard.
        apply andb_prop in Hguard as [Hguard _].
        apply andb_prop in Hguard as [Hguard _].
        now apply Z.ltb_lt in Hguard. }
      destruct (iter_body_len argsort solver_is_solved solver_get_time
                  solver_get_solved_objective all inds topo cfg fairness em
                  debug st w Hspec Hnd Hinv)
        as (st1 & w1 & Hbody & Hinv1 & Hi1 & Hopt1).
      destruct (IH st1 w1 Hinv1) as (st' & w' & Hloop & Hinv' & Hi' & Hguard'
                                     & Hopt' & Hsame); [lia|].
      exists st', w'. split.
      { cbn [iter_loop]. rewrite Hguard. unfold bind. rewrite Hbody. exact Hloop. }
      split; [exact Hinv'|]. split; [lia|]. split; [exact Hguard'|]. split.
      * intros _. destruct (decide (it_i st' = it_i st1)) as [Heq|Hne].
        -- destruct (Hsame Heq) as [-> _]. exact Hopt1.
        -- apply Hopt'. lia.
      * intros Heq. lia.
    + exists st, w. cbn [iter_loop]. rewrite Hguard.
      split; [reflexivity|]. split; [exact Hinv|]. split; [lia|].
      split; [reflexivity|]. split; [lia | auto].
Qed.

(** X11. In mode [len], with an [argsort] that returns a permutation and
    a container in which no identifier occurs twice, [select_iterative]
    ends in one of three ways: it returns a result, it raises the
    [SOLException] "No solution exists", or it fails on the unassigned name
    [opt]. The masks and the stored orders never lead to an [IndexError]
    or a [KeyError], and the loop ends within [max_iter] turns. *)
Theorem select_iterative_len_outcomes
    (argsort : forall K : Type, (K -> K -> bool) -> list K -> list nat)
    (clock : nat -> Qc) (solver_is_solved : list solver_call -> bool)
    (solver_get_time : list solver_call -> Qc)
    (solver_get_solved_objective : list solver_call -> Qc)
    (solver_get_chosen_paths : list solver_call -> bool -> PPTC)
    (apps : list App) (topo : Topology) (cfg : NetworkConfig)
    (max_iter : Z) (epsilon : Qc) (fairness : Fairness)
    (em : EpochComposition) (debug : bool) (w : world) :
  argsort_spec argsort ->
  NoDup (map ID (pptc.tcs (pptc.merge (map app_pptc apps)))) ->
  exists w',
    (exists r,
       select_iterative argsort clock solver_is_solved solver_get_time
                        solver_get_solved_objective solver_get_chosen_paths
                        apps topo cfg max_iter epsilon fairness em "len" debug w
       = (Ok r, w'))
    \/ select_iterative argsort clock solver_is_solved solver_get_time
                        solver_get_solved_objective solver_get_chosen_paths
                        apps topo cfg max_iter epsilon fairness em "len" debug w
       = (Raise (SOLException "No solution exists"), w')
    \/ select_iterative argsort clock solver_is_solved solver_get_time
                        solver_get_solved_objective solver_get_chosen_paths
                        apps topo cfg max_iter epsilon fairness em "len" debug w
       = (Raise (UnboundLocalError "opt"), w').
Proof.
  intros Hspec Hnd.
  set (all := pptc.merge (map app_pptc apps)) in *.
  pose proof (presort_len_ok argsort apps topo all Hspec) as Hok.
  destruct (presort argsort apps topo all 5 "len") as [[p' inds]|err] eqn:Hpre;
    [clear Hok | discriminate Hok].
  assert (k_shortest_paths argsort all 5 true = Ok (p', inds)) as Hsorted.
  { unfold presort in Hpre. now rewrite decide_True in Hpre by reflexivity. }
  set (w1 := mkWorld (heap w) (np_draws w) (py_draws w) (S (ticks w)) (solver_log w)).
  destruct (iter_loop_len argsort solver_is_solved solver_get_time
              solver_get_solved_objective all inds topo cfg fairness em debug
              max_iter epsilon (pptc.max_paths p' true) Hspec Hnd
              (Z.to_nat max_iter)
              (mkIter 0 (Qc_of_Z (Z.shiftl 1 10)) (Q2Qc 0) 5 (Q2Qc 0) None p') w1)
    as (st' & w' & Hloop & _).
  { unfold iter_inv. cbn [it_i it_k it_pptc]. split; [lia|]. split; [reflexivity|].
    exact Hsorted. }
  { cbn [it_i]. lia. }
  assert (forall X,
            select_iterative argsort clock solver_is_solved solver_get_time
              solver_get_solved_objective solver_get_chosen_paths
              apps topo cfg max_iter epsilon fairness em "len" debug w = X
            <-> (match it_opt st' with
                 | None => (Raise (UnboundLocalError "opt"),
                            mkWorld (heap w') (np_draws w') (py_draws w')
                                    (S (ticks w')) (solver_log w'))
                 | Some opt =>
                     let w2 := mkWorld (heap w') (np_draws w') (py_draws w')
                                       (S (ticks w')) (solver_log w') in
                     if negb (solver_is_solved (history opt w2)) then
                       (Raise (SOLException "No solution exists"), w2)
                     else
                       (Ok (opt, solver_get_chosen_paths (history opt w2) true,
                            (clock (ticks w') - clock (ticks w))%Qc,
                            it_opt_time st'), w2)
                 end) = X) as Hrun.
  { intros X. unfold select_iterative. fold all.
    unfold bind at 1, time_time at 1. fold w1.
    unfold bind at 1, lift. rewrite Hpre. cbn [fst snd].
    unfold bind at 1. rewrite Hloop.
    unfold bind at 1, time_time at 1.
    destruct (it_opt st') as [opt|]; [|reflexivity].
    unfold bind, opt_is_solved, opt_get_chosen_paths, raise, ret.
    cbn [fst snd]. destruct (solver_is_solved _); reflexivity. }
  exists (mkWorld (heap w') (np_draws w') (py_draws w') (S (ticks w')) (solver_log w')).
  destruct (it_opt st') as [opt|].
  - cbn zeta in Hrun.
    destruct (negb (solver_is_solved
                      (history opt (mkWorld (heap w') (np_draws w') (py_draws w')
                                            (S (ticks w')) (solver_log w'))))).
    + right. left. now apply Hrun.
    + left. eexists. now apply Hrun.
  - right. right. now apply Hrun.
Qed.

Lemma select_iterative_len_outcomes_witness :
  exists w',
    (exists r,
       select_iterative stable_argsort tick_clock easy_solved easy_time
                        easy_objective easy_chosen
                        [mkApp three_candidates (Q2Qc 1) []]
                        (a_topology "line" 6) a_config 10 (Q2Qc 0) WEIGHTED WORST
                        "len" false empty_world
       = (Ok r, w'))
    \/ select_iterative stable_argsort tick_clock easy_solved easy_time
                        easy_objective easy_chosen
                        [mkApp three_candidates (Q2Qc 1) []]
                        (a_topology "line" 6) a_config 10 (Q2Qc 0) WEIGHTED WORST
                        "len" false empty_world
       = (Raise (SOLException "No solution exists"), w')
    \/ select_iterative stable_argsort tick_clock easy_solved easy_time
                        easy_objective easy_chosen
                        [mkApp three_candidates (Q2Qc 1) []]
                        (a_topology "line" 6) a_config 10 (Q2Qc 0) WEIGHTED WORST
                        "len" false empty_world
       = (Raise (UnboundLocalError "opt"), w').
Proof.
  apply select_iterative_len_outcomes.
  - exact stable_argsort_spec.
  - vm_compute. repeat constructor; set_solver.
Defined.

(** X12. In mode [len] the loop of [select_iterative] ends after some
    number [i] of turns, [0 <= i <= max_iter]; then [k] is [5 * 2^i], the
    condition of the loop is false, and the masks it leaves are exactly
    those of [k_shortest_paths] for the last [k] it used, [5 * 2^(i-1)]
    ([5] when it made no turn). *)
Theorem iter_loop_leaves_k_shortest
    (argsort : forall K : Type, (K -> K -> bool) -> list K -> list nat)
    (solver_is_solved : list solver_call -> bool)
    (solver_get_time solver_get_solved_objective : list solver_call -> Qc)
    (all : PPTC) (topo : Topology) (cfg : NetworkConfig) (fairness : Fairness)
    (em : EpochComposition) (debug : bool) (max_iter : Z) (epsilon : Qc)
    (mp : Z) (w : world) :
  argsort_spec argsort ->
  NoDup (map ID (pptc.tcs all)) ->
  exists p' inds st' w',
    k_shortest_paths argsort all 5 true = Ok (p', inds)
    /\ iter_loop solver_is_solved solver_get_time solver_get_solved_objective
                 (Z.to_nat max_iter) topo cfg fairness em debug inds
                 max_iter epsilon mp
                 (mkIter 0 (Qc_of_Z (Z.shiftl 1 10)) (Q2Qc 0) 5 (Q2Qc 0) None p') w
       = (Ok st', w')
    /\ 0 <= it_i st' <= Z.max 0 max_iter
    /\ it_k st' = 5 * 2 ^ it_i st'
    /\ iter_guard max_iter epsilon mp st' = false
    /\ k_shortest_paths argsort all (5 * 2 ^ Z.max 0 (it_i st' - 1)) true
       = Ok (it_pptc st', inds).
Proof.
  intros Hspec Hnd.
  pose proof (k_shortest_paths_ok argsort all 5 true Hspec) as Hok.
  destruct (k_shortest_paths argsort all 5 true) as [[p' inds]|err] eqn:Hsorted;
    [clear Hok | now discriminate Hok].
  destruct (iter_loop_len argsort solver_is_solved solver_get_time
              solver_get_solved_objective all inds topo cfg fairness em debug
              max_iter epsilon mp Hspec Hnd (Z.to_nat max_iter)
              (mkIter 0 (Qc_of_Z (Z.shiftl 1 10)) (Q2Qc 0) 5 (Q2Qc 0) None p') w)
    as (st' & w' & Hloop & (Hi & Hk & Hpptc) & Hbound & Hguard & _).
  { unfold iter_inv. cbn [it_i it_k it_pptc]. split; [lia|]. split; [reflexivity|].
    exact Hsorted. }
  { cbn [it_i]. lia. }
  cbn [it_i] in Hbound.
  exists p', inds, st', w'. repeat split; try assumption; lia.
Qed.

Lemma iter_loop_leaves_k_shortest_witness :
  exists p' inds st' w',
    k_shortest_paths stable_argsort eighteen_paths 5 true = Ok (p', inds)
    /\ iter_loop easy_solved easy_time easy_objective
                 (Z.to_nat 10) (a_topology "line" 6) a_config WEIGHTED WORST false
                 inds 10 (Q2Qc 0) 18
                 (mkIter 0 (Qc_of_Z (Z.shiftl 1 10)) (Q2Qc 0) 5 (Q2Qc 0) None p')
                 empty_world
       = (Ok st', w')
    /\ 0 <= it_i st' <= Z.max 0 10
    /\ it_k st' = 5 * 2 ^ it_i st'.
Proof.
  destruct (iter_loop_leaves_k_shortest stable_argsort easy_solved easy_time
              easy_objective eighteen_paths (a_topology "line" 6) a_config
              WEIGHTED WORST false 10 (Q2Qc 0) 18 empty_world)
    as (p' & inds & st' & w' & Hsorted & Hloop & Hi & Hk & _).
  - exact stable_argsort_spec.
  - vm_compute. repeat constructor; set_solver.
  - exists p', inds, st', w'. repeat split; try assumption; apply Hi.
Defined.

(** X13. A [sort_mode] other than "len" and "resource" makes
    [select_iterative] raise [InvalidConfigException] after it has read the
    clock once and before it composes or solves anything: the solver log and
    the shared arrays are as they were. *)
Theorem select_iterative_unknown_sort_mode
    (argsort : forall K : Type, (K -> K -> bool) -> list K -> list nat)
    (clock : nat -> Qc) (solver_is_solved : list solver_call -> bool)
    (solver_get_time : list solver_call -> Qc)
    (solver_get_solved_objective : list solver_call -> Qc)
    (solver_get_chosen_paths : list solver_call -> bool -> PPTC)
    (apps : list App) (topo : Topology) (cfg : NetworkConfig)
    (max_iter : Z) (epsilon : Qc) (fairness : Fairness)
    (em : EpochComposition) (sort_mode : string) (debug : bool) (w : world) :
  sort_mode <> "len" -> sort_mode <> "resource" ->
  raises_invalid_config
    (select_iterative argsort clock solver_is_solved solver_get_time
                      solver_get_solved_objective solver_get_chosen_paths
                      apps topo cfg max_iter epsilon fairness em sort_mode debug w).1
  /\ (select_iterative argsort clock solver_is_solved solver_get_time
                       solver_get_solved_objective solver_get_chosen_paths
                       apps topo cfg max_iter epsilon fairness em sort_mode debug w).2
     = mkWorld (heap w) (np_draws w) (py_draws w) (S (ticks w)) (solver_log w).
Proof.
  intros Hlen Hres.
  unfold select_iterative, bind, time_time, lift, presort.
  rewrite !decide_False by assumption. cbn [fst snd].
  split; [|reflexivity]. unfold raises_invalid_config. eauto.
Qed.

Lemma select_iterative_unknown_sort_mode_witness :
  raises_invalid_config
    (select_iterative stable_argsort tick_clock easy_solved easy_time
                      easy_objective easy_chosen
                      [mkApp three_candidates (Q2Qc 1) []]
                      (a_topology "line" 6) a_config 10 (Q2Qc 0) WEIGHTED WORST
                      "length" false empty_world).1.
Proof.
  apply (select_iterative_unknown_sort_mode stable_argsort tick_clock easy_solved
           easy_time easy_objective easy_chosen
           [mkApp three_candidates (Q2Qc 1) []]
           (a_topology "line" 6) a_config 10 (Q2Qc 0) WEIGHTED WORST
           "length" false empty_world); discriminate.
Defined.

(** ** The feasibility phase of [select_sa] *)

Lemma keeps_log_ret {A} (a : A) : keeps_log (ret a).
Proof. intros w. reflexivity. Qed.

Lemma keeps_log_raise {A} (e : exn) : keeps_log (@raise A e).
Proof. intros w. reflexivity. Qed.

Lemma keeps_log_lift {A} (r : res A) : keeps_log (lift r).
Proof. intros w. reflexivity. Qed.

Lemma keeps_log_bind {A B} (m : M A) (k : A -> M B) :
  keeps_log m -> (forall a, keeps_log (k a)) -> keeps_log (bind m k).
Proof.
  intros Hm Hk w. unfold bind. specialize (Hm w).
  destruct (m w) as [[a|e] w1]; [|exact Hm].
  rewrite Hk. exact Hm.
Qed.

Lemma keeps_log_load (r : ref) : keeps_log (load r).
Proof. intros w. reflexivity. Qed.

Lemma keeps_log_store (r : ref) (a : ndarray) : keeps_log (store r a).
Proof. intros w. reflexivity. Qed.

Lemma keeps_log_alloc (a : ndarray) : keeps_log (alloc a).
Proof. intros w. reflexivity. Qed.

Lemma keeps_log_np_choice choice_oracle (pop : list nat) (k : Z) :
  keeps_log (np_choice choice_oracle pop k).
Proof. intros w. unfold np_choice. case_decide; reflexivity. Qed.

Lemma keeps_log_random_random random_oracle :
  keeps_log (random_random random_oracle).
Proof. intros w. reflexivity. Qed.

Lemma keeps_log_dict_get {V} (d : gmap Z V) (k : Z) : keeps_log (dict_get d k).
Proof. intros w. unfold dict_get. destruct (d !! k); reflexivity. Qed.

Lemma keeps_log_py_last (l : list ref) : keeps_log (py_last l).
Proof. intros w. unfold py_last. destruct (last l); reflexivity. Qed.

Create HintDb frame.

#[local] Hint Resolve keeps_log_ret keeps_log_raise keeps_log_lift keeps_log_load
  keeps_log_store keeps_log_alloc keeps_log_np_choice keeps_log_random_random
  keeps_log_dict_get keeps_log_py_last : frame.

(** Splits a computation along its binds and its case distinctions and
    closes the leaves with the facts of the database. *)
Ltac frame :=
  repeat first
    [ progress cbv beta zeta
    | solve [eauto with frame]
    | apply keeps_log_bind; [|intros ?]
    | match goal with
      | |- keeps_log (if ?b then _ else _) => destruct b
      | |- keeps_log (match ?x with _ => _ end) => destruct x
      end ].

Lemma keeps_log_put_ref (r : ref) (idxs : list nat) (v : Z) :
  keeps_log (put_ref r idxs v).
Proof. unfold put_ref. frame. Qed.

#[local] Hint Resolve keeps_log_put_ref : frame.

Lemma keeps_log_in (mask : ref) (explored : list ref) :
  keeps_log (_in mask explored).
Proof. induction explored as [|x rest IH]; cbn [_in]; frame. Qed.

#[local] Hint Resolve keeps_log_in : frame.

Lemma keeps_log_expel_inverse_flow random_oracle tcid xps (m : ndarray) :
  forall ii, keeps_log (expel_inverse_flow random_oracle tcid xps ii m).
Proof. induction m as [|v rest IH]; intros ii; cbn [expel_inverse_flow]; frame. Qed.

Lemma keeps_log_expel_random random_oracle (m : ndarray) :
  keeps_log (expel_random random_oracle m).
Proof. induction m as [|v rest IH]; cbn [expel_random]; frame. Qed.

#[local] Hint Resolve keeps_log_expel_inverse_flow keeps_log_expel_random : frame.

Lemma keeps_log_expel random_oracle tcid (r : ref) xps (mode : Z) :
  keeps_log (_expel random_oracle tcid r xps mode).
Proof. unfold _expel. frame. Qed.

Lemma keeps_log_next_sorted_loop (explored : list ref) (mask : ref)
    (combs : list (list nat)) :
  keeps_log (next_sorted_loop explored mask combs).
Proof. induction combs as [|comb rest IH]; cbn [next_sorted_loop]; frame. Qed.

Lemma keeps_log_random_loop choice_oracle (explored : list ref) (mask : ref)
    (unused : list nat) (replace_len : Z) (tries_left : nat) :
  forall comb,
    keeps_log (random_loop choice_oracle tries_left explored mask unused
                           replace_len comb).
Proof.
  induction tries_left as [|t IH]; intros comb; cbn [random_loop]; frame.
Qed.

Lemma keeps_log_pathtree_loop (fuel : nat) (explored : list ref) (mask : ref)
    (replace_len : Z) (tries_left : nat) :
  forall comb tree,
    keeps_log (pathtree_loop tries_left fuel explored mask replace_len comb tree).
Proof.
  induction tries_left as [|t IH]; intros comb tree; cbn [pathtree_loop]; frame.
Qed.

#[local] Hint Resolve keeps_log_expel keeps_log_next_sorted_loop
  keeps_log_random_loop keeps_log_pathtree_loop : frame.

Lemma keeps_log_replace choice_oracle (fuel : nat) (explored : list ref)
    (mask : ref) (num_paths mode : Z) (tree : option PathTree) :
  keeps_log (_replace choice_oracle fuel explored mask num_paths mode tree).
Proof. unfold _replace. frame. Qed.

#[local] Hint Resolve keeps_log_replace : frame.

Lemma keeps_log_resample_tc choice_oracle random_oracle (fuel : nat)
    (num_paths replace_mode : Z) (st : sa_state) (tc : TrafficClass) :
  keeps_log (resample_tc choice_oracle random_oracle fuel num_paths replace_mode
                         st tc).
Proof. unfold resample_tc. frame. Qed.

Lemma keeps_log_foldM {A S} (f : S -> A -> M S) (l : list A) :
  (forall s x, keeps_log (f s x)) -> forall s, keeps_log (foldM f l s).
Proof.
  intros Hf. induction l as [|x rest IH]; intros s; cbn [foldM]; frame.
Qed.

Lemma bind_ok {A B} (m : M A) (k : A -> M B) (w : world) (b : B) (w' : world) :
  bind m k w = (Ok b, w') ->
  exists a w1, m w = (Ok a, w1) /\ k a w1 = (Ok b, w').
Proof.
  unfold bind. destruct (m w) as [[a|e] w1]; [eauto | discriminate].
Qed.

Lemma resample_tc_pptc choice_oracle random_oracle (fuel : nat)
    (num_paths replace_mode : Z) (st : sa_state) (tc : TrafficClass)
    (w : world) (st' : sa_state) (w' : world) :
  resample_tc choice_oracle random_oracle fuel num_paths replace_mode st tc w
  = (Ok st', w') ->
  sa_pptc st' = sa_pptc st.
Proof.
  unfold resample_tc. intros Hrun.
  apply bind_ok in Hrun as (refs & w1 & _ & Hrun).
  apply bind_ok in Hrun as (lastmask & w2 & _ & Hrun).
  apply bind_ok in Hrun as (newmask & w3 & _ & Hrun).
  apply bind_ok in Hrun as (tree & w4 & _ & Hrun).
  apply bind_ok in Hrun as (tree' & w5 & _ & Hrun).
  injection Hrun as <- _. reflexivity.
Qed.

Lemma foldM_resample_pptc choice_oracle random_oracle (fuel : nat)
    (num_paths replace_mode : Z) (tcs : list TrafficClass) :
  forall (st : sa_state) (w : world) (st' : sa_state) (w' : world),
    foldM (resample_tc choice_oracle random_oracle fuel num_paths replace_mode)
          tcs st w = (Ok st', w') ->
    sa_pptc st' = sa_pptc st.
Proof.
  induction tcs as [|tc rest IH]; intros st w st' w' Hrun; cbn [foldM] in Hrun.
  - injection Hrun as <- _. reflexivity.
  - apply bind_ok in Hrun as (st1 & w1 & Hstep & Hrun).
    rewrite (IH _ _ _ _ Hrun). eapply resample_tc_pptc, Hstep.
Qed.

Lemma feasibility_loop_log
    (choice_oracle : nat -> list nat -> nat -> list nat)
    (random_oracle : nat -> Qc) (solver_is_solved : list solver_call -> bool)
    (solver_get_time : list solver_call -> Qc) (fuel : nat) (topo : Topology)
    (cfg : NetworkConfig) (fairness : Fairness) (em : EpochComposition)
    (num_paths max_iter replace_mode : Z) (turns : nat) :
  forall (k : Z) (opt : Opt) (t : Qc) (st : sa_state) (w : world) r w',
    feasibility_loop choice_oracle random_oracle solver_is_solved solver_get_time
                     turns fuel topo cfg fairness em num_paths max_iter
                     replace_mode k opt t st w = (r, w') ->
    (exists added,
       solver_log w' = solver_log w ++ added
       /\ Forall (fun oc => oc.2 = Solve
                            \/ oc.2 = Compose (sa_pptc st) topo cfg fairness em)
                 added)
    /\ match r with
       | Ok (_, _, _, st') => sa_pptc st' = sa_pptc st
       | Raise _ => True
       end.
Proof.
  induction turns as [|turns IH]; intros k opt t st w r w' Hrun;
    cbn [feasibility_loop] in Hrun; unfold bind at 1, opt_is_solved in Hrun;
    destruct (negb (solver_is_solved (history opt w)) && (k <=? max_iter)).
  - injection Hrun as <- <-. split; [|exact I].
    exists []. split; [now rewrite app_nil_r | constructor].
  - injection Hrun as <- <-. split; [|reflexivity].
    exists []. split; [now rewrite app_nil_r | constructor].
  - unfold bind at 1 in Hrun.
    pose proof (keeps_log_foldM
                  (resample_tc choice_oracle random_oracle fuel num_paths replace_mode)
                  (pptc.tcs (sa_pptc st))
                  (keeps_log_resample_tc choice_oracle random_oracle fuel num_paths
                                         replace_mode) st w) as Hlog.
    destruct (foldM _ (pptc.tcs (sa_pptc st)) st w) as [[st1|e] w1] eqn:Hfold.
    + pose proof (foldM_resample_pptc _ _ _ _ _ _ _ _ _ _ Hfold) as Hpptc.
      cbn [snd] in Hlog.
      unfold bind at 1, compose_apps in Hrun.
      unfold bind at 1, solver_do in Hrun.
      unfold bind at 1, opt_get_time in Hrun.
      apply IH in Hrun as [(added & Hadded & Hall) Hres].
      cbn [solver_log] in Hadded. split.
      * exists ([(length (solver_log w1),
                  Compose (sa_pptc st1) topo cfg fairness em);
                 (length (solver_log w1), Solve)] ++ added).
        split.
        -- rewrite Hadded, Hlog, <- !app_assoc. reflexivity.
        -- constructor; [right; cbn; now rewrite Hpptc|].
           constructor; [left; reflexivity|].
           rewrite <- Hpptc. exact Hall.
      * destruct r as [[[[k' opt'] t'] st']|e]; [|exact I]. congruence.
    + injection Hrun as <- <-. cbn [snd] in Hlog. split; [|exact I].
      exists []. split; [now rewrite app_nil_r | constructor].
  - injection Hrun as <- <-. split; [|reflexivity].
    exists []. split; [now rewrite app_nil_r | constructor].
Qed.

(** X14. Whatever the modes and the generators, the loop that looks for a
    first feasible state makes no call on the solver but [compose_apps] and
    [solve], and every problem it composes is the container it started
    with: the arrays it resamples are those of [explored], and it never
    installs one of them as a mask of the paths. The container is also
    unchanged when the loop returns. *)
Theorem feasibility_loop_same_problem
    (choice_oracle : nat -> list nat -> nat -> list nat)
    (random_oracle : nat -> Qc) (solver_is_solved : list solver_call -> bool)
    (solver_get_time : list solver_call -> Qc) (fuel : nat) (topo : Topology)
    (cfg : NetworkConfig) (fairness : Fairness) (em : EpochComposition)
    (num_paths max_iter replace_mode : Z) (turns : nat)
    (k : Z) (opt : Opt) (t : Qc) (st : sa_state) (w : world) :
  (exists added,
     solver_log (feasibility_loop choice_oracle random_oracle solver_is_solved
                                  solver_get_time turns fuel topo cfg fairness em
                                  num_paths max_iter replace_mode k opt t st w).2
     = solver_log w ++ added
     /\ Forall (fun oc => oc.2 = Solve
                          \/ oc.2 = Compose (sa_pptc st) topo cfg fairness em)
               added)
  /\ match (feasibility_loop choice_oracle random_oracle solver_is_solved
                             solver_get_time turns fuel topo cfg fairness em
                             num_paths max_iter replace_mode k opt t st w).1 with
     | Ok (_, _, _, st') => sa_pptc st' = sa_pptc st
     | Raise _ => True
     end.
Proof.
  destruct (feasibility_loop choice_oracle random_oracle solver_is_solved
                             solver_get_time turns fuel topo cfg fairness em
                             num_paths max_iter replace_mode k opt t st w)
    as [r w'] eqn:Hrun.
  apply feasibility_loop_log in Hrun. exact Hrun.
Qed.

(** ** [select_sa] when the first problem has no solution *)

Lemma put_length (idxs : list nat) (v : Z) :
  forall a a' : ndarray, np.put idxs v a = Ok a' -> length a' = length a.
Proof.
  induction idxs as [|i rest IH]; intros a a' Hput; cbn [np.put] in Hput.
  - now injection Hput as <-.
  - case_decide; [|discriminate Hput].
    rewrite (IH _ _ Hput). apply length_insert.
Qed.

Lemma all_of_length_shapes (h h' : list ndarray) (n : nat) (refs : list ref) :
  length <$> h = length <$> h' ->
  all_of_length h n refs -> all_of_length h' n refs.
Proof.
  intros Hshape Hall x Hx. destruct (Hall x Hx) as (mx & Hmx & Hlen).
  unfold ref in *.
  assert ((length <$> h') !! x = Some n) as Hx'.
  { rewrite <- Hshape, list_lookup_fmap, Hmx. cbn. now rewrite Hlen. }
  rewrite list_lookup_fmap in Hx'. destruct (h' !! x) as [mx'|]; [|discriminate].
  exists mx'. split; [reflexivity|]. cbn in Hx'. congruence.
Qed.

Lemma shapes_insert (h : list ndarray) (r : ref) (m m' : ndarray) :
  h !! r = Some m -> length m' = length m ->
  length <$> <[r := m']> h = length <$> h.
Proof.
  intros Hm Hlen. unfold ref in *.
  rewrite list_fmap_insert, Hlen. apply list_insert_id.
  now rewrite list_lookup_fmap, Hm.
Qed.

(** One traffic class of the feasibility phase in mode [next_sorted], for
    any [num_paths]: the array is appended again and keeps its length. *)
Lemma resample_tc_next_sorted_shape
    (choice_oracle : nat -> list nat -> nat -> list nat)
    (random_oracle : nat -> Qc) (fuel : nat) (num_paths : Z) (st : sa_state)
    (tc : TrafficClass) (w : world) (refs : list ref) (r : ref) (m : ndarray)
    (tree : option PathTree) :
  choice_spec choice_oracle ->
  sa_explored st !! ID tc = Some refs ->
  last refs = Some r ->
  sa_pathtrees st !! ID tc = Some tree ->
  heap w !! r = Some m ->
  all_of_length (heap w) (length m) refs ->
  exists m' d,
    resample_tc choice_oracle random_oracle fuel num_paths
                ReplaceMode_next_sorted st tc w
    = (Ok (mkSA (<[ID tc := refs ++ [r]]> (sa_explored st))
                (<[ID tc := tree]> (sa_pathtrees st))
                (sa_bestpaths st) (sa_pptc st)),
       mkWorld (<[r := m']> (heap w)) d (py_draws w) (ticks w) (solver_log w))
    /\ length m' = length m.
Proof.
  intros Hspec Hrefs Hlast Htree Hm Hshape.
  destruct (decide (0 < num_paths <= Z.of_nat (length m))) as [Hk|Hk].
  - destruct (resample_tc_next_sorted_run choice_oracle random_oracle fuel num_paths
                st tc w refs r m tree Hspec Hrefs Hlast Htree Hm Hshape Hk)
      as (m' & Hmask & Hrun).
    exists m', (S (np_draws w)). split; [exact Hrun|].
    unfold rand_mask in Hmask. apply put_length in Hmask.
    rewrite Hmask. apply length_replicate.
  - set (n := length m) in *.
    set (w1 := set_heap w (<[r := replicate n 1]> (heap w))).
    assert (r < length (heap w))%nat as Hbound by (eapply lookup_lt_Some, Hm).
    assert (heap w1 !! r = Some (replicate n 1)) as Hones.
    { unfold w1. cbn [heap set_heap]. now apply list_lookup_insert_eq. }
    assert (_expel random_oracle (ID tc) r None ExpelMode_all w = (Ok r, w1)) as Hexpel.
    { unfold _expel. unfold bind at 1. rewrite (load_some r w m Hm).
      unfold bind at 1. reflexivity. }
    unfold resample_tc. unfold bind at 1, dict_get. rewrite Hrefs. unfold ret at 1.
    unfold bind at 1, py_last. rewrite Hlast. unfold ret at 1.
    unfold bind at 1. rewrite Hexpel. unfold bind at 1. rewrite Htree.
    unfold ret at 1. unfold bind at 1.
    unfold _replace. unfold bind at 1. rewrite (load_some r w1 _ Hones).
    rewrite count_zero_ones, unused_of_ones, length_seq, Z.sub_0_r.
    destruct (Z.leb_spec (Z.max 0 num_paths) 0) as [Hle|Hgt].
    + exists (replicate n 1), (np_draws w). split; [reflexivity|].
      apply length_replicate.
    + destruct (Z.ltb_spec (Z.of_nat n) (Z.max 0 num_paths)) as [Hlt|Hge]; [|lia].
      exists (replicate n 0), (np_draws w). split; [|apply length_replicate].
      unfold bind, store, ret, w1, set_heap.
      cbn [heap np_draws py_draws ticks solver_log].
      now rewrite length_replicate, list_insert_insert_eq.
Qed.

Lemma resample_tc_next_sorted_total
    (choice_oracle : nat -> list nat -> nat -> list nat)
    (random_oracle : nat -> Qc) (fuel : nat) (num_paths : Z) (st : sa_state)
    (tc : TrafficClass) (w : world) :
  choice_spec choice_oracle ->
  explored_ready (sa_explored st) (heap w) ->
  has_keys st tc ->
  exists st' w',
    resample_tc choice_oracle random_oracle fuel num_paths
                ReplaceMode_next_sorted st tc w = (Ok st', w')
    /\ explored_ready (sa_explored st') (heap w')
    /\ (forall tc', has_keys st tc' -> has_keys st' tc')
    /\ sa_pptc st' = sa_pptc st
    /\ solver_log w' = solver_log w.
Proof.
  intros Hspec Hready [[refs Hrefs] [tree Htree]].
  destruct (Hready _ _ Hrefs) as (r & m & Hlast & Hm & Hshape).
  destruct (resample_tc_next_sorted_shape choice_oracle random_oracle fuel
              num_paths st tc w refs r m tree Hspec Hrefs Hlast Htree Hm Hshape)
    as (m' & d & Hrun & Hlen).
  assert (length <$> <[r := m']> (heap w) = length <$> heap w) as Hsh
    by (eapply shapes_insert; eassumption).
  assert (r < length (heap w))%nat as Hbound by (eapply lookup_lt_Some, Hm).
  eexists. eexists. split; [exact Hrun|].
  cbn [sa_explored sa_pathtrees sa_pptc heap solver_log].
  split; [|split; [|split; reflexivity]].
  - intros id refs' Hlook. destruct (decide (id = ID tc)) as [->|Hne].
    + rewrite lookup_insert_eq in Hlook. injection Hlook as <-.
      exists r, m'. split; [apply last_snoc|].
      split; [now apply list_lookup_insert_eq|].
      rewrite Hlen. intros x Hx. apply elem_of_app in Hx as [Hx|Hx].
      * apply (all_of_length_shapes (heap w) _ _ refs (eq_sym Hsh) Hshape x Hx).
      * apply list_elem_of_singleton in Hx as ->. exists m'.
        split; [now apply list_lookup_insert_eq | exact Hlen].
    + rewrite lookup_insert_ne in Hlook by congruence.
      destruct (Hready _ _ Hlook) as (r0 & m0 & Hl0 & Hm0 & Hs0).
      pose proof (all_of_length_shapes (heap w) _ _ refs' (eq_sym Hsh) Hs0) as Hs0'.
      assert (r0 ∈ refs') as Hr0.
      { apply last_Some in Hl0 as [l' ->]. apply elem_of_app. right. left. }
      destruct (Hs0' r0 Hr0) as (m0' & Hm0' & Hlen0).
      exists r0, m0'. split; [exact Hl0|]. split; [exact Hm0'|].
      now rewrite Hlen0.
  - intros tc' [H1 H2]. unfold has_keys. cbn [sa_explored sa_pathtrees]. split.
    + destruct (decide (ID tc = ID tc')) as [<-|Hne].
      * rewrite lookup_insert_eq. eauto.
      * now rewrite lookup_insert_ne.
    + destruct (decide (ID tc = ID tc')) as [<-|Hne].
      * rewrite lookup_insert_eq. eauto.
      * now rewrite lookup_insert_ne.
Qed.

Lemma foldM_resample_next_sorted
    (choice_oracle : nat -> list nat -> nat -> list nat)
    (random_oracle : nat -> Qc) (fuel : nat) (num_paths : Z)
    (tcs : list TrafficClass) :
  choice_spec choice_oracle ->
  forall (st : sa_state) (w : world),
    explored_ready (sa_explored st) (heap w) ->
    Forall (has_keys st) tcs ->
    exists st' w',
      foldM (resample_tc choice_oracle random_oracle fuel num_paths
                         ReplaceMode_next_sorted) tcs st w = (Ok st', w')
      /\ explored_ready (sa_explored st') (heap w')
      /\ (forall tc', has_keys st tc' -> has_keys st' tc')
      /\ sa_pptc st' = sa_pptc st
      /\ solver_log w' = solver_log w.
Proof.
  intros Hspec. induction tcs as [|tc rest IH]; intros st w Hready Hkeys.
  - exists st, w. split; [reflexivity|]. split; [exact Hready|]. auto.
  - apply Forall_cons in Hkeys as [Htc Hrest].
    destruct (resample_tc_next_sorted_total choice_oracle random_oracle fuel
                num_paths st tc w Hspec Hready Htc)
      as (st1 & w1 & Hstep & Hready1 & Hkeys1 & Hp1 & Hlog1).
    destruct (IH st1 w1 Hready1) as (st' & w' & Hfold & Hready' & Hkeys' & Hp' & Hlog').
    { eapply Forall_impl; [exact Hrest|]. intros x Hx. apply Hkeys1, Hx. }
    exists st', w'. split.
    { cbn [foldM]. unfold bind. rewrite Hstep. exact Hfold. }
    split; [exact Hready'|]. split; [auto|]. split; congruence.
Qed.

Lemma filter_fresh_handle (log : list (Opt * solver_call)) :
  log_wf log ->
  filter (fun oc : Opt * solver_call => oc.1 = length log) log = [].
Proof.
  intros Hwf. apply filter_none. intros oc Hoc Heq.
  unfold log_wf in Hwf. rewrite Forall_forall in Hwf.
  specialize (Hwf oc Hoc). cbn beta in Hwf. unfold Opt in *. lia.
Qed.

Lemma log_wf_app (log extra : list (Opt * solver_call)) :
  log_wf log ->
  Forall (fun oc => (oc.1 < length log + length extra)%nat) extra ->
  log_wf (log ++ extra).
Proof.
  unfold log_wf. intros Hwf Hextra. rewrite length_app.
  apply Forall_app. split; [|exact Hextra].
  eapply Forall_impl; [exact Hwf|]. cbn. intros oc Hoc. lia.
Qed.

(** The loop that looks for a first feasible state, in mode [next_sorted],
    when the solver finds no solution of the problem made from the
    container [P]: it gives up with [k > max_iter]. *)
Lemma feasibility_loop_unsolved
    (choice_oracle : nat -> list nat -> nat -> list nat)
    (random_oracle : nat -> Qc) (solver_is_solved : list solver_call -> bool)
    (solver_get_time : list solver_call -> Qc) (fuel : nat) (topo : Topology)
    (cfg : NetworkConfig) (fairness : Fairness) (em : EpochComposition)
    (num_paths max_iter : Z) (P : PPTC) :
  choice_spec choice_oracle ->
  (forall h, solver_is_solved (Compose P topo cfg fairness em :: h) = false) ->
  forall (turns : nat) (k : Z) (opt : Opt) (t : Qc) (st : sa_state) (w : world),
    sa_pptc st = P ->
    explored_ready (sa_explored st) (heap w) ->
    Forall (has_keys st) (pptc.tcs P) ->
    log_wf (solver_log w) ->
    (exists h, history opt w = Compose P topo cfg fairness em :: h) ->
    (Z.to_nat (max_iter + 1 - k) <= turns)%nat ->
    exists k' opt' t' st' w',
      feasibility_loop choice_oracle random_oracle solver_is_solved solver_get_time
                       turns fuel topo cfg fairness em num_paths max_iter
                       ReplaceMode_next_sorted k opt t st w
      = (Ok (k', opt', t', st'), w')
      /\ max_iter < k'.
Proof.
  intros Hspec Hinf.
  induction turns as [|turns IH]; intros k opt t st w Hp Hready Hkeys Hwf [h Hh] Hturns;
    cbn [feasibility_loop]; unfold bind at 1, opt_is_solved; rewrite Hh, Hinf;
    cbn [negb andb]; destruct (Z.leb_spec k max_iter) as [Hle|Hgt].
  - lia.
  - do 5 eexists. split; [reflexivity | lia].
  - rewrite Hp.
    destruct (foldM_resample_next_sorted choice_oracle random_oracle fuel num_paths
                (pptc.tcs P) Hspec st w Hready Hkeys)
      as (st1 & w1 & Hfold & Hready1 & Hkeys1 & Hp1 & Hlog1).
    unfold bind at 1. rewrite Hfold.
    unfold bind at 1, compose_apps. unfold bind at 1, solver_do.
    unfold bind at 1, opt_get_time.
    rewrite <- Hlog1 in Hwf.
    apply IH.
    + congruence.
    + exact Hready1.
    + eapply Forall_impl; [exact Hkeys|]. intros x Hx. apply Hkeys1, Hx.
    + cbn [solver_log]. rewrite <- app_assoc. apply log_wf_app; [exact Hwf|].
      cbn [app length]. repeat constructor; cbn; lia.
    + exists [Solve]. unfold history. cbn [solver_log].
      rewrite !filter_app, (filter_fresh_handle _ Hwf).
      rewrite !filter_cons, !decide_True by reflexivity.
      rewrite Hp1, Hp. reflexivity.
    + lia.
  - do 5 eexists. split; [reflexivity | lia].
Qed.

Lemma seed_explored_fold (inds : gmap Z (list nat)) (tcs : list TrafficClass) :
  forall (acc : gmap Z (list ref)) (w : world),
    Forall (fun tc => is_Some (inds !! ID tc)) tcs ->
    explored_ready acc (heap w) ->
    exists ex w',
      foldM (seed_explored inds) tcs acc w = (Ok ex, w')
      /\ explored_ready ex (heap w')
      /\ solver_log w' = solver_log w
      /\ (forall id, is_Some (acc !! id) -> is_Some (ex !! id))
      /\ Forall (fun tc => is_Some (ex !! ID tc)) tcs.
Proof.
  induction tcs as [|tc rest IH]; intros acc w Hkeys Hready.
  - exists acc, w. repeat split; auto.
  - apply Forall_cons in Hkeys as [[ind Hind] Hrest].
    set (r := length (heap w)).
    set (a := map Z.of_nat ind).
    set (w1 := mkWorld (heap w ++ [a]) (np_draws w) (py_draws w) (ticks w)
                       (solver_log w)).
    assert (seed_explored inds acc tc w = (Ok (<[ID tc := [r]]> acc), w1)) as Hstep.
    { unfold seed_explored, bind, dict_get. rewrite Hind. reflexivity. }
    destruct (IH (<[ID tc := [r]]> acc) w1 Hrest)
      as (ex & w' & Hfold & Hready' & Hlog & Hmono & Hall).
    { intros id refs Hlook. cbn [heap w1]. unfold w1. cbn [heap].
      destruct (decide (id = ID tc)) as [->|Hne].
      - rewrite lookup_insert_eq in Hlook. injection Hlook as <-.
        exists r, a. split; [reflexivity|].
        split; [now apply list_lookup_middle|].
        intros x Hx. apply list_elem_of_singleton in Hx as ->.
        exists a. split; [now apply list_lookup_middle | reflexivity].
      - rewrite lookup_insert_ne in Hlook by congruence.
        destruct (Hready _ _ Hlook) as (r0 & m0 & Hl0 & Hm0 & Hs0).
        exists r0, m0. split; [exact Hl0|].
        split; [now apply lookup_app_l_Some|].
        intros x Hx. destruct (Hs0 x Hx) as (mx & Hmx & Hlen).
        exists mx. split; [now apply lookup_app_l_Some | exact Hlen]. }
    exists ex, w'. split.
    { cbn [foldM]. unfold bind. rewrite Hstep. exact Hfold. }
    split; [exact Hready'|]. split; [exact Hlog|]. split.
    + intros id Hid. apply Hmono. destruct (decide (ID tc = id)) as [<-|Hne].
      * rewrite lookup_insert_eq. eauto.
      * now rewrite lookup_insert_ne.
    + constructor; [|exact Hall]. apply Hmono. rewrite lookup_insert_eq. eauto.
Qed.

Lemma foldl_none_keys (p : PPTC) :
  forall (acc : gmap Z (option PathTree)) (id : Z),
    id ∈ map (fun e => ID (entry_tc e)) p \/ is_Some (acc !! id) ->
    is_Some (foldl (fun acc e => <[ID (entry_tc e) := None]> acc) acc p !! id).
Proof.
  induction p as [|e rest IH]; intros acc id Hid; cbn [foldl].
  - destruct Hid as [Hid|Hid]; [|exact Hid]. apply elem_of_nil in Hid. contradiction.
  - apply IH. cbn [map] in Hid. destruct (decide (ID (entry_tc e) = id)) as [<-|Hne].
    + right. rewrite lookup_insert_eq. eauto.
    + destruct Hid as [Hid|Hid].
      * apply elem_of_cons in Hid as [Hid|Hid]; [congruence | now left].
      * right. now rewrite lookup_insert_ne.
Qed.

Lemma k_shortest_paths_keys argsort (p : PPTC) (k : Z) (rm : bool) :
  forall (p' : PPTC) (inds : gmap Z (list nat)),
    k_shortest_paths argsort p k rm = Ok (p', inds) ->
    Forall (fun tc => is_Some (inds !! ID tc)) (pptc.tcs p').
Proof.
  induction p as [|e rest IH]; intros p' inds Hrun.
  - injection Hrun as <- <-. constructor.
  - cbn [k_shortest_paths] in Hrun.
    apply res_bind_ok in Hrun as ([e' ind] & He & Hrun).
    apply res_bind_ok in Hrun as ([rest' inds'] & Hrest & Hrun).
    injection Hrun as <- <-.
    apply k_shortest_paths_tc_paths in He as [_ Htc].
    cbn [pptc.tcs map]. constructor.
    + apply lookup_union_is_Some. right. rewrite Htc, lookup_singleton_eq. eauto.
    + eapply Forall_impl; [apply (IH _ _ Hrest)|].
      intros tc Htc'. apply lookup_union_is_Some. now left.
Qed.

(** X15. In mode [next_sorted], when the solver finds no solution of the
    problem made from the [num_paths] shortest paths, [select_sa] cannot
    recover: the loop that looks for a first feasible state resamples the
    arrays of [explored] only, composes the same problem [max_iter + 1]
    more times and then raises [SOLException]. No other exception comes
    out of the resampling. *)
Theorem select_sa_infeasible_start
    (argsort : forall K : Type, (K -> K -> bool) -> list K -> list nat)
    (choice_oracle : nat -> list nat -> nat -> list nat)
    (random_oracle clock : nat -> Qc)
    (solver_is_solved : list solver_call -> bool)
    (solver_get_time solver_get_solved_objective : list solver_call -> Qc)
    (solver_get_xps : list solver_call -> xps_t) (num_paths_default_all : bool)
    (fuel : nat) (apps : list App) (topo : Topology) (cfg : NetworkConfig)
    (num_paths max_iter : Z) (tstart c : Qc) (fairness : Fairness)
    (em : EpochComposition) (expel_mode : Z) (debug : bool) (w : world) :
  argsort_spec argsort ->
  choice_spec choice_oracle ->
  0 <= num_paths ->
  pptc.merge (map app_pptc apps) <> [] ->
  log_wf (solver_log w) ->
  (forall p' inds h,
     k_shortest_paths argsort (pptc.merge (map app_pptc apps)) num_paths true
     = Ok (p', inds) ->
     solver_is_solved (Compose p' topo cfg fairness em :: h) = false) ->
  exists msg w',
    select_sa argsort choice_oracle random_oracle clock solver_is_solved
              solver_get_time solver_get_solved_objective solver_get_xps
              num_paths_default_all fuel apps topo cfg num_paths max_iter
              tstart c fairness em expel_mode ReplaceMode_next_sorted debug w
    = (Raise (SOLException msg), w').
Proof.
  intros Hargsort Hchoice Hk Hne Hwf Hinf.
  set (all := pptc.merge (map app_pptc apps)) in *.
  pose proof (k_shortest_paths_ok argsort all num_paths true Hargsort Hk) as Hok.
  destruct (k_shortest_paths argsort all num_paths true) as [[p' inds]|err] eqn:Hsorted;
    [clear Hok | discriminate Hok].
  specialize (Hinf p' inds).
  assert (forall h, solver_is_solved (Compose p' topo cfg fairness em :: h) = false)
    as Hunsolved by (intros h; now apply Hinf).
  clear Hinf.
  set (w1 := mkWorld (heap w) (np_draws w) (py_draws w) (S (ticks w)) (solver_log w)).
  destruct (seed_explored_fold inds (pptc.tcs p') ∅ w1)
    as (explored & w2 & Hseed & Hready & Hlog2 & _ & Hkeys_ex).
  { eapply k_shortest_paths_keys, Hsorted. }
  { intros id refs Hlook. rewrite lookup_empty in Hlook. discriminate Hlook. }
  set (pathtrees := foldl (fun (acc : gmap Z (option PathTree)) e =>
                             <[ID (entry_tc e) := None]> acc) ∅ p').
  set (bestpaths := foldl (fun (acc : gmap Z (option ref)) e =>
                             <[ID (entry_tc e) := None]> acc) ∅ p').
  set (st := mkSA explored pathtrees bestpaths p').
  assert (Forall (has_keys st) (pptc.tcs p')) as Hkeys.
  { apply Forall_forall. intros tc Htc. split.
    - rewrite Forall_forall in Hkeys_ex. apply Hkeys_ex, Htc.
    - unfold st, pathtrees. cbn [sa_pathtrees]. apply foldl_none_keys. left.
      unfold pptc.tcs in Htc. apply list_elem_of_fmap in Htc as (e & -> & He).
      apply list_elem_of_fmap. now exists e. }
  set (o := length (solver_log w2)).
  set (first := (if debug
                 then [(o, Write ("debug/annealing_" +:+ topo_name topo
                                  +:+ "_" +:+ pretty 0))]
                 else []) : list (Opt * solver_call)).
  set (w3 := mkWorld (heap w2) (np_draws w2) (py_draws w2) (ticks w2)
                     (solver_log w2 ++ [(o, Compose p' topo cfg fairness em);
                                        (o, Solve)] ++ first)).
  assert (log_wf (solver_log w2)) as Hwf2 by (rewrite Hlog2; exact Hwf).
  destruct (feasibility_loop_unsolved choice_oracle random_oracle solver_is_solved
              solver_get_time fuel topo cfg fairness em num_paths max_iter p'
              Hchoice Hunsolved (Z.to_nat (max_iter + 1)) 0 o
              (Q2Qc 0 + solver_get_time [Compose p' topo cfg fairness em; Solve])%Qc
              st w3)
    as (k' & opt' & t' & st' & w' & Hloop & Hgave_up).
  { reflexivity. }
  { exact Hready. }
  { exact Hkeys. }
  { unfold w3. cbn [solver_log]. apply log_wf_app; [exact Hwf2|].
    unfold first. destruct debug; cbn [app length]; repeat constructor; cbn;
      unfold o; lia. }
  { unfold history, w3, first, o. cbn [solver_log].
    rewrite filter_app, (filter_fresh_handle _ Hwf2).
    cbn [app]. rewrite !filter_cons, !decide_True by reflexivity.
    cbn [map snd]. eauto. }
  { lia. }
  assert (exists msg w',
            select_sa_run argsort choice_oracle random_oracle clock solver_is_solved
              solver_get_time solver_get_solved_objective solver_get_xps
              num_paths_default_all fuel apps topo cfg num_paths max_iter
              tstart c fairness em expel_mode ReplaceMode_next_sorted debug w
            = (Raise (SOLException msg), w')) as (msg & w'' & Hrun).
  { unfold select_sa_run. fold all.
    destruct all as [|e0 rest0] eqn:Hall; [contradiction|].
    unfold bind at 1, time_time at 1. fold w1.
    unfold bind at 1, lift. rewrite Hsorted. cbn [fst snd].
    unfold bind at 1. rewrite Hseed.
    unfold bind at 1, lift, build_pathtrees.
    rewrite !decide_False by discriminate.
    fold pathtrees. fold bestpaths. fold st.
    unfold bind at 1, compose_apps. fold o.
    cbn [heap np_draws py_draws ticks solver_log].
    unfold bind at 1, solver_do at 1.
    cbn [heap np_draws py_draws ticks solver_log].
    unfold bind at 1. unfold opt_get_time at 1.
    match goal with
    | |- context [history o ?W] =>
        assert (history o W = [Compose p' topo cfg fairness em; Solve]) as Hhist
    end.
    { unfold history, o. cbn [solver_log].
      rewrite !filter_app, (filter_fresh_handle _ Hwf2).
      rewrite !filter_cons, !decide_True by reflexivity. reflexivity. }
    rewrite Hhist.
    unfold bind at 1, when.
    destruct debug.
    - unfold solver_do at 1. cbn [solver_log heap np_draws py_draws ticks].
      unfold bind at 1.
      match goal with
      | |- context [feasibility_loop _ _ _ _ _ _ _ _ _ _ _ _ _ _ _ _ _ ?W] =>
          replace W with w3 by (unfold w3, first; now rewrite <- !app_assoc)
      end.
      rewrite Hloop. destruct (Z.ltb_spec max_iter k') as [_|Hge]; [|lia].
      unfold raise. eauto.
    - unfold ret at 1. unfold bind at 1.
      match goal with
      | |- context [feasibility_loop _ _ _ _ _ _ _ _ _ _ _ _ _ _ _ _ _ ?W] =>
          replace W with w3
            by (unfold w3, first; now rewrite <- !app_assoc, app_nil_r)
      end.
      rewrite Hloop. destruct (Z.ltb_spec max_iter k') as [_|Hge]; [|lia].
      unfold raise. eauto. }
  exists msg, w''. unfold select_sa, bind. rewrite Hrun. reflexivity.
Qed.

Lemma select_sa_infeasible_start_witness :
  exists msg w',
    select_sa stable_argsort prefix_choice (const_random (Q2Qc 0)) tick_clock
              no_solution easy_time easy_objective easy_xps true 0
              [mkApp three_candidates (Q2Qc 1) []] (a_topology "line" 6) a_config
              2 1 (Q2Qc (72 # 100)) (Q2Qc (88 # 100)) WEIGHTED WORST
              ExpelMode_no_flow ReplaceMode_next_sorted false empty_world
    = (Raise (SOLException msg), w').
Proof.
  apply select_sa_infeasible_start.
  - exact stable_argsort_spec.
  - exact scripted_choice_nil_spec.
  - lia.
  - discriminate.
  - constructor.
  - reflexivity.
Defined.

(** ** [PathTree] *)

Lemma PathTree_take_plain (ind : list nat) :
  ind <> [] ->
  forall (n b c : nat),
    PathTree_take n (mkPathTree [(0, ind)] b [c])
    = Ok (map (fun j => nth (j mod length ind) ind O) (seq c n),
          mkPathTree [(0, ind)] (b + n) [(c + n)%nat]).
Proof.
  intros Hne.
  assert (0 < length ind)%nat as Hlen by (destruct ind; [contradiction | cbn; lia]).
  induction n as [|n IH]; intros b c.
  - cbn [PathTree_take seq map]. now rewrite !Nat.add_0_r.
  - cbn [PathTree_take]. unfold PathTree_next at 1.
    cbn [buckets bucket_iter inner_iters length].
    rewrite Nat.mod_1_r. cbn [lookup list_lookup].
    assert (c mod length ind < length ind)%nat as Hc by (apply Nat.mod_upper_bound; lia).
    destruct (lookup_lt_is_Some_2 ind _ Hc) as [i Hi].
    rewrite Hi. cbn [res_bind]. cbn [insert list_insert].
    rewrite IH. cbn [res_bind seq map].
    rewrite (nth_lookup_Some _ _ O _ Hi).
    now rewrite !Nat.add_succ_r.
Qed.

(** X16. A tree over paths of which the first is a plain path has one
    bucket, the order of all the paths by length. Whatever the number of
    calls, [next] raises nothing; call number [j] (from 0) yields entry
    [j mod n] of that order, so the tree proposes the paths from the
    shortest to the longest and then starts over. *)
Theorem PathTree_plain_cycles
    (argsort : forall K : Type, (K -> K -> bool) -> list K -> list nat)
    (nodes : list Z) (rest : list Path) (n : nat) :
  argsort_spec argsort ->
  exists t t',
    PathTree_init argsort (PlainPath nodes :: rest) = Ok t
    /\ PathTree_take n t
       = Ok (map (fun j =>
                    nth (j mod S (length rest))
                        (argsort Z Z.leb
                           (map (fun x => Z.of_nat (path_len x))
                                (PlainPath nodes :: rest))) O)
                 (seq 0 n), t')
    /\ argsort Z Z.leb (map (fun x => Z.of_nat (path_len x)) (PlainPath nodes :: rest))
       ≡ₚ seq 0 (S (length rest)).
Proof.
  intros Hspec.
  set (paths := PlainPath nodes :: rest).
  set (ind := argsort Z Z.leb (map (fun x => Z.of_nat (path_len x)) paths)).
  destruct (Hspec (map (fun x => Z.of_nat (path_len x)) paths)) as [Hperm _].
  fold ind in Hperm. rewrite length_map in Hperm.
  change (length paths) with (S (length rest)) in Hperm.
  assert (length ind = S (length rest)) as Hlen.
  { rewrite (Permutation_length Hperm). apply length_seq. }
  assert (ind <> []) as Hne by (intros Hnil; rewrite Hnil in Hlen; discriminate Hlen).
  exists (mkPathTree [(0, ind)] 0 [O]), (mkPathTree [(0, ind)] (0 + n) [(0 + n)%nat]).
  split; [reflexivity|]. split; [|exact Hperm].
  rewrite (PathTree_take_plain ind Hne n 0 0), Hlen. reflexivity.
Qed.

Lemma PathTree_plain_cycles_witness :
  exists t t',
    PathTree_init stable_argsort
      [PlainPath [0; 1; 2; 3]; PlainPath [0; 3]; PlainPath [0; 2; 3]] = Ok t
    /\ PathTree_take 5 t = Ok ([1; 2; 0; 1; 2]%nat, t').
Proof.
  destruct (PathTree_plain_cycles stable_argsort [0; 1; 2; 3]
              [PlainPath [0; 3]; PlainPath [0; 2; 3]] 5 stable_argsort_spec)
    as (t & t' & Hinit & Htake & _).
  exists t, t'. split; [exact Hinit | exact Htake].
Defined.

Lemma bucket_append_nonempty (m : Z) (pi : nat) (bs : list (Z * list nat)) :
  bucket_append m pi bs <> [].
Proof.
  destruct bs as [|[k v] rest]; cbn [bucket_append]; [discriminate|].
  case_decide; discriminate.
Qed.

Lemma bucket_append_ok (paths : list Path) (m : Z) (pi : nat) (ns ms : list Z) :
  paths !! pi = Some (PathWithMbox ns ms) -> m ∈ ms ->
  forall bs, buckets_ok paths bs -> buckets_ok paths (bucket_append m pi bs).
Proof.
  intros Hpi Hm. induction bs as [|[k v] rest IH]; intros Hok; cbn [bucket_append].
  - intros m' items Hin. apply list_elem_of_singleton in Hin. injection Hin as -> ->.
    split; [discriminate|]. intros i Hi. apply list_elem_of_singleton in Hi as ->.
    eauto.
  - case_decide as Hk.
    + subst k. intros m' items Hin. apply elem_of_cons in Hin as [Hin|Hin].
      * injection Hin as -> ->. split.
        { intros Hnil. apply app_eq_nil in Hnil as [_ Hnil]. discriminate Hnil. }
        intros i Hi. apply elem_of_app in Hi as [Hi|Hi].
        -- destruct (Hok m v ltac:(left)) as [_ Hv]. apply Hv, Hi.
        -- apply list_elem_of_singleton in Hi as ->. eauto.
      * apply Hok. now right.
    + intros m' items Hin. apply elem_of_cons in Hin as [Hin|Hin].
      * apply Hok. rewrite Hin. left.
      * apply IH; [|exact Hin]. intros m'' items' Hin'. apply Hok. now right.
Qed.

Lemma foldl_bucket_append_ok (paths : list Path) (pi : nat) (ns ms : list Z) :
  paths !! pi = Some (PathWithMbox ns ms) ->
  forall (some : list Z) (bs : list (Z * list nat)),
    some ⊆ ms ->
    buckets_ok paths bs ->
    buckets_ok paths (foldl (fun acc m => bucket_append m pi acc) bs some)
    /\ (bs <> [] \/ some <> [] ->
        foldl (fun acc m => bucket_append m pi acc) bs some <> []).
Proof.
  intros Hpi. induction some as [|m rest IH]; intros bs Hsub Hok; cbn [foldl].
  - split; [exact Hok|]. intros [H|H]; [exact H | contradiction].
  - destruct (IH (bucket_append m pi bs)) as [Hok' Hne].
    + intros x Hx. apply Hsub. now right.
    + apply (bucket_append_ok paths m pi ns ms Hpi); [|exact Hok].
      apply Hsub. left.
    + split; [exact Hok'|]. intros _. apply Hne. left. apply bucket_append_nonempty.
Qed.

Lemma fill_buckets_ok (paths : list Path) :
  forall (todo : list Path) (pi : nat) (bs : list (Z * list nat)),
    (forall j p, todo !! j = Some p -> paths !! (pi + j)%nat = Some p) ->
    Forall (fun p => is_Some (mboxes_of p)) todo ->
    buckets_ok paths bs ->
    exists bs',
      fill_buckets todo pi bs = Ok bs'
      /\ buckets_ok paths bs'
      /\ (bs <> [] \/ Exists (fun p => exists ms, mboxes_of p = Some ms /\ ms <> []) todo ->
          bs' <> [])
      /\ (bs = [] -> Forall (fun p => mboxes_of p = Some []) todo -> bs' = []).
Proof.
  induction todo as [|p rest IH]; intros pi bs Hat Hall Hok.
  - exists bs. split; [reflexivity|]. split; [exact Hok|]. split; [|auto].
    intros [H|H]; [exact H|]. apply Exists_nil in H. contradiction.
  - apply Forall_cons in Hall as [[ms0 Hp] Hall].
    destruct p as [ns|ns ms]; [discriminate Hp|]. cbn [fill_buckets].
    assert (paths !! pi = Some (PathWithMbox ns ms)) as Hpi.
    { specialize (Hat O (PathWithMbox ns ms) eq_refl). now rewrite Nat.add_0_r in Hat. }
    destruct (foldl_bucket_append_ok paths pi ns ms Hpi ms bs) as [Hok1 Hne1];
      [set_solver | exact Hok |].
    destruct (IH (S pi) (foldl (fun acc m => bucket_append m pi acc) bs ms))
      as (bs' & Hrun & Hok' & Hne' & Hnil'); [| exact Hall | exact Hok1 |].
    { intros j q Hq. specialize (Hat (S j) q Hq).
      now rewrite Nat.add_succ_r in Hat. }
    exists bs'. split; [exact Hrun|]. split; [exact Hok'|]. split.
    + intros [H|H].
      * apply Hne'. left. apply Hne1. now left.
      * apply Exists_cons in H as [(ms' & Hms' & Hne)|H].
        -- injection Hms' as <-. apply Hne'. left. apply Hne1. now right.
        -- apply Hne'. now right.
    + intros -> Hnone. apply Forall_cons in Hnone as [Hms Hnone].
      injection Hms as ->. cbn [foldl] in Hnil'. now apply Hnil'.
Qed.

Lemma PathTree_next_ok (paths : list Path) (t : PathTree) :
  tree_ok paths t ->
  exists i t',
    PathTree_next t = Ok (i, t')
    /\ tree_ok paths t'
    /\ exists ns ms, paths !! i = Some (PathWithMbox ns ms) /\ ms <> [].
Proof.
  intros (Hne & Hok & Hlen).
  set (nb := length (buckets t)).
  assert (0 < nb)%nat as Hnb.
  { unfold nb. destruct (buckets t); [contradiction | cbn; lia]. }
  assert (bucket_iter t mod nb < nb)%nat as Hidx by (apply Nat.mod_upper_bound; lia).
  destruct (lookup_lt_is_Some_2 (buckets t) _ Hidx) as [[m items] Hbucket].
  destruct (lookup_lt_is_Some_2 (inner_iters t) (bucket_iter t mod nb)) as [c Hc];
    [now rewrite Hlen|].
  destruct (Hok m items) as [Hitems Hpaths].
  { eapply list_elem_of_lookup_2, Hbucket. }
  assert (c mod length items < length items)%nat as Hci.
  { apply Nat.mod_upper_bound. destruct items; [contradiction | cbn; lia]. }
  destruct (lookup_lt_is_Some_2 items _ Hci) as [i Hi].
  exists i, (mkPathTree (buckets t) (S (bucket_iter t))
                        (<[(bucket_iter t mod nb)%nat := S c]> (inner_iters t))).
  split.
  { unfold PathTree_next. fold nb. rewrite Hbucket, Hc, Hi. reflexivity. }
  split.
  { split; [exact Hne|]. split; [exact Hok|]. cbn [inner_iters buckets].
    now rewrite length_insert. }
  destruct (Hpaths i) as (ns & ms & Hpath & Hm).
  { eapply list_elem_of_lookup_2, Hi. }
  exists ns, ms. split; [exact Hpath|]. intros ->. apply elem_of_nil in Hm. contradiction.
Qed.

Lemma PathTree_take_ok (paths : list Path) (n : nat) :
  forall t,
    tree_ok paths t ->
    exists yielded t',
      PathTree_take n t = Ok (yielded, t')
      /\ length yielded = n
      /\ Forall (fun i => exists ns ms,
                            paths !! i = Some (PathWithMbox ns ms) /\ ms <> [])
                yielded.
Proof.
  induction n as [|n IH]; intros t Hok.
  - exists [], t. split; [reflexivity|]. split; [reflexivity | constructor].
  - destruct (PathTree_next_ok paths t Hok) as (i & t1 & Hnext & Hok1 & Hi).
    destruct (IH t1 Hok1) as (rest & t' & Htake & Hlen & Hall).
    exists (i :: rest), t'. split.
    { cbn [PathTree_take]. rewrite Hnext. cbn [res_bind]. rewrite Htake. reflexivity. }
    split; [cbn; now rewrite Hlen|]. constructor; assumption.
Qed.

(** X17. A tree over paths that all list their middleboxes, at least one
    of them having one, never runs dry: any number of calls of [next]
    succeeds, and every index it yields is the index of a path that goes
    through at least one middlebox. A path without middleboxes is in no
    bucket and is never proposed. *)
Theorem PathTree_mbox_yields
    (argsort : forall K : Type, (K -> K -> bool) -> list K -> list nat)
    (paths : list Path) (n : nat) :
  Forall (fun p => is_Some (mboxes_of p)) paths ->
  Exists (fun p => exists ms, mboxes_of p = Some ms /\ ms <> []) paths ->
  exists t yielded t',
    PathTree_init argsort paths = Ok t
    /\ PathTree_take n t = Ok (yielded, t')
    /\ length yielded = n
    /\ Forall (fun i => exists ns ms,
                          paths !! i = Some (PathWithMbox ns ms) /\ ms <> [])
              yielded.
Proof.
  intros Hall Hsome.
  destruct (fill_buckets_ok paths paths 0 []) as (bs & Hfill & Hok & Hne & _).
  { intros j p Hp. exact Hp. }
  { exact Hall. }
  { intros m items Hin. apply elem_of_nil in Hin. contradiction. }
  assert (tree_ok paths (mkPathTree bs 0 (map (fun _ => O) bs))) as Htree.
  { split; [apply Hne; now right|]. split; [exact Hok|]. apply length_map. }
  destruct (PathTree_take_ok paths n _ Htree) as (yielded & t' & Htake & Hlen & Hy).
  exists (mkPathTree bs 0 (map (fun _ => O) bs)), yielded, t'.
  split; [|auto].
  destruct paths as [|p rest]; [apply Exists_nil in Hsome; contradiction|].
  apply Forall_cons in Hall as [[ms Hp] _].
  destruct p as [ns|ns ms']; [discriminate Hp|].
  unfold PathTree_init. rewrite Hfill. reflexivity.
Qed.

Lemma PathTree_mbox_yields_witness :
  exists t yielded t',
    PathTree_init stable_argsort
      [PathWithMbox [0; 1; 3] [1]; PathWithMbox [0; 3] []; PathWithMbox [0; 1; 2; 3] [1; 2]]
    = Ok t
    /\ PathTree_take 4 t = Ok (yielded, t')
    /\ yielded = [0; 2; 2; 2]%nat.
Proof.
  destruct (PathTree_mbox_yields stable_argsort
              [PathWithMbox [0; 1; 3] [1]; PathWithMbox [0; 3] [];
               PathWithMbox [0; 1; 2; 3] [1; 2]] 4)
    as (t & yielded & t' & Hinit & Htake & _).
  - repeat constructor; cbn; eauto.
  - left. exists [1]. split; [reflexivity | discriminate].
  - exists t, yielded, t'. split; [exact Hinit|]. split; [exact Htake|].
    vm_compute in Hinit. injection Hinit as <-.
    vm_compute in Htake. now injection Htake as <- _.
Defined.

(** X18. Over paths that list no middlebox at all, the tree has no
    bucket. Building it succeeds, but the first [next] raises
    [StopIteration]; so [_replace] in mode [pathtree], as soon as it has a
    path to add and enough masked candidates, raises [StopIteration] and
    leaves the mask as it was. *)
Theorem replace_pathtree_no_mboxes
    (argsort : forall K : Type, (K -> K -> bool) -> list K -> list nat)
    (choice_oracle : nat -> list nat -> nat -> list nat)
    (paths : list Path) (fuel : nat) (explored : list ref) (mask : ref)
    (num_paths : Z) (m : ndarray) (w : world) :
  paths <> [] ->
  Forall (fun p => mboxes_of p = Some []) paths ->
  heap w !! mask = Some m ->
  0 < num_paths - np.count_zero m <= Z.of_nat (length (unused_of m)) ->
  exists t,
    PathTree_init argsort paths = Ok t
    /\ PathTree_next t = Raise StopIteration
    /\ _replace choice_oracle (S fuel) explored mask num_paths
                ReplaceMode_pathtree (Some t) w
       = (Raise StopIteration, w).
Proof.
  intros Hne Hnone Hm Hneed.
  destruct (fill_buckets_ok paths paths 0 []) as (bs & Hfill & _ & _ & Hnil).
  { intros j p Hp. exact Hp. }
  { eapply Forall_impl; [exact Hnone|]. intros p Hp. rewrite Hp. eauto. }
  { intros k items Hin. apply elem_of_nil in Hin. contradiction. }
  rewrite (Hnil eq_refl Hnone) in Hfill.
  exists (mkPathTree [] 0 []). split; [|split; [reflexivity|]].
  - destruct paths as [|p rest]; [contradiction|].
    apply Forall_cons in Hnone as [Hp _].
    destruct p as [ns|ns ms]; [discriminate Hp|].
    unfold PathTree_init. rewrite Hfill. reflexivity.
  - unfold _replace. unfold bind at 1. rewrite (load_some mask w m Hm).
    rewrite Z.max_r by lia.
    destruct (Z.leb_spec (num_paths - np.count_zero m) 0) as [Hle|_]; [lia|].
    destruct (Z.ltb_spec (Z.of_nat (length (unused_of m)))
                         (num_paths - np.count_zero m)) as [Hlt|_]; [lia|].
    rewrite !decide_False by discriminate. rewrite decide_True by reflexivity.
    unfold bind at 1, lift. cbn [tree_collect length].
    destruct (Z.ltb_spec (Z.of_nat 0) (num_paths - np.count_zero m)) as [_|Hge];
      [reflexivity | lia].
Qed.

Lemma replace_pathtree_no_mboxes_witness :
  exists t,
    PathTree_init stable_argsort [PathWithMbox [0; 3] []; PathWithMbox [0; 1; 3] []]
    = Ok t
    /\ PathTree_next t = Raise StopIteration
    /\ _replace prefix_choice 1 [O] 1%nat 2 ReplaceMode_pathtree (Some t)
                explored_and_mask
       = (Raise StopIteration, explored_and_mask).
Proof.
  apply (replace_pathtree_no_mboxes stable_argsort prefix_choice
           [PathWithMbox [0; 3] []; PathWithMbox [0; 1; 3] []] 0 [O] 1%nat 2
           [0; 1; 1] explored_and_mask).
  - discriminate.
  - repeat constructor.
  - reflexivity.
  - vm_compute. split; [reflexivity | discriminate].
Defined.

(** ** [select_ilp]: what it returns *)

Lemma history_fresh (log : list (Opt * solver_call)) (calls : list solver_call)
    (h : list ndarray) (a b c : nat) :
  log_wf log ->
  history (length log)
          (mkWorld h a b c (log ++ map (pair (length log)) calls))
  = calls.
Proof.
  intros Hwf. unfold history. cbn [solver_log].
  rewrite filter_app, (filter_fresh_handle _ Hwf). cbn [app].
  rewrite filter_all.
  - rewrite map_map. cbn [snd]. apply map_id.
  - intros oc Hoc. apply list_elem_of_fmap in Hoc as (x & -> & _). reflexivity.
Qed.

(** X19. On a log in which every handle was handed out by [compose_apps],
    [select_ilp] asks the solver, on a new object, to compose, to cap and to
    solve, in this order. It returns exactly when the solver then reports a
    solution, with the chosen paths ([relaxed] left false) and two times:
    the solver's time minus the timestamp read at the start, and the
    solver's time. Otherwise it raises [SOLException] naming the topology.
    The clock is read once, and the solution file is written only in
    debug mode and only after a solution was found. *)
Theorem select_ilp_outcome
    (clock : nat -> Qc) (solver_is_solved : list solver_call -> bool)
    (solver_get_time : list solver_call -> Qc)
    (solver_get_chosen_paths : list solver_call -> bool -> PPTC)
    (apps : list App) (topo : Topology) (cfg : NetworkConfig) (num_paths : Z)
    (debug : bool) (fairness : Fairness) (em : EpochComposition) (w : world) :
  log_wf (solver_log w) ->
  let o := length (solver_log w) in
  let asked := [Compose (pptc.merge (map app_pptc apps)) topo cfg fairness em;
                CapNumPaths ((topo_num_nodes topo - 1) ^ 2 * num_paths);
                Solve] in
  let h := asked ++ (if debug then [Write ("debug/select_ilp_" +:+ topo_name topo)]
                     else []) in
  let h' := h ++ (if debug
                  then [WriteSolution ("debug/select_ilp_solution_" +:+ topo_name topo)]
                  else []) in
  select_ilp clock solver_is_solved solver_get_time solver_get_chosen_paths
             apps topo cfg num_paths debug fairness em w
  = if solver_is_solved h then
      (Ok (o, solver_get_chosen_paths h' false,
           (solver_get_time asked - clock (ticks w))%Qc, solver_get_time h'),
       mkWorld (heap w) (np_draws w) (py_draws w) (S (ticks w))
               (solver_log w ++ map (pair o) h'))
    else
      (Raise (SOLException ("Could not solve path selection problem for topology "
                            +:+ topo_name topo)),
       mkWorld (heap w) (np_draws w) (py_draws w) (S (ticks w))
               (solver_log w ++ map (pair o) h)).
Proof.
  intros Hwf o asked h h'.
  pose proof (fun calls hp a b c => history_fresh (solver_log w) calls hp a b c Hwf)
    as Hhist. fold o in Hhist.
  unfold select_ilp.
  unfold bind at 1, time_time at 1.
  unfold bind at 1, compose_apps at 1. cbn [heap np_draws py_draws ticks solver_log].
  fold o.
  unfold bind at 1, solver_do at 1. cbn [heap np_draws py_draws ticks solver_log].
  unfold bind at 1, solver_do at 1. cbn [heap np_draws py_draws ticks solver_log].
  unfold bind at 1. unfold opt_get_time at 1.
  rewrite <- !app_assoc. cbn [app].
  change [(o, Compose (pptc.merge (map app_pptc apps)) topo cfg fairness em);
          (o, CapNumPaths ((topo_num_nodes topo - 1) ^ 2 * num_paths));
          (o, Solve)]
    with (map (pair o) asked).
  rewrite Hhist.
  unfold bind at 1, when at 1. subst h h'. destruct debug.
  - unfold solver_do at 1. cbn [heap np_draws py_draws ticks solver_log].
    change [(o, Write ("debug/select_ilp_" +:+ topo_name topo))]
      with (map (pair o) [Write ("debug/select_ilp_" +:+ topo_name topo)]).
    rewrite <- !app_assoc, <- map_app.
    unfold bind at 1. unfold opt_is_solved at 1. rewrite Hhist.
    destruct (solver_is_solved _); cbn [negb].
    + unfold bind at 1, when at 1, solver_do at 1.
      cbn [heap np_draws py_draws ticks solver_log].
      change [(o, WriteSolution ("debug/select_ilp_solution_" +:+ topo_name topo))]
        with (map (pair o)
                  [WriteSolution ("debug/select_ilp_solution_" +:+ topo_name topo)]).
      rewrite <- !app_assoc, <- map_app.
      unfold bind, opt_get_chosen_paths, opt_get_time, ret.
      rewrite !Hhist. rewrite <- !app_assoc. reflexivity.
    + reflexivity.
  - unfold ret at 1. rewrite !app_nil_r.
    unfold bind at 1. unfold opt_is_solved at 1. rewrite Hhist.
    destruct (solver_is_solved _); cbn [negb].
    + unfold bind at 1, when at 1, ret at 1.
      unfold bind, opt_get_chosen_paths, opt_get_time, ret.
      rewrite !Hhist. reflexivity.
    + reflexivity.
Qed.

Lemma select_ilp_outcome_witness :
  select_ilp tick_clock no_solution easy_time easy_chosen
             [mkApp three_candidates (Q2Qc 1) []] (a_topology "line" 6) a_config
             2 false WEIGHTED WORST empty_world
  = (Raise (SOLException "Could not solve path selection problem for topology line"),
     mkWorld [] 0 0 1
             [(O, Compose three_candidates (a_topology "line" 6) a_config WEIGHTED WORST);
              (O, CapNumPaths 50); (O, Solve)]).
Proof.
  apply (select_ilp_outcome tick_clock no_solution easy_time easy_chosen
           [mkApp three_candidates (Q2Qc 1) []] (a_topology "line" 6) a_config
           2 false WEIGHTED WORST empty_world).
  constructor.
Defined.

(** ** [cluster_tcs]: what it changes *)

Lemma res_map_length {A B} (f : A -> res B) (l : list A) :
  forall l', res_map f l = Ok l' -> length l' = length l.
Proof.
  induction l as [|x rest IH]; intros l' Hrun; cbn [res_map] in Hrun.
  - now injection Hrun as <-.
  - apply res_bind_ok in Hrun as (y & _ & Hrun).
    apply res_bind_ok in Hrun as (ys & Hys & Hrun).
    injection Hrun as <-. cbn [length]. now rewrite (IH _ Hys).
Qed.

Lemma assign_rows_spec (rows : matrix) (tcs : list TrafficClass) :
  forall (i : nat) (tcs' : list TrafficClass),
    assign_rows tcs i rows = Ok tcs' ->
    Forall2 same_class tcs tcs'
    /\ forall j tc', tcs' !! j = Some tc' -> rows !! (i + j)%nat = Some (volFlows tc').
Proof.
  induction tcs as [|tc rest IH]; intros i tcs' Hrun; cbn [assign_rows] in Hrun.
  - injection Hrun as <-. split; [constructor|]. intros j tc' Hj.
    rewrite lookup_nil in Hj. discriminate Hj.
  - destruct (rows !! i) as [row|] eqn:Hrow; [|discriminate Hrun].
    apply res_bind_ok in Hrun as (rest' & Hrest & Hrun). injection Hrun as <-.
    destruct (IH _ _ Hrest) as [Hsame Hvol]. split.
    + constructor; [repeat split | exact Hsame].
    + intros [|j] tc' Hj; cbn [lookup list_lookup] in Hj.
      * injection Hj as <-. now rewrite Nat.add_0_r.
      * rewrite Nat.add_succ_r. apply (Hvol j tc' Hj).
Qed.

Lemma assign_columns_spec (ncols : nat) (avm : matrix) (tcs : list TrafficClass) :
  forall (i : nat) (tcs' : list TrafficClass),
    assign_columns tcs i ncols avm = Ok tcs' ->
    Forall2 same_class tcs tcs'
    /\ forall j tc', tcs' !! j = Some tc' -> volFlows tc' = column (i + j) avm.
Proof.
  induction tcs as [|tc rest IH]; intros i tcs' Hrun; cbn [assign_columns] in Hrun.
  - injection Hrun as <-. split; [constructor|]. intros j tc' Hj.
    rewrite lookup_nil in Hj. discriminate Hj.
  - case_decide; [|discriminate Hrun].
    apply res_bind_ok in Hrun as (rest' & Hrest & Hrun). injection Hrun as <-.
    destruct (IH _ _ Hrest) as [Hsame Hvol]. split.
    + constructor; [repeat split | exact Hsame].
    + intros [|j] tc' Hj; cbn [lookup list_lookup] in Hj.
      * injection Hj as <-. now rewrite Nat.add_0_r.
      * rewrite Nat.add_succ_r. apply (Hvol j tc' Hj).
Qed.

Lemma transpose_lookup (ncols : nat) (m : matrix) (j : nat) :
  (j < ncols)%nat -> transpose ncols m !! j = Some (column j m).
Proof.
  intros Hj. unfold transpose.
  change (((fun j => column j m) <$> seq 0 ncols) !! j = Some (column j m)).
  rewrite list_lookup_fmap, lookup_seq_lt by exact Hj. reflexivity.
Qed.

(** X20. When [cluster_tcs] returns, the traffic classes are the same, in
    the same order, with the same identifier, priority, source and
    destination; only their volumes are replaced. With "kmeans", class
    [j] gets coordinate [j] of every centre the clustering returned, one
    epoch per centre; with "agg" every class gets [num_clusters] epochs. *)
Theorem cluster_tcs_keeps_classes
    (kmeans_cluster_centers : Z -> matrix -> res matrix)
    (agglomerative_labels : Z -> matrix -> res (list Z))
    (tcs tcs' : list TrafficClass) (num_clusters : Z) (method : string) :
  cluster_tcs kmeans_cluster_centers agglomerative_labels tcs num_clusters method
  = Ok tcs' ->
  Forall2 same_class tcs tcs'
  /\ ((method = "kmeans"
       /\ exists x cc,
            kmeans_cluster_centers num_clusters x = Ok cc
            /\ forall j tc', tcs' !! j = Some tc' ->
                 volFlows tc' = column j cc /\ length (volFlows tc') = length cc)
      \/ (method = "agg"
          /\ Forall (fun tc' => length (volFlows tc') = Z.to_nat num_clusters) tcs')).
Proof.
  unfold cluster_tcs. intros Hrun. repeat case_decide.
  - apply res_bind_ok in Hrun as (cc & Hcc & Hrun).
    apply assign_rows_spec in Hrun as [Hsame Hvol]. split; [exact Hsame|].
    left. split; [assumption|]. eexists. exists cc. split; [exact Hcc|].
    intros j tc' Hj. specialize (Hvol j tc' Hj). cbn [Nat.add] in Hvol.
    assert (j < length tcs)%nat as Hlt.
    { rewrite (Forall2_length _ _ _ Hsame). eapply lookup_lt_Some, Hj. }
    rewrite (transpose_lookup _ _ _ Hlt) in Hvol. injection Hvol as <-.
    split; [reflexivity|]. unfold column. apply length_map.
  - apply res_bind_ok in Hrun as (labels & _ & Hrun).
    apply res_bind_ok in Hrun as (averaged & Havg & Hrun).
    apply res_map_length in Havg. rewrite length_seq in Havg.
    destruct averaged as [|row avm]; [discriminate Hrun|].
    apply assign_columns_spec in Hrun as [Hsame Hvol]. split; [exact Hsame|].
    right. split; [assumption|]. apply Forall_lookup. intros j tc' Hj.
    rewrite (Hvol j tc' Hj). unfold column. now rewrite length_map.
  - discriminate Hrun.
Qed.

Lemma cluster_tcs_keeps_classes_witness :
  Forall2 same_class [a_tc 1; a_tc 2; a_tc 3]
          [set_volFlows (a_tc 1) [Q2Qc 1; Q2Qc 4];
           set_volFlows (a_tc 2) [Q2Qc 2; Q2Qc 5];
           set_volFlows (a_tc 3) [Q2Qc 3; Q2Qc 6]].
Proof.
  apply (cluster_tcs_keeps_classes two_centers no_labels
           [a_tc 1; a_tc 2; a_tc 3]
           [set_volFlows (a_tc 1) [Q2Qc 1; Q2Qc 4];
            set_volFlows (a_tc 2) [Q2Qc 2; Q2Qc 5];
            set_volFlows (a_tc 3) [Q2Qc 3; Q2Qc 6]] 2 "kmeans").
  reflexivity.
Defined.

(** ** The utilities *)

(** X21. [listeq] is equality of lists: the same length and the same
    element at every position, in the same order. *)
Theorem listeq_iff_eq {A} `{EqDecision A} (a b : list A) :
  utils.listeq a b = true <-> a = b.
Proof.
  unfold utils.listeq. revert b. induction a as [|x a IH]; intros [|y b]; cbn.
  - split; reflexivity.
  - split; discriminate.
  - split; discriminate.
  - specialize (IH b). rewrite andb_true_iff in IH |- *.
    rewrite andb_true_iff, bool_decide_eq_true. split.
    + intros (Hlen & Hxy & Hall). f_equal; [exact Hxy|]. apply IH. auto.
    + intros Heq. injection Heq as -> ->.
      destruct (proj2 IH eq_refl) as [Hlen Hall]. auto.
Qed.

Lemma size_list_to_set_le {A} {EqA : EqDecision A} {CountA : Countable A}
    (l : list A) :
  (size (list_to_set l : gset A) <= length l)%nat.
Proof.
  induction l as [|x rest IH]; cbn [list_to_set length].
  - now rewrite size_empty.
  - rewrite size_union_alt, size_singleton.
    assert (size (list_to_set rest ∖ {[x]} : gset A) <= size (list_to_set rest : gset A))%nat
      by (apply subseteq_size; intros y Hy;
          now apply elem_of_difference in Hy as [Hy _]).
    lia.
Qed.

(** X22. [uniq] holds exactly of the lists without repetition. *)
Theorem uniq_iff_NoDup {A} {EqA : EqDecision A} {CountA : Countable A}
    (alist : list A) :
  utils.uniq alist = true <-> NoDup alist.
Proof.
  unfold utils.uniq. rewrite Nat.eqb_eq. split.
  - induction alist as [|x rest IH]; intros Hsize; [constructor|].
    cbn [list_to_set length] in Hsize.
    pose proof (size_list_to_set_le rest) as Hle.
    destruct (decide (x ∈ rest)) as [Hin|Hout].
    + exfalso.
      assert ({[x]} ∪ list_to_set rest = (list_to_set rest : gset A)) as Heq.
      { apply set_eq. intros y.
        rewrite elem_of_union, elem_of_singleton, !elem_of_list_to_set.
        split; [intros [->|Hy]; assumption | auto]. }
      rewrite Heq in Hsize. lia.
    + rewrite size_union, size_singleton in Hsize
        by (apply disjoint_singleton_l; now rewrite elem_of_list_to_set).
      constructor; [exact Hout|]. apply IH. lia.
  - intros Hnd. now apply size_list_to_set.
Qed.

(** ** Strings: [split] and [join] *)

Lemma no_sep_cons (sep c : ascii) (s : string) :
  no_sep sep (String c s) <-> c <> sep /\ no_sep sep s.
Proof.
  unfold no_sep. cbn [String.list_ascii_of_string]. split.
  - intros Hall. split; [apply Hall; left|]. intros d Hd. apply Hall. now right.
  - intros [Hc Hall] d Hd. apply elem_of_cons in Hd as [->|Hd]; auto.
Qed.

Lemma no_sep_check (sep : ascii) (s : string) :
  forallb (fun c => negb (Ascii.eqb c sep)) (String.list_ascii_of_string s) = true ->
  no_sep sep s.
Proof.
  intros Hall c Hc Heq. rewrite forallb_forall in Hall.
  apply list_elem_of_In in Hc. specialize (Hall c Hc).
  rewrite Heq, Ascii.eqb_refl in Hall. discriminate Hall.
Qed.

Lemma split_nonempty (sep : ascii) (s : string) : pystr.split sep s <> [].
Proof.
  destruct s as [|c rest]; cbn [pystr.split]; [discriminate|].
  destruct (Ascii.eqb c sep); [discriminate|].
  destruct (pystr.split sep rest); discriminate.
Qed.

Lemma split_piece (sep : ascii) (x : string) :
  no_sep sep x -> pystr.split sep x = [x].
Proof.
  induction x as [|c x IH]; intros Hx; cbn [pystr.split]; [reflexivity|].
  apply no_sep_cons in Hx as [Hc Hx].
  apply Ascii.eqb_neq in Hc. rewrite Hc, (IH Hx). reflexivity.
Qed.

Lemma split_app_sep (sep : ascii) (x y : string) :
  no_sep sep x ->
  pystr.split sep (x +:+ String sep y) = x :: pystr.split sep y.
Proof.
  induction x as [|c x IH]; intros Hx.
  - change (EmptyString +:+ String sep y) with (String sep y).
    cbn [pystr.split]. now rewrite Ascii.eqb_refl.
  - apply no_sep_cons in Hx as [Hc Hx]. apply Ascii.eqb_neq in Hc.
    change (String c x +:+ String sep y) with (String c (x +:+ String sep y)).
    cbn [pystr.split]. rewrite Hc, (IH Hx). reflexivity.
Qed.

Lemma split_join (sep : ascii) (l : list string) :
  l <> [] -> Forall (no_sep sep) l ->
  pystr.split sep (pystr.join sep l) = l.
Proof.
  induction l as [|x rest IH]; intros Hne Hall; [contradiction|].
  apply Forall_cons in Hall as [Hx Hrest].
  destruct rest as [|y rest].
  - cbn [pystr.join]. now apply split_piece.
  - change (pystr.join sep (x :: y :: rest))
      with (x +:+ String sep (pystr.join sep (y :: rest))).
    rewrite (split_app_sep sep x _ Hx), IH; [reflexivity | discriminate | exact Hrest].
Qed.

Lemma join_split (sep : ascii) (s : string) :
  pystr.join sep (pystr.split sep s) = s.
Proof.
  induction s as [|c rest IH]; [reflexivity|]. cbn [pystr.split].
  destruct (Ascii.eqb_spec c sep) as [->|Hc].
  - pose proof (split_nonempty sep rest) as Hne.
    destruct (pystr.split sep rest) as [|piece pieces]; [contradiction|].
    cbn [pystr.join] in IH |- *. now rewrite IH.
  - pose proof (split_nonempty sep rest) as Hne.
    destruct (pystr.split sep rest) as [|piece pieces]; [contradiction|].
    cbn [pystr.join] in IH |- *. destruct pieces as [|p ps].
    + now rewrite IH.
    + rewrite <- IH. reflexivity.
Qed.

Lemma split_pieces_no_sep (sep : ascii) (s : string) :
  Forall (no_sep sep) (pystr.split sep s).
Proof.
  induction s as [|c rest IH]; cbn [pystr.split].
  - constructor; [|constructor]. intros d Hd. cbn in Hd.
    apply elem_of_nil in Hd. contradiction.
  - destruct (Ascii.eqb_spec c sep) as [->|Hc].
    + constructor; [|exact IH]. intros d Hd. cbn in Hd.
      apply elem_of_nil in Hd. contradiction.
    + destruct (pystr.split sep rest) as [|piece pieces].
      * constructor; [|constructor]. apply no_sep_cons. split; [exact Hc|].
        intros d Hd. cbn in Hd. apply elem_of_nil in Hd. contradiction.
      * apply Forall_cons in IH as [Hpiece Hpieces].
        constructor; [|exact Hpieces]. apply no_sep_cons. auto.
Qed.

Lemma prefix_empty (s : string) : String.prefix EmptyString s = true.
Proof. destruct s; reflexivity. Qed.

Lemma prefix_cons (c : ascii) (x s : string) :
  String.prefix (String c x) (String c s) = String.prefix x s.
Proof. cbn. destruct (ascii_dec c c); [reflexivity | contradiction]. Qed.

Lemma split_head_prefix (sep : ascii) (s : string) :
  forall piece pieces,
    pystr.split sep s = piece :: pieces -> String.prefix piece s = true.
Proof.
  induction s as [|c rest IH]; intros piece pieces Hsplit; cbn [pystr.split] in Hsplit.
  - injection Hsplit as <- _. reflexivity.
  - destruct (Ascii.eqb c sep).
    + injection Hsplit as <- _. reflexivity.
    + destruct (pystr.split sep rest) as [|p ps] eqn:Hrest.
      * injection Hsplit as <- _. rewrite prefix_cons. apply prefix_empty.
      * injection Hsplit as <- _. rewrite prefix_cons. eapply IH. reflexivity.
Qed.

Lemma contains_tail (x : string) (c : ascii) (s : string) :
  pystr.contains x s = true -> pystr.contains x (String c s) = true.
Proof.
  intros Hx. cbn [pystr.contains]. rewrite Hx. apply orb_true_r.
Qed.

Lemma contains_prefix (x s : string) :
  String.prefix x s = true -> pystr.contains x s = true.
Proof. intros Hx. destruct s; cbn [pystr.contains]; now rewrite Hx. Qed.

(** A piece of [s.split(sep)] occurs in [s]. *)
Lemma split_piece_contained (sep : ascii) (s : string) :
  forall x, x ∈ pystr.split sep s -> pystr.contains x s = true.
Proof.
  induction s as [|c rest IH]; intros x Hx; cbn [pystr.split] in Hx.
  - apply list_elem_of_singleton in Hx as ->. reflexivity.
  - destruct (Ascii.eqb c sep).
    + apply elem_of_cons in Hx as [->|Hx].
      * apply contains_prefix, prefix_empty.
      * apply contains_tail, IH, Hx.
    + destruct (pystr.split sep rest) as [|p ps] eqn:Hrest.
      * apply list_elem_of_singleton in Hx as ->.
        apply contains_prefix. rewrite prefix_cons. apply prefix_empty.
      * apply elem_of_cons in Hx as [->|Hx].
        -- apply contains_prefix. rewrite prefix_cons.
           eapply split_head_prefix, Hrest.
        -- apply contains_tail, IH. now right.
Qed.

(** ** The class [Topology] *)

(** X23. Service types round-trip through the graph: after
    [setServiceTypes] with a non-empty list of names that contain no
    semicolon, [getServiceTypes] returns that list. The empty list does
    not come back: it is stored as the empty string, which splits into one
    empty name. The other nodes and the middlebox flag are unchanged. *)
Theorem services_round_trip
    (g : topology.graph) (n : Z) (a : topology.node_attrs) (l : list string) :
  g !! n = Some a ->
  Forall (no_sep ";"%char) l ->
  exists g',
    topology.setServiceTypes g n (topology.AsList l) = Ok g'
    /\ topology.getServiceTypes g' n
       = Ok (match l with [] => [EmptyString] | _ :: _ => l end)
    /\ (forall n', n' <> n -> g' !! n' = g !! n')
    /\ topology.hasMiddlebox g' n = topology.hasMiddlebox g n.
Proof.
  intros Hn Hl.
  exists (<[n := topology.mkAttrs (Some (pystr.join ";"%char l)) (topology.hasMbox a)]> g).
  split; [|split; [|split]].
  - unfold topology.setServiceTypes, topology.store_services. now rewrite Hn.
  - unfold topology.getServiceTypes. rewrite lookup_insert_eq.
    cbn [topology.services]. f_equal. destruct l as [|x rest]; [reflexivity|].
    apply split_join; [discriminate | exact Hl].
  - intros n' Hne. now rewrite lookup_insert_ne.
  - unfold topology.hasMiddlebox. now rewrite lookup_insert_eq, Hn.
Qed.

Lemma services_round_trip_witness :
  exists g',
    topology.setServiceTypes {[1 := topology.mkAttrs None None]} 1
                             (topology.AsList ["switch"; "ids"]) = Ok g'
    /\ topology.getServiceTypes g' 1 = Ok ["switch"; "ids"].
Proof.
  destruct (services_round_trip {[1 := topology.mkAttrs None None]} 1
              (topology.mkAttrs None None) ["switch"; "ids"])
    as (g' & Hset & Hget & _).
  - reflexivity.
  - repeat constructor; apply no_sep_check; reflexivity.
  - exists g'. split; [exact Hset | exact Hget].
Defined.

(** X24. [addServiceType] appends: on a node of the graph, for a name
    without semicolon, the service types afterwards are the service types
    before followed by the new name, or the new name alone when the node
    had no services. A service already listed is listed twice. *)
Theorem addServiceType_appends
    (g : topology.graph) (n : Z) (a : topology.node_attrs) (serviceType : string) :
  g !! n = Some a ->
  no_sep ";"%char serviceType ->
  exists g',
    topology.addServiceType g n serviceType = Ok g'
    /\ topology.getServiceTypes g' n
       = Ok (match topology.getServiceTypes g n with
             | Ok before => before ++ [serviceType]
             | Raise _ => [serviceType]
             end).
Proof.
  intros Hn Ht.
  unfold topology.addServiceType, topology.store_services. rewrite Hn.
  eexists. split; [reflexivity|].
  unfold topology.getServiceTypes. rewrite lookup_insert_eq, Hn.
  cbn [topology.services]. f_equal. destruct (topology.services a) as [s|].
  - apply split_join.
    + intros Hnil. apply app_eq_nil in Hnil as [_ Hnil]. discriminate Hnil.
    + apply Forall_app. split; [apply split_pieces_no_sep|].
      constructor; [exact Ht | constructor].
  - apply split_join; [discriminate|]. constructor; [exact Ht | constructor].
Qed.

Lemma addServiceType_appends_witness :
  exists g',
    topology.addServiceType {[1 := topology.mkAttrs (Some "switch;ids") None]} 1 "ids"
    = Ok g'
    /\ topology.getServiceTypes g' 1 = Ok ["switch"; "ids"; "ids"].
Proof.
  destruct (addServiceType_appends
              {[1 := topology.mkAttrs (Some "switch;ids") None]} 1
              (topology.mkAttrs (Some "switch;ids") None) "ids")
    as (g' & Hadd & Hget).
  - reflexivity.
  - apply no_sep_check. reflexivity.
  - exists g'. split; [exact Hadd | exact Hget].
Defined.

(** X25. The middlebox flag: a node that is not in the graph, or that
    never had the flag set, has no middlebox, while setting the flag of a
    node that is not in the graph raises [KeyError]. On a node of the
    graph [setMiddlebox] succeeds, [hasMiddlebox] then returns the value
    set, and neither the flag of another node nor any service list
    changes. *)
Theorem middlebox_flag (g : topology.graph) (n : Z) (val : bool) :
  match g !! n with
  | None =>
      topology.hasMiddlebox g n = false
      /\ topology.setMiddlebox g n val = Raise KeyError
  | Some a =>
      (topology.hasMbox a = None -> topology.hasMiddlebox g n = false)
      /\ exists g',
           topology.setMiddlebox g n val = Ok g'
           /\ topology.hasMiddlebox g' n = val
           /\ (forall n', n' <> n ->
                 topology.hasMiddlebox g' n' = topology.hasMiddlebox g n')
           /\ (forall n', topology.getServiceTypes g' n' = topology.getServiceTypes g n')
  end.
Proof.
  destruct (g !! n) as [a|] eqn:Hn.
  - split.
    { intros Hflag. unfold topology.hasMiddlebox. now rewrite Hn, Hflag. }
    exists (<[n := topology.mkAttrs (topology.services a) (Some val)]> g).
    split; [|split; [|split]].
    + unfold topology.setMiddlebox. now rewrite Hn.
    + unfold topology.hasMiddlebox. now rewrite lookup_insert_eq.
    + intros n' Hne. unfold topology.hasMiddlebox. now rewrite lookup_insert_ne.
    + intros n'. unfold topology.getServiceTypes.
      destruct (decide (n' = n)) as [->|Hne].
      * now rewrite lookup_insert_eq, Hn.
      * now rewrite lookup_insert_ne.
  - split.
    + unfold topology.hasMiddlebox. now rewrite Hn.
    + unfold topology.setMiddlebox. now rewrite Hn.
Qed.

Lemma filter_length_le {A} (f g : A -> bool) (l : list A) :
  (forall x, f x = true -> g x = true) ->
  (length (List.filter f l) <= length (List.filter g l))%nat.
Proof.
  intros Himp. induction l as [|x rest IH]; cbn [List.filter]; [lia|].
  destruct (f x) eqn:Hf.
  - rewrite (Himp x Hf). cbn [length]. lia.
  - destruct (g x); cbn [length]; lia.
Qed.

(** X26. [getNumNodes] with a service tests whether the name occurs in the
    stored string, not whether it is one of the names between the
    semicolons. Every node that lists the service is counted, and the
    count can be larger: a node whose only service is "idsx" counts as a
    node providing "ids". *)
Theorem getNumNodes_counts_substrings :
  (forall (g : topology.graph) (service : string),
     (listed_count g service <= topology.getNumNodes g (Some service))%nat)
  /\ listed_count {[1 := topology.mkAttrs (Some "idsx") None]} "ids" = O
  /\ topology.getNumNodes {[1 := topology.mkAttrs (Some "idsx") None]} (Some "ids")
     = 1%nat.
Proof.
  split; [|split; reflexivity].
  intros g service. unfold listed_count, topology.getNumNodes.
  apply filter_length_le. intros [n a]. unfold topology.in_services. cbn [snd].
  destruct (topology.services a) as [s|]; [|discriminate].
  intros Hlisted. apply bool_decide_eq_true in Hlisted.
  eapply split_piece_contained, Hlisted.
Qed.

(** ** [k_resource_paths] *)

Section ArgsortAny.

Context {K : Type} (leb : K -> K -> bool) (le : K -> K -> Prop).
Hypothesis leb_le : forall x y, leb x y = true -> le x y.
Hypothesis leb_gt : forall x y, leb x y = false -> le y x.
Hypothesis le_trans : forall x y z, le x y -> le y z -> le x z.

Lemma insert_key_perm_any (x : nat * K) (l : list (nat * K)) :
  insert_key leb x l ≡ₚ x :: l.
Proof.
  induction l as [|y rest IH]; [reflexivity|].
  cbn [insert_key]. destruct (leb x.2 y.2); [reflexivity|].
  rewrite IH. apply perm_swap.
Qed.

Lemma insertion_perm_any (l : list (nat * K)) :
  foldr (insert_key leb) [] l ≡ₚ l.
Proof.
  induction l as [|x rest IH]; [reflexivity|].
  cbn [foldr]. rewrite insert_key_perm_any. now rewrite IH.
Qed.

Lemma insert_key_sorted_any (x : nat * K) (l : list (nat * K)) :
  StronglySorted (fun a b => le a.2 b.2) l ->
  StronglySorted (fun a b => le a.2 b.2) (insert_key leb x l).
Proof.
  induction 1 as [|y rest Hsorted IH Hy].
  - repeat constructor.
  - cbn [insert_key]. destruct (leb x.2 y.2) eqn:Hxy.
    + apply leb_le in Hxy. constructor; [constructor; assumption|].
      constructor; [exact Hxy|].
      eapply Forall_impl; [exact Hy|]. cbn beta. intros z Hz.
      eapply le_trans; eassumption.
    + apply leb_gt in Hxy. constructor; [exact IH|].
      rewrite insert_key_perm_any. constructor; [exact Hxy | exact Hy].
Qed.

Lemma insertion_sorted_any (l : list (nat * K)) :
  StronglySorted (fun a b => le a.2 b.2) (foldr (insert_key leb) [] l).
Proof.
  induction l as [|x rest IH]; [constructor|].
  cbn [foldr]. now apply insert_key_sorted_any.
Qed.

Lemma strongly_sorted_lookup_any (l : list (nat * K)) (i j : nat) (a b : nat * K) :
  StronglySorted (fun a b => le a.2 b.2) l -> (i < j)%nat ->
  l !! i = Some a -> l !! j = Some b -> le a.2 b.2.
Proof.
  intros Hs. revert i j. induction Hs as [|y rest Hsorted IH Hy]; intros i j Hij Hi Hj.
  - rewrite lookup_nil in Hi. discriminate Hi.
  - destruct i as [|i], j as [|j]; cbn [lookup list_lookup] in Hi, Hj.
    + lia.
    + injection Hi as <-. rewrite Forall_forall in Hy.
      apply (Hy b). eapply list_elem_of_lookup_2, Hj.
    + lia.
    + apply (IH i j); [lia | exact Hi | exact Hj].
Qed.

Lemma zip_seq_lookup_any (keys : list K) (a : nat) (x : K) :
  (a, x) ∈ zip (seq 0 (length keys)) keys -> keys !! a = Some x.
Proof.
  intros Hin. apply list_elem_of_lookup in Hin as [i Hi].
  apply lookup_zip_with_Some in Hi as (a' & x' & Heq & Ha & Hx).
  injection Heq as -> ->.
  apply lookup_seq in Ha as [-> _]. exact Hx.
Qed.

Lemma stable_argsort_any (keys : list K) :
  stable_argsort K leb keys ≡ₚ seq 0 (length keys)
  /\ forall i j a b x y,
       (i < j)%nat ->
       stable_argsort K leb keys !! i = Some a ->
       stable_argsort K leb keys !! j = Some b ->
       keys !! a = Some x -> keys !! b = Some y -> le x y.
Proof.
  unfold stable_argsort.
  set (pairs := zip (seq 0 (length keys)) keys).
  split.
  - rewrite insertion_perm_any. unfold pairs.
    rewrite fst_zip; [reflexivity|]. rewrite length_seq. lia.
  - intros i j a b x y Hij Ha Hb Hx Hy.
    rewrite list_lookup_fmap in Ha, Hb.
    destruct (foldr (insert_key leb) [] pairs !! i) as [[a' x']|] eqn:Hi;
      [|discriminate Ha].
    destruct (foldr (insert_key leb) [] pairs !! j) as [[b' y']|] eqn:Hj;
      [|discriminate Hb].
    cbn in Ha, Hb. injection Ha as ->. injection Hb as ->.
    pose proof (strongly_sorted_lookup_any _ i j _ _ (insertion_sorted_any pairs)
                  Hij Hi Hj) as Hle. cbn in Hle.
    assert (keys !! a = Some x') as Hx'.
    { apply zip_seq_lookup_any. fold pairs. rewrite <- (insertion_perm_any pairs).
      eapply list_elem_of_lookup_2, Hi. }
    assert (keys !! b = Some y') as Hy'.
    { apply zip_seq_lookup_any. fold pairs. rewrite <- (insertion_perm_any pairs).
      eapply list_elem_of_lookup_2, Hj. }
    congruence.
Qed.

End ArgsortAny.

Lemma stable_argsort_scores_spec : argsort_scores_spec stable_argsort.
Proof.
  intros scores.
  destruct (stable_argsort_any Qcleb Qcle) with (keys := scores) as [Hperm Hasc].
  - intros x y Hxy. now apply Qcleb_le.
  - intros x y Hxy. apply Qclt_le_weak, Qcnot_le_lt. intros Hle.
    apply Qcleb_le in Hle. congruence.
  - intros x y z. apply Qcle_trans.
  - split; [exact Hperm|]. intros i j a b x y Hij Ha Hb Hx Hy.
    destruct (decide (i = j)) as [->|Hne].
    + assert (a = b) as -> by congruence.
      assert (x = y) as -> by congruence. apply Qcle_refl.
    + apply (Hasc i j a b); [lia | assumption..].
Qed.

(** The mask made from an order of the [n] candidates: ones, with zeros at
    the first [c] indices of the order. *)
Lemma order_mask_spec (ind : list nat) (n c : nat) :
  ind ≡ₚ seq 0 n -> (c <= n)%nat ->
  exists m,
    np.put (take c ind) 0 (np.ones n) = Ok m
    /\ length m = n
    /\ (forall i, i ∈ take c ind -> m !! i = Some 0)
    /\ (forall i, (i < n)%nat -> i ∉ take c ind -> m !! i = Some 1)
    /\ (forall i, m !! i = Some 0 -> i ∈ take c ind)
    /\ length (filter (fun i => m !! i = Some 0) (seq 0 (length m))) = c.
Proof.
  intros Hperm Hc.
  assert (length ind = n) as Hlen_ind.
  { rewrite (Permutation_length Hperm). apply length_seq. }
  assert (forall i, i ∈ take c ind -> (i < n)%nat) as Hrange.
  { intros i Hi. apply elem_of_take in Hi as (pos & Hpos & _).
    apply list_elem_of_lookup_2 in Hpos. rewrite Hperm in Hpos.
    apply elem_of_seq in Hpos. lia. }
  destruct (put_spec (take c ind) 0 (np.ones n)) as (m & Hput & Hlen & Hlook).
  { apply Forall_forall. intros i Hi. unfold np.ones.
    rewrite length_replicate. apply (Hrange i Hi). }
  unfold np.ones in Hlen. rewrite length_replicate in Hlen.
  assert (forall i, i ∈ take c ind -> m !! i = Some 0) as Hvis.
  { intros i Hi. rewrite Hlook. now rewrite decide_True. }
  assert (forall i, (i < n)%nat -> i ∉ take c ind -> m !! i = Some 1) as Hmasked.
  { intros i Hi Hni. rewrite Hlook, decide_False by exact Hni.
    now apply lookup_replicate_2. }
  assert (forall i, m !! i = Some 0 -> i ∈ take c ind) as Hvis_inv.
  { intros i Hi. destruct (decide (i ∈ take c ind)) as [|Hni]; [assumption|].
    rewrite Hmasked in Hi; [discriminate Hi | | exact Hni].
    apply lookup_lt_Some in Hi. lia. }
  exists m. repeat split; try assumption.
  rewrite Hlen.
  transitivity (length (take c ind)); [|apply length_take_le; lia].
  apply Permutation_length, NoDup_Permutation.
  - apply NoDup_filter, NoDup_seq.
  - eapply sublist_NoDup; [|apply sublist_take].
    rewrite Hperm. apply NoDup_seq.
  - intros i. rewrite list_elem_of_filter, elem_of_seq. split.
    + intros [Hi _]. apply Hvis_inv, Hi.
    + intros Hi. split; [apply Hvis, Hi|]. specialize (Hrange i Hi). lia.
Qed.

Lemma res_map_ok {A B} (f : A -> res B) (g : A -> B) (l : list A) :
  Forall (fun x => f x = Ok (g x)) l -> res_map f l = Ok (map g l).
Proof.
  induction 1 as [|x rest Hx _ IH]; [reflexivity|].
  cbn [res_map map]. rewrite Hx. cbn [res_bind]. rewrite IH. reflexivity.
Qed.

Lemma compute_score_summed (p : Path) (t : Topology) (weights norm : gmap string Qc)
    (d : Qc) :
  path_nodes p <> [] -> d <> Q2Qc 0 ->
  (forall r w, weights !! r = Some w ->
               exists v, norm !! r = Some v /\ v <> Q2Qc 0) ->
  compute_score p t weights norm d = Ok (summed_score p t weights norm d).
Proof.
  intros Hp Hd Hn. unfold compute_score, summed_score.
  rewrite score_loop_sum; [| exact Hp | exact Hd |].
  - rewrite length_map_to_list. f_equal. ring.
  - apply Forall_forall. intros [r w] Hin.
    apply elem_of_map_to_list in Hin. apply (Hn r w Hin).
Qed.

(** One traffic class. *)
Lemma k_resource_paths_tc_spec argsort (e : pptc_entry) (k : Z)
    (weights : gmap string Qc) (topo : Topology) :
  argsort_scores_spec argsort -> 0 <= k ->
  topo_diameter topo <> Q2Qc 0 ->
  (forall r w, weights !! r = Some w -> topo_total_resource topo r <> Q2Qc 0) ->
  Forall (fun p => path_nodes p <> []) (entry_paths e) ->
  exists e',
    k_resource_paths_tc argsort e k weights
      (map_imap (fun r _ => Some (topo_total_resource topo r)) weights)
      (topo_diameter topo) topo
    = Ok (e', reverse (argsort Qc Qcleb (scores_of topo weights e)))
    /\ selects_prefix (reverse (argsort Qc Qcleb (scores_of topo weights e))) k e e'
    /\ length (pptc.visible e')
       = Z.to_nat (Z.min k (Z.of_nat (length (entry_paths e))))
    /\ no_masked_better (scores_of topo weights e) e'.
Proof.
  intros Hspec Hk Hd Htotal Hpaths.
  set (total_r := map_imap (fun r (_ : Qc) => Some (topo_total_resource topo r)) weights).
  set (scores := scores_of topo weights e).
  set (n := length (entry_paths e)).
  set (sorted := argsort Qc Qcleb scores).
  set (ind := reverse sorted).
  set (c := Z.to_nat (Z.min k (Z.of_nat n))).
  assert (length scores = n) as Hlen_scores by (unfold scores, scores_of; apply length_map).
  destruct (Hspec scores) as [Hperm Hasc]. fold sorted in Hperm, Hasc.
  rewrite Hlen_scores in Hperm.
  assert (ind ≡ₚ seq 0 n) as Hperm_ind by (unfold ind; now rewrite reverse_Permutation).
  assert (length sorted = n) as Hlen_sorted.
  { rewrite (Permutation_length Hperm). apply length_seq. }
  assert (c <= n)%nat as Hc by (unfold c; lia).
  destruct (order_mask_spec ind n c Hperm_ind Hc)
    as (m & Hput & Hlen & Hvis & Hmasked & Hvis_inv & Hcount).
  assert (res_map (fun p => compute_score p topo weights total_r (topo_diameter topo))
                  (entry_paths e) = Ok scores) as Hscores.
  { unfold scores, scores_of. fold total_r. apply res_map_ok.
    eapply Forall_impl; [exact Hpaths|]. cbn beta. intros p Hp.
    apply compute_score_summed; [exact Hp | exact Hd |].
    intros r w Hw. exists (topo_total_resource topo r). split; [|eapply Htotal, Hw].
    unfold total_r. rewrite map_lookup_imap, Hw. reflexivity. }
  exists (pptc.set_mask e m). split; [|split; [|split]].
  - unfold k_resource_paths_tc. fold total_r. rewrite Hscores. cbn [res_bind].
    fold sorted. unfold np.flipud. fold ind.
    unfold pptc.num_paths. fold n. rewrite Nat2Z.id.
    unfold np.size, np.ones at 1. rewrite length_replicate.
    unfold np.slice_to. rewrite decide_True by lia. fold c.
    rewrite Hput. reflexivity.
  - unfold selects_prefix. cbn [entry_tc entry_paths entry_mask pptc.set_mask].
    fold n c. auto.
  - unfold pptc.visible. cbn [entry_mask pptc.set_mask]. exact Hcount.
  - intros i j x y Hi Hj Hx Hy.
    cbn [entry_mask pptc.set_mask] in Hi, Hj.
    apply Hvis_inv in Hi. apply elem_of_take in Hi as (a & Ha & Hac).
    assert (j ∉ take c ind) as Hnj.
    { intros Hc'. apply Hvis in Hc'. congruence. }
    assert (j ∈ ind) as Hj_in.
    { rewrite Hperm_ind. apply elem_of_seq. apply lookup_lt_Some in Hy. lia. }
    apply list_elem_of_lookup in Hj_in as [b Hb].
    assert (c <= b)%nat as Hcb.
    { destruct (le_lt_dec c b) as [|Hlt]; [assumption|].
      exfalso. apply Hnj, elem_of_take. exists b. auto. }
    assert (b < n)%nat as Hbn.
    { apply lookup_lt_Some in Hb. unfold ind in Hb.
      now rewrite length_reverse, Hlen_sorted in Hb. }
    unfold ind in Ha, Hb.
    rewrite reverse_lookup in Ha by (rewrite Hlen_sorted; lia).
    rewrite reverse_lookup in Hb by (rewrite Hlen_sorted; lia).
    rewrite Hlen_sorted in Ha, Hb.
    apply (Hasc (n - S b)%nat (n - S a)%nat j i y x); [lia | assumption..].
Qed.

(** X27. With an [argsort] that returns a permutation along which the
    scores ascend, [k >= 0], a non-zero diameter, a non-zero total of every
    weighted resource and paths that have nodes, [k_resource_paths]
    returns, and for every traffic class with [n] candidates the visible
    paths are exactly the first [min(k, n)] indices of the reversed order
    of the scores: no masked path has a higher score than a visible one.
    The score of a path is the sum, over the weighted resources, of the
    weighted share minus the length penalty. *)
Theorem k_resource_paths_selects_best
    (argsort : forall K : Type, (K -> K -> bool) -> list K -> list nat)
    (p : PPTC) (k : Z) (weights : gmap string Qc) (topo : Topology) :
  argsort_scores_spec argsort -> 0 <= k ->
  topo_diameter topo <> Q2Qc 0 ->
  (forall r w, weights !! r = Some w -> topo_total_resource topo r <> Q2Qc 0) ->
  Forall (fun e => Forall (fun q => path_nodes q <> []) (entry_paths e)) p ->
  exists p' inds,
    k_resource_paths argsort p k weights topo = Ok (p', inds)
    /\ Forall2 (fun e e' =>
                  selects_prefix (reverse (argsort Qc Qcleb (scores_of topo weights e)))
                                 k e e'
                  /\ length (pptc.visible e')
                     = Z.to_nat (Z.min k (Z.of_nat (length (entry_paths e))))
                  /\ no_masked_better (scores_of topo weights e) e')
               p p'.
Proof.
  intros Hspec Hk Hd Htotal Hpaths. unfold k_resource_paths.
  induction Hpaths as [|e rest He _ IH].
  - exists [], ∅. split; [reflexivity | constructor].
  - destruct IH as (rest' & inds & Hrest & Hall).
    destruct (k_resource_paths_tc_spec argsort e k weights topo Hspec Hk Hd Htotal He)
      as (e' & Hrun & Hsel & Hcount & Hbest).
    exists (e' :: rest'),
           (inds ∪ {[ID (entry_tc e)
                     := reverse (argsort Qc Qcleb (scores_of topo weights e))]}).
    split.
    + cbn [k_resource_paths_loop]. rewrite Hrun. cbn [res_bind]. rewrite Hrest.
      reflexivity.
    + constructor; [auto | exact Hall].
Qed.

Lemma k_resource_paths_selects_best_witness :
  exists p' inds,
    k_resource_paths stable_argsort three_candidates 2 two_resources
                     a_resource_topology = Ok (p', inds)
    /\ map entry_mask p' = [[0; 0; 1]].
Proof.
  destruct (k_resource_paths_selects_best stable_argsort three_candidates 2
              two_resources a_resource_topology)
    as (p' & inds & Hrun & _).
  - exact stable_argsort_scores_spec.
  - lia.
  - intros Hd. vm_compute in Hd. discriminate Hd.
  - intros r w _ Hd. vm_compute in Hd. discriminate Hd.
  - repeat constructor; discriminate.
  - exists p', inds. split; [exact Hrun|].
    vm_compute in Hrun. injection Hrun as <- _. reflexivity.
Defined.

(** ** [choose_rand] with a negative [num_paths] *)

(** X28. Unlike [k_shortest_paths], [choose_rand] does not accept a
    negative [num_paths]: every traffic class then has more candidates
    than [num_paths], so the sample is asked of [numpy.random.choice],
    which refuses a negative size. On a container that is not empty
    [choose_rand] raises [ValueError] without drawing a number and without
    changing anything. *)
Theorem choose_rand_negative
    (choice_oracle : nat -> list nat -> nat -> list nat)
    (p : PPTC) (num_paths : Z) (w : world) :
  num_paths < 0 -> p <> [] ->
  exists msg, choose_rand choice_oracle p num_paths w = (Raise (ValueError msg), w).
Proof.
  intros Hk Hp. destruct p as [|e rest]; [contradiction|].
  unfold choose_rand. cbn [mapM]. unfold bind at 1, choose_rand_tc.
  rewrite decide_True by lia.
  unfold bind at 1, np_choice. rewrite decide_False by lia.
  eauto.
Qed.

Lemma choose_rand_negative_witness :
  exists msg,
    choose_rand prefix_choice three_candidates (-1) empty_world
    = (Raise (ValueError msg), empty_world).
Proof.
  apply choose_rand_negative; [lia | discriminate].
Defined.
